(** * almanac-pro: the aggregation and solver core, embedded and verified

    The dashboard's computations live in two pages:
    - [src/pages/CustomerGroups.jsx]: row normalizer, model filter,
      categorical summarizer, attitude scorer, price bucketizer;
    - [src/pages/MarketSimulation.jsx]: demand model, KPI derivation,
      closed-form and bisection inverses, the edit handler.

    JavaScript numbers are IEEE binary64 values, modelled by Rocq's primitive
    [float]; counters that the code increments by one are natural numbers,
    converted to [float] where the code divides them.  Strings are sequences
    of code units below 256 (Latin-1).  Row objects are finite maps from
    field names to flat values. *)

From Stdlib Require Import ZArith Lia String Ascii List Floats Reals Lra.
From Stdlib Require Uint63.
From stdpp Require Import gmap strings list.

Set Warnings "-inexact-float".
#[local] Open Scope Z_scope.
#[local] Open Scope string_scope.
#[local] Open Scope list_scope.

(** ** JavaScript values, strings and numbers *)

Module JS.

(** *** Strings *)

(** [WhiteSpace] and [LineTerminator] code units below 256: TAB, LF, VT, FF,
    CR, SPACE and NBSP.  This is what [String.prototype.trim] strips and
    what [\s] matches. *)
Definition is_ws (c : ascii) : bool :=
  let n := N_of_ascii c in
  ((n =? 9) || (n =? 10) || (n =? 11) || (n =? 12) || (n =? 13)
   || (n =? 32) || (n =? 160))%N.

Fixpoint trimStart (s : string) : string :=
  match s with
  | EmptyString => EmptyString
  | String c s' => if is_ws c then trimStart s' else s
  end.

Fixpoint trimEnd (s : string) : string :=
  match s with
  | EmptyString => EmptyString
  | String c s' =>
      match trimEnd s' with
      | EmptyString => if is_ws c then EmptyString else String c EmptyString
      | t => String c t
      end
  end.

(** [s.trim()] *)
Definition trim (s : string) : string := trimEnd (trimStart s).

(** Lower-casing of one code unit: A-Z, and the Latin-1 capitals
    U+00C0..U+00DE except the multiplication sign U+00D7. *)
Definition lower_char (c : ascii) : ascii :=
  let n := N_of_ascii c in
  if ((65 <=? n) && (n <=? 90))%N then ascii_of_N (n + 32)
  else if ((192 <=? n) && (n <=? 222) && negb (n =? 215))%N
       then ascii_of_N (n + 32)
       else c.

(** [s.toLowerCase()] *)
Fixpoint toLowerCase (s : string) : string :=
  match s with
  | EmptyString => EmptyString
  | String c s' => String (lower_char c) (toLowerCase s')
  end.

(** [s.replace(/\s+/g, " ")]: [in_run] tells that the previous code unit
    was white space, already replaced. *)
Fixpoint collapse_from (in_run : bool) (s : string) : string :=
  match s with
  | EmptyString => EmptyString
  | String c s' =>
      if is_ws c
      then if in_run then collapse_from true s'
           else String " " (collapse_from true s')
      else String c (collapse_from false s')
  end.

Definition collapse_ws (s : string) : string := collapse_from false s.

(** [s.replace(/[...]/g, "")] for a character class given as a predicate. *)
Fixpoint remove_chars (p : ascii -> bool) (s : string) : string :=
  match s with
  | EmptyString => EmptyString
  | String c s' =>
      if p c then remove_chars p s' else String c (remove_chars p s')
  end.

(** Case-insensitive comparison of two code units as the [i] flag does it
    without the [u] flag: ASCII letters fold, nothing else reaches them. *)
Definition upper_ascii (c : ascii) : ascii :=
  let n := N_of_ascii c in
  if ((97 <=? n) && (n <=? 122))%N then ascii_of_N (n - 32) else c.

(** [new RegExp("^" + p, "i").test(s)] for a literal pattern [p]. *)
Fixpoint prefix_ci (p s : string) : bool :=
  match p, s with
  | EmptyString, _ => true
  | String _ _, EmptyString => false
  | String a p', String b s' =>
      Ascii.eqb (upper_ascii a) (upper_ascii b) && prefix_ci p' s'
  end.

(** Lexicographic order on code units, the order of the default
    [Array.prototype.sort]. *)
Fixpoint str_ltb (a b : string) : bool :=
  match a, b with
  | _, EmptyString => false
  | EmptyString, String _ _ => true
  | String x a', String y b' =>
      if (N_of_ascii x <? N_of_ascii y)%N then true
      else if (N_of_ascii y <? N_of_ascii x)%N then false
           else str_ltb a' b'
  end.

(** *** Numbers *)

Definition is_finite (x : float) : bool :=
  negb (PrimFloat.is_nan x) && negb (PrimFloat.is_infinity x).

(** [a > b] and [a >= b] are the mirrored comparisons. *)
Definition gtb (a b : float) : bool := PrimFloat.ltb b a.
Definition geb (a b : float) : bool := PrimFloat.leb b a.

Definition is_neg_zero (x : float) : bool :=
  PrimFloat.is_zero x && PrimFloat.get_sign x.

(** [Math.max(a, b)]: NaN is contagious and +0 is above -0. *)
Definition Math_max (a b : float) : float :=
  if PrimFloat.is_nan a || PrimFloat.is_nan b then PrimFloat.nan
  else if PrimFloat.ltb a b then b
  else if PrimFloat.ltb b a then a
  else if is_neg_zero a then b else a.

(** [Math.min(a, b)]: NaN is contagious and -0 is below +0. *)
Definition Math_min (a b : float) : float :=
  if PrimFloat.is_nan a || PrimFloat.is_nan b then PrimFloat.nan
  else if PrimFloat.ltb a b then a
  else if PrimFloat.ltb b a then b
  else if is_neg_zero a then a else b.

(** The exact conversion of an integer, rounded to nearest-even when it
    has more than 53 significant bits. *)
Definition of_Z (z : Z) : float :=
  SF2Prim (binary_normalize prec emax z 0 false).

(** A counter the code increments from zero, read as a number. *)
Definition of_nat (n : nat) : float := of_Z (Z.of_nat n).

(** Integers extended with the non-finite values, for what
    [Math.floor] returns and integer arithmetic on it. *)
Inductive zext : Type :=
| ZNaN
| ZNegInf
| ZFin (z : Z)
| ZPosInf.

(** [Math.floor(x)]: the floor of a finite double is an integer, which a
    double holds exactly. *)
Definition Math_floor (x : float) : zext :=
  match Prim2SF x with
  | S754_nan => ZNaN
  | S754_infinity s => if s then ZNegInf else ZPosInf
  | S754_zero _ => ZFin 0
  | S754_finite s m e =>
      let v := if s then Zneg m else Zpos m in
      ZFin (if (0 <=? e)%Z then (v * 2 ^ e)%Z else Z.shiftr v (- e))
  end.

(** [Math.round(x)]: the nearest integer, ties upwards. *)
Definition Math_round (x : float) : float :=
  match Prim2SF x with
  | S754_finite s m e =>
      let v := if s then Zneg m else Zpos m in
      let r :=
        if (0 <=? e)%Z then (v * 2 ^ e)%Z
        else Z.shiftr (v + 2 ^ (- e - 1)) (- e)
      in
      if (r =? 0)%Z
      then if s then PrimFloat.neg_zero else PrimFloat.zero
      else of_Z r
  | _ => x
  end.

(** *** Values *)

(** The flat values a record holds. *)
Inductive jsval : Type :=
| JUndefined
| JNull
| JBool (b : bool)
| JNum (x : float)
| JStr (s : string).

(** [v === null || v === undefined] *)
Definition nullish (v : jsval) : bool :=
  match v with
  | JUndefined | JNull => true
  | _ => false
  end.

(** [a ?? b] *)
Definition coalesce (a b : jsval) : jsval := if nullish a then b else a.

(** [!!v] *)
Definition ToBoolean (v : jsval) : bool :=
  match v with
  | JUndefined | JNull => false
  | JBool b => b
  | JNum x => negb (PrimFloat.is_zero x || PrimFloat.is_nan x)
  | JStr s => negb (String.eqb s "")
  end.

(** What the engine supplies: the conversions between numbers and strings
    and [Math.pow], whose result the language leaves to the
    implementation.  A number never prints as the empty string. *)
Class Runtime : Type := {
  StringToNumber : string -> float;
  NumberToString : float -> string;
  NumberToString_nonempty : forall x, NumberToString x <> "";
  toFixed : float -> nat -> string;
  parseFloat : string -> float;
  Math_pow : float -> float -> float
}.

Section Conversions.
Context {rt : Runtime}.

(** [String(v)] *)
Definition ToString (v : jsval) : string :=
  match v with
  | JUndefined => "undefined"
  | JNull => "null"
  | JBool true => "true"
  | JBool false => "false"
  | JNum x => NumberToString x
  | JStr s => s
  end.

(** [Number(v)] *)
Definition ToNumber (v : jsval) : float :=
  match v with
  | JUndefined => PrimFloat.nan
  | JNull => 0%float
  | JBool true => 1%float
  | JBool false => 0%float
  | JNum x => x
  | JStr s => StringToNumber s
  end.
End Conversions.

(** [SameValueZero], the equality of [Map] keys and of
    [Array.prototype.includes]. *)
Definition SameValueZero (a b : jsval) : bool :=
  match a, b with
  | JUndefined, JUndefined => true
  | JNull, JNull => true
  | JBool x, JBool y => Bool.eqb x y
  | JNum x, JNum y =>
      PrimFloat.eqb x y || (PrimFloat.is_nan x && PrimFloat.is_nan y)
  | JStr x, JStr y => String.eqb x y
  | _, _ => false
  end.

(** [arr.includes(v)] *)
Definition includes (arr : list jsval) (v : jsval) : bool :=
  existsb (fun a => SameValueZero a v) arr.

(** A record: its own properties.  [get r k] is [r[k]]. *)
Definition get (r : gmap string jsval) (k : string) : jsval :=
  default JUndefined (r !! k).

(** [r?.[k]] for a record that may itself be null or undefined. *)
Definition get_opt (r : option (gmap string jsval)) (k : string) : jsval :=
  match r with
  | Some o => get o k
  | None => JUndefined
  end.

(** [a === b] *)
Definition StrictEquals (a b : jsval) : bool :=
  match a, b with
  | JUndefined, JUndefined => true
  | JNull, JNull => true
  | JBool x, JBool y => Bool.eqb x y
  | JNum x, JNum y => PrimFloat.eqb x y
  | JStr x, JStr y => String.eqb x y
  | _, _ => false
  end.

(** [arr.findIndex(p)]; [None] is the [-1] of no match. *)
Fixpoint findIndex {A : Type} (p : A -> bool) (l : list A) : option nat :=
  match l with
  | [] => None
  | x :: l' => if p x then Some 0%nat else option_map S (findIndex p l')
  end.

(** [arr[i]] for an integer [i]: [None] is [undefined]. *)
Definition nth_Z {A : Type} (l : list A) (i : Z) : option A :=
  if (i <? 0)%Z then None else l !! Z.to_nat i.

(** *** Integers of 32 bits *)

(** [ToInt32]: the integer modulo [2^32] in [-2^31, 2^31). *)
Definition ToInt32 (z : Z) : Z := ((z + 2 ^ 31) mod 2 ^ 32 - 2 ^ 31)%Z.

(** *** Hexadecimal text *)

(** [s.replace(c, "")] for a one-character pattern: the first occurrence
    goes. *)
Fixpoint remove_first (c : ascii) (s : string) : string :=
  match s with
  | EmptyString => EmptyString
  | String a s' => if Ascii.eqb a c then s' else String a (remove_first c s')
  end.

(** [s.split("").map((c) => c + c).join("")] *)
Fixpoint double_chars (s : string) : string :=
  match s with
  | EmptyString => EmptyString
  | String a s' => String a (String a (double_chars s'))
  end.

(** [s.slice(a, b)] for [0 <= a <= b] *)
Definition slice (a b : nat) (s : string) : string :=
  substring a (b - a) s.

(** The value of a digit of radix 16. *)
Definition hex_val (c : ascii) : option Z :=
  let n := N_of_ascii c in
  if ((48 <=? n) && (n <=? 57))%N then Some (Z.of_N n - 48)%Z
  else if ((97 <=? n) && (n <=? 102))%N then Some (Z.of_N n - 87)%Z
  else if ((65 <=? n) && (n <=? 70))%N then Some (Z.of_N n - 55)%Z
  else None.

(** The value of the longest prefix of digits; [None] when it is empty. *)
Fixpoint hex_prefix (s : string) (acc : Z) (seen : bool) : option Z :=
  match s with
  | EmptyString => if seen then Some acc else None
  | String c s' =>
      match hex_val c with
      | Some d => hex_prefix s' (acc * 16 + d)%Z true
      | None => if seen then Some acc else None
      end
  end.

(** The prefix [0x] or [0X] goes. *)
Definition strip_0x (s : string) : string :=
  match s with
  | String "0" (String c s') =>
      if Ascii.eqb c "x" || Ascii.eqb c "X" then s' else s
  | _ => s
  end.

(** [parseInt(s, 16)] *)
Definition parseInt16 (s : string) : float :=
  let s1 := trimStart s in
  let '(neg, s2) :=
    match s1 with
    | String "-" r => (true, r)
    | String "+" r => (false, r)
    | _ => (false, s1)
    end in
  match hex_prefix (strip_0x s2) 0 false with
  | None => PrimFloat.nan
  | Some n =>
      if neg
      then if (n =? 0)%Z then PrimFloat.neg_zero else of_Z (- n)
      else of_Z n
  end.

(** The digit of radix 16 of a value below 16, in lower case. *)
Definition hex_digit (d : Z) : ascii :=
  if (d <? 10)%Z then ascii_of_N (48 + Z.to_N d)
  else ascii_of_N (87 + Z.to_N d).

Fixpoint hex_digits_acc (fuel : nat) (n : Z) (acc : string) : string :=
  match fuel with
  | O => acc
  | S fuel' =>
      let acc' := String (hex_digit (n mod 16)) acc in
      if (n / 16 =? 0)%Z then acc' else hex_digits_acc fuel' (n / 16) acc'
  end.

(** The digits of radix 16 of a natural number. *)
Definition hex_of_Z (n : Z) : string :=
  hex_digits_acc (Z.to_nat (Z.log2 n / 4 + 1)) n EmptyString.

(** The [k] digits of radix 16 of the fraction [F / 16^k], without the
    zeros at its end. *)
Fixpoint hex_fraction (k : nat) (F : Z) : string :=
  match k with
  | O => EmptyString
  | S k' =>
      if (F =? 0)%Z then EmptyString
      else
        String (hex_digit (F / 16 ^ Z.of_nat k'))
          (hex_fraction k' (F mod 16 ^ Z.of_nat k'))
  end.

(** [x.toString(16)]: every double has an exact finite expansion in
    radix 16. *)
Definition Number_toString16 (x : float) : string :=
  match Prim2SF x with
  | S754_nan => "NaN"
  | S754_infinity s => if s then "-Infinity" else "Infinity"
  | S754_zero _ => "0"
  | S754_finite s m e =>
      let sign := if s then "-" else "" in
      if (0 <=? e)%Z then sign ++ hex_of_Z (Zpos m * 2 ^ e)
      else
        let bits := (- e)%Z in
        let k := ((bits + 3) / 4)%Z in
        let I := Z.shiftr (Zpos m) bits in
        let F := (Zpos m mod 2 ^ bits * 2 ^ (4 * k - bits))%Z in
        if (F =? 0)%Z then sign ++ hex_of_Z I
        else sign ++ hex_of_Z I ++ "." ++ hex_fraction (Z.to_nat k) F
  end.

(** [s.padStart(n, "0")] *)
Definition padStart0 (n : nat) (s : string) : string :=
  string_of_list_ascii (repeat "0"%char (n - String.length s)) ++ s.

End JS.

(** ** [src/pages/CustomerGroups.jsx] *)

Module CustomerGroups.
Import JS.

(** A record of the dataset: field name to flat value. *)
Abbreviation row := (gmap string jsval).

(** One field's code table, a [Map] read with [has]/[get]: the label of a
    key, if the key is present.  All its labels are strings. *)
Definition codemap : Type := jsval -> option string.

(** [demoLookups]: field name to code table. *)
Definition lookups : Type := string -> option codemap.

Definition empty_codemap : codemap := fun _ => None.

(** [demoLookups.get(field) || new Map()] *)
Definition codemap_of (demoLookups : lookups) (field : string) : codemap :=
  default empty_codemap (demoLookups field).

(** *** Extended-integer arithmetic on what [Math.floor] returns *)

Definition zext_min (a b : zext) : zext :=
  match a, b with
  | ZNaN, _ | _, ZNaN => ZNaN
  | ZNegInf, _ | _, ZNegInf => ZNegInf
  | ZPosInf, x | x, ZPosInf => x
  | ZFin x, ZFin y => ZFin (Z.min x y)
  end.

Definition zext_max (a b : zext) : zext :=
  match a, b with
  | ZNaN, _ | _, ZNaN => ZNaN
  | ZPosInf, _ | _, ZPosInf => ZPosInf
  | ZNegInf, x | x, ZNegInf => x
  | ZFin x, ZFin y => ZFin (Z.max x y)
  end.

(** [1 + x] *)
Definition zext_succ (a : zext) : zext :=
  match a with
  | ZFin x => ZFin (1 + x)
  | _ => a
  end.

Section WithRuntime.
Context {rt : Runtime}.

(** *** Coercions *)

Definition is_comma (c : ascii) : bool := Ascii.eqb c ",".
Definition is_dollar_or_comma (c : ascii) : bool :=
  Ascii.eqb c "$" || Ascii.eqb c ",".

Definition coerceNumber (v : jsval) : float :=
  if nullish v then PrimFloat.nan
  else
    let n := StringToNumber (remove_chars is_comma (trim (ToString v))) in
    if is_finite n then n else PrimFloat.nan.

Definition coercePrice (v : jsval) : float :=
  if nullish v then PrimFloat.nan
  else
    let n :=
      StringToNumber (trim (remove_chars is_dollar_or_comma (ToString v)))
    in
    if is_finite n then n else PrimFloat.nan.

(** *** Price buckets *)

Definition BUCKET_MIN : float := 30000.
Definition BUCKET_STEP : float := 5000.
Definition OVER_MIN : float := 110000.

Definition fmtK (n : float) : string :=
  "$" ++ NumberToString (Math_round (n / 1000)) ++ "k".

Definition fmtKDec (n : float) : string :=
  "$" ++ toFixed (n / 1000) 1 ++ "k".

Definition bucketLabel (low high : float) : string :=
  if PrimFloat.eqb low PrimFloat.neg_infinity then "Under $30k"
  else if PrimFloat.eqb high PrimFloat.infinity then "$110k+"
  else
    let displayHigh := (high - 100)%float in
    fmtK low ++ " to " ++ fmtKDec displayHigh.

Record range : Type := mkRange {
  low : float;
  high : float;
  label : string
}.

(** The [for (let low = BUCKET_MIN; low < OVER_MIN; low += BUCKET_STEP)]
    loop, at most [fuel] turns. *)
Fixpoint ranges_loop (fuel : nat) (lo : float) : list range :=
  match fuel with
  | O => []
  | S fuel' =>
      if PrimFloat.ltb lo OVER_MIN
      then
        let hi := (lo + BUCKET_STEP)%float in
        mkRange lo hi (bucketLabel lo hi) :: ranges_loop fuel' hi
      else []
  end.

(** The loop leaves at its seventeenth test; see [ranges_loop_fuel]. *)
Definition getFixedBucketRanges : list range :=
  mkRange PrimFloat.neg_infinity BUCKET_MIN
    (bucketLabel PrimFloat.neg_infinity BUCKET_MIN)
  :: ranges_loop 17 BUCKET_MIN
  ++ [mkRange OVER_MIN PrimFloat.infinity
        (bucketLabel OVER_MIN PrimFloat.infinity)].

Record bucket : Type := mkBucket {
  b_label : string;
  b_pct : float;
  b_count : nat
}.

Record buckets_result : Type := mkBuckets {
  data : list bucket;
  totalValid : nat
}.

(** The values that coerce to a finite price, in row order. *)
Definition price_vals (rows : list (option row)) : list float :=
  filter (fun n => is_finite n = true)
    (map (fun r => coercePrice (get_opt r "FIN_PRICE_UNEDITED")) rows).

(** The index a value selects among [n] buckets; [ZNaN] selects none.
    [(OVER_MIN - BUCKET_MIN) / BUCKET_STEP - 1] is an integer, read
    through [Math_floor]. *)
Definition bucketIndex (n : nat) (v : float) : zext :=
  if PrimFloat.ltb v BUCKET_MIN then ZFin 0
  else if geb v OVER_MIN then ZFin (Z.of_nat n - 1)
  else
    let stepIdx := Math_floor ((v - BUCKET_MIN) / BUCKET_STEP) in
    zext_succ
      (zext_max (ZFin 0)
         (zext_min stepIdx
            (Math_floor
               ((OVER_MIN - BUCKET_MIN) / BUCKET_STEP - 1)%float))).

(** [if (idx >= 0) buckets[idx].count += 1]: [None] is the [TypeError]
    of reading [count] of a missing element. *)
Definition bump (idx : zext) (counts : list nat) : option (list nat) :=
  match idx with
  | ZNaN | ZNegInf => Some counts
  | ZPosInf => None
  | ZFin z =>
      if (0 <=? z)%Z
      then if decide (Z.to_nat z < length counts)%nat
           then Some (alter S (Z.to_nat z) counts)
           else None
      else Some counts
  end.

Fixpoint count_vals (vals : list float) (counts : list nat)
  : option (list nat) :=
  match vals with
  | [] => Some counts
  | v :: vals' =>
      match bump (bucketIndex (length counts) v) counts with
      | Some counts' => count_vals vals' counts'
      | None => None
      end
  end.

(** [None] stands for an exception. *)
Definition buildBucketsForRows (rows : list (option row))
  : option buckets_result :=
  let ranges := getFixedBucketRanges in
  let vals := price_vals rows in
  let totalValid := length vals in
  if decide (totalValid = 0)%nat then Some (mkBuckets [] 0)
  else
    match count_vals vals (map (fun _ => 0%nat) ranges) with
    | None => None
    | Some counts =>
        let pct (c : nat) : float :=
          if (0 <? totalValid)%nat
          then (of_nat c / of_nat totalValid * 100)%float
          else 0%float
        in
        Some
          (mkBuckets
             (zip_with (fun r c => mkBucket (label r) (pct c) c)
                ranges counts)
             totalValid)
    end.

(** *** Attitude scorer *)

(** [AGREE_TOP3] and [AGREE_TOP2] *)
Definition AGREE_TOP3 : list string :=
  ["strongly agree"; "agree"; "somewhat agree"].
Definition AGREE_TOP2 : list string :=
  ["strongly agree"; "somewhat agree"].

(** [set.has(s)] on a set of strings *)
Definition has (set : list string) (s : string) : bool :=
  existsb (String.eqb s) set.

(** [v !== undefined && v !== null && String(v).trim() !== ""] *)
Definition present (v : jsval) : bool :=
  negb (nullish v) && negb (String.eqb (trim (ToString v)) "").

(** [for (const a of aliases)]: the first alias that is present. *)
Fixpoint first_present (r : option row) (aliases : list string)
  : option jsval :=
  match aliases with
  | [] => None
  | a :: rest =>
      let va := get_opt r a in
      if present va then Some va else first_present r rest
  end.

(** [None] is the [null] the function returns. *)
Definition getAttRaw (r : option row) (varName : string) : option jsval :=
  let v := get_opt r varName in
  if present v then Some v
  else
    first_present r
      [(varName ++ "_LABEL")%string; (varName ++ "_TXT")%string;
       (varName ++ "_TEXT")%string; (varName ++ "_DESC")%string;
       (varName ++ "_LAB")%string].

(** [String(s ?? "").trim().toLowerCase().replace(/\s+/g, " ")] *)
Definition normalizeLabel (s : string) : string :=
  collapse_ws (toLowerCase (trim s)).

Definition resolveMappedLabel (r : option row) (varName : string)
    (demoLookups : lookups) : option string :=
  match getAttRaw r varName with
  | None => None
  | Some raw =>
      let codeMap := codemap_of demoLookups varName in
      match codeMap raw with
      | Some l => Some l
      | None =>
          let asStr := ToString raw in
          match codeMap (JStr asStr) with
          | Some l => Some l
          | None =>
              let asNum := StringToNumber asStr in
              let viaNum :=
                if is_finite asNum
                then match codeMap (JNum asNum) with
                     | Some l => Some l
                     | None => codeMap (JStr (NumberToString asNum))
                     end
                else None
              in
              match viaNum with
              | Some l => Some l
              | None => Some asStr
              end
          end
      end
  end.

Inductive policy : Type := LOYAL_ONLY | TOP2 | TOP3.

Definition agreePolicyFor (varName : string) : policy :=
  if String.eqb varName "OL_MODEL_GRP" then LOYAL_ONLY
  else if prefix_ci "STATE_" varName then TOP2
  else TOP3.

Definition isTopNAgree (lab : string) (p : policy) : bool :=
  let s := normalizeLabel lab in
  match p with
  | LOYAL_ONLY => String.eqb s "loyal"
  | TOP2 => has AGREE_TOP2 s
  | TOP3 => has AGREE_TOP3 s
  end.

(** The three counters of the loop. *)
Record tally : Type := mkTally {
  agree : nat;
  valid : nat;
  missing : nat
}.

(** One turn of [for (const r of rows)]; [!lab] holds of [null] and of
    the empty string. *)
Definition tally_row (varName : string) (demoLookups : lookups)
    (t : tally) (r : option row) : tally :=
  match resolveMappedLabel r varName demoLookups with
  | None | Some "" => mkTally (agree t) (valid t) (S (missing t))
  | Some lab =>
      mkTally
        (if isTopNAgree lab (agreePolicyFor varName)
         then S (agree t) else agree t)
        (S (valid t)) (missing t)
  end.

Definition tally_rows (rows : list (option row)) (varName : string)
    (demoLookups : lookups) : tally :=
  fold_left (tally_row varName demoLookups) rows (mkTally 0 0 0).

(** The denominator of the score. *)
Definition denominator (includeMissingInDenom : bool) (t : tally) : nat :=
  if includeMissingInDenom then (valid t + missing t)%nat else valid t.

Definition percentAgreeMappedPolicy (rows : list (option row))
    (varName : string) (demoLookups : lookups)
    (includeMissingInDenom : bool) : float :=
  let t := tally_rows rows varName demoLookups in
  let denom := denominator includeMissingInDenom t in
  if (0 <? denom)%nat
  then (of_nat (agree t) / of_nat denom * 100)%float
  else PrimFloat.nan.

(** [percentAgree] with the options argument left out:
    [{ includeMissingInDenom = true } = {}]. *)
Definition percentAgree (rows : list (option row)) (varName : string)
    (demoLookups : lookups) : float :=
  percentAgreeMappedPolicy rows varName demoLookups true.

(** *** Row normalizer *)

(** [r?.model ?? r?.BLD_DESC_RV_MODEL ?? r?.Model ?? r?.model_name
    ?? r?.MODEL ?? null] *)
Definition modelVal (r : option row) : jsval :=
  coalesce (get_opt r "model")
    (coalesce (get_opt r "BLD_DESC_RV_MODEL")
       (coalesce (get_opt r "Model")
          (coalesce (get_opt r "model_name")
             (coalesce (get_opt r "MODEL") JNull)))).

(** The test that lets a record through. *)
Definition keeps (r : option row) : bool :=
  ToBoolean (modelVal r)
  && is_finite (ToNumber (get_opt r "emb_x"))
  && is_finite (ToNumber (get_opt r "emb_y"))
  && is_finite (ToNumber (get_opt r "cluster")).

(** [{ ...r, model: String(modelVal), raw_x: x, raw_y: y, emb_x: x,
    emb_y: y, cluster: cl }] *)
Definition normalized (r : option row) : row :=
  let x := ToNumber (get_opt r "emb_x") in
  let y := ToNumber (get_opt r "emb_y") in
  let cl := ToNumber (get_opt r "cluster") in
  <["cluster" := JNum cl]>
    (<["emb_y" := JNum y]>
       (<["emb_x" := JNum x]>
          (<["raw_y" := JNum y]>
             (<["raw_x" := JNum x]>
                (<["model" := JStr (ToString (modelVal r))]>
                   (default ∅ r)))))).

(** The [rows] memo: the body of [for (const r of dataPoints || [])]. *)
Fixpoint rows_of (dataPoints : list (option row)) : list row :=
  match dataPoints with
  | [] => []
  | r :: rest =>
      if keeps r then normalized r :: rows_of rest else rows_of rest
  end.

(** *** Model filter *)

(** [Array.from(new Set(l))]: first occurrences, in order. *)
Fixpoint set_add_all (seen : list jsval) (l : list jsval) : list jsval :=
  match l with
  | [] => seen
  | v :: l' =>
      if includes seen v then set_add_all seen l'
      else set_add_all (seen ++ [v]) l'
  end.

(** The order of [arr.sort()]: [undefined] last, the rest by their
    strings. *)
Definition sort_before (a b : jsval) : bool :=
  match a, b with
  | JUndefined, _ => false
  | _, JUndefined => true
  | _, _ => str_ltb (ToString a) (ToString b)
  end.

Fixpoint sort_insert (x : jsval) (l : list jsval) : list jsval :=
  match l with
  | [] => [x]
  | y :: l' =>
      if sort_before y x then y :: sort_insert x l' else x :: y :: l'
  end.

(** [arr.sort()], stable. *)
Definition sort_default (l : list jsval) : list jsval :=
  foldr sort_insert [] l.

(** [Array.from(new Set(rows.map((r) => r.model))).sort()] *)
Definition allModels (rows : list row) : list jsval :=
  sort_default (set_add_all [] (map (fun r => get r "model") rows)).

(** [selectedModels?.length ? selectedModels : allModels], then the
    filter.  [None] is a null or undefined selection. *)
Definition baseByModel (rows : list row)
    (selectedModels : option (list jsval)) : list row :=
  let active :=
    match selectedModels with
    | Some (m :: ms) => m :: ms
    | Some [] | None => allModels rows
    end in
  List.filter (fun r => includes active (get r "model")) rows.

(** *** Categorical and numeric summaries ([demoSummary]) *)

Record item : Type := mkItem {
  i_label : string;
  i_count : nat;
  i_pct : float
}.

(** A section of the summary, without its field name; the display
    string of the numeric average is left out. *)
Inductive section : Type :=
| Numeric (value : float) (nValid nMissing : nat)
| Categorical (items : list item) (total : nat).

Definition categoricalFinFields : list string := ["C1_PL"; "FIN_CREDIT"].

Definition isFinancingNumeric (selectedFieldGroup field : string) : bool :=
  String.eqb selectedFieldGroup "Financing"
  && negb (has categoricalFinFields field).

Record num_acc : Type := mkNumAcc {
  n_sum : float;
  n_wsum : float;
  n_valid : nat;
  n_missing : nat
}.

Definition numeric_step (field : string) (a : num_acc) (r : option row)
  : num_acc :=
  let num := coerceNumber (get_opt r field) in
  if is_finite num
  then mkNumAcc (n_sum a + num) (n_wsum a + 1) (S (n_valid a))
         (n_missing a)
  else mkNumAcc (n_sum a) (n_wsum a) (n_valid a) (S (n_missing a)).

(** The numeric branch: a section when some value is numeric. *)
Definition numericSection (srcAll : list (option row)) (field : string)
  : option section :=
  let a := fold_left (numeric_step field) srcAll (mkNumAcc 0 0 0 0) in
  if (0 <? n_valid a)%nat
  then
    let avg :=
      if gtb (n_wsum a) 0 then (n_sum a / n_wsum a)%float
      else PrimFloat.nan in
    Some (Numeric avg (n_valid a) (n_missing a))
  else None.

(** The label a raw value is counted under. *)
Definition categoryLabel (codeMap : codemap) (rawVal : jsval) : string :=
  let label := trim (ToString rawVal) in
  match codeMap rawVal with
  | Some l => l
  | None =>
      match codeMap (JStr (ToString rawVal)) with
      | Some l => l
      | None =>
          match codeMap (JNum (ToNumber rawVal)) with
          | Some l => l
          | None =>
              let asNum := StringToNumber label in
              match
                (if is_finite asNum then codeMap (JNum asNum) else None)
              with
              | Some l => l
              | None =>
                  match codeMap (JStr (NumberToString asNum)) with
                  | Some l => l
                  | None => label
                  end
              end
          end
      end
  end.

(** [counts.set(label, (counts.get(label) || 0) + 1)] on a [Map], which
    keeps its keys in insertion order. *)
Fixpoint counts_bump (l : string) (counts : list (string * nat))
  : list (string * nat) :=
  match counts with
  | [] => [(l, 1%nat)]
  | (k, c) :: rest =>
      if String.eqb k l then (k, S c) :: rest
      else (k, c) :: counts_bump l rest
  end.

Record cat_acc : Type := mkCatAcc {
  counts : list (string * nat);
  validCount : nat;
  missingCount : nat
}.

Definition categorical_step (codeMap : codemap) (field : string)
    (a : cat_acc) (r : option row) : cat_acc :=
  let rawVal := get_opt r field in
  if present rawVal
  then mkCatAcc (counts_bump (categoryLabel codeMap rawVal) (counts a))
         (S (validCount a)) (missingCount a)
  else mkCatAcc (counts a) (validCount a) (S (missingCount a)).

(** [(count / fieldTotal) * 100] *)
Definition pct_of (fieldTotal count : nat) : float :=
  (of_nat count / of_nat fieldTotal * 100)%float.

(** [.sort((a, b) => b.count - a.count)], stable: larger counts first,
    equal counts in their order of arrival. *)
Fixpoint insert_by_count (x : item) (l : list item) : list item :=
  match l with
  | [] => [x]
  | y :: l' =>
      if (i_count x <? i_count y)%nat then y :: insert_by_count x l'
      else x :: y :: l'
  end.

Definition sort_by_count (l : list item) : list item :=
  foldr insert_by_count [] l.

(** [items.reduce((a, b) => a + b.pct, 0)] *)
Definition sum_pct (items : list item) : float :=
  fold_left (fun a b => (a + i_pct b)%float) items 0%float.

(** [items[items.length - 1].pct += diff] *)
Fixpoint add_to_last (diff : float) (items : list item) : list item :=
  match items with
  | [] => []
  | [x] => [mkItem (i_label x) (i_count x) (i_pct x + diff)]
  | x :: rest => x :: add_to_last diff rest
  end.

(** The items before the correction of the last one. *)
Definition raw_items (a : cat_acc) : list item :=
  let fieldTotal := (validCount a + missingCount a)%nat in
  sort_by_count
    (map (fun '(l, c) => mkItem l c (pct_of fieldTotal c)) (counts a))
  ++ (if (0 <? missingCount a)%nat
      then [mkItem "Unknown" (missingCount a)
              (pct_of fieldTotal (missingCount a))]
      else []).

(** [Math.abs(sumPct - 100) > 0.1 && items.length > 0] *)
Definition needs_correction (items : list item) : bool :=
  gtb (PrimFloat.abs (sum_pct items - 100)) 0.1
  && (0 <? length items)%nat.

Definition corrected_items (items : list item) : list item :=
  if needs_correction items
  then add_to_last (100 - sum_pct items) items
  else items.

(** The categorical branch: no section when the field has no row. *)
Definition categoricalSection (codeMap : codemap)
    (srcAll : list (option row)) (field : string) : option section :=
  let a :=
    fold_left (categorical_step codeMap field) srcAll (mkCatAcc [] 0 0) in
  if decide (validCount a + missingCount a = 0)%nat then None
  else
    Some (Categorical (corrected_items (raw_items a))
            (validCount a + missingCount a)).

(** The body of [for (const field of fields)]. *)
Definition summarizeField (selectedFieldGroup : string)
    (demoLookups : lookups) (srcAll : list (option row)) (field : string)
  : option section :=
  let codeMap := codemap_of demoLookups field in
  match
    (if isFinancingNumeric selectedFieldGroup field
     then numericSection srcAll field else None)
  with
  | Some s => Some s
  | None => categoricalSection codeMap srcAll field
  end.

(** The sections of [demoSummary] in the order of the fields, before it
    orders the sections, which changes none of them. *)
Definition demoSummary (fields : list string)
    (selectedFieldGroup : string) (demoLookups : lookups)
    (srcAll : list (option row)) : list (string * section) :=
  omap (fun field =>
          option_map (pair field)
            (summarizeField selectedFieldGroup demoLookups srcAll field))
    fields.

(** [mode === "numeric"] *)
Definition is_numeric (s : section) : bool :=
  match s with
  | Numeric _ _ _ => true
  | Categorical _ _ => false
  end.

(** [s.items?.[0]?.pct || 0]: a numeric section has no items, and [||]
    replaces NaN and both zeros by [0]. *)
Definition first_pct (s : section) : float :=
  match s with
  | Categorical (it :: _) _ =>
      if is_nan (i_pct it) || PrimFloat.eqb (i_pct it) 0 then 0%float
      else i_pct it
  | _ => 0%float
  end.

(** The comparator of [sections.sort]. *)
Definition section_cmp (a b : section) : float :=
  if negb (Bool.eqb (is_numeric a) (is_numeric b))
  then (if is_numeric a then -1 else 1)%float
  else (first_pct b - first_pct a)%float.

(** [sections.sort(...)], stable: a section goes after those the
    comparator puts strictly before it.  The comparator orders the
    sections by mode and leading share, so the order is the one every
    stable sort gives. *)
Fixpoint insert_section (x : string * section)
    (l : list (string * section)) : list (string * section) :=
  match l with
  | [] => [x]
  | y :: l' =>
      if gtb (section_cmp (snd x) (snd y)) 0 then y :: insert_section x l'
      else x :: y :: l'
  end.

Definition sort_sections (l : list (string * section))
  : list (string * section) :=
  foldr insert_section [] l.

(** The sections [demoSummary] returns. *)
Definition demoSummary_sorted (fields : list string)
    (selectedFieldGroup : string) (demoLookups : lookups)
    (srcAll : list (option row)) : list (string * section) :=
  sort_sections (demoSummary fields selectedFieldGroup demoLookups srcAll).


(** *** Vocabulary of the properties *)

(** A record whose price coerces to a finite number. *)
Definition coercible (r : option row) : bool :=
  is_finite (coercePrice (get_opt r "FIN_PRICE_UNEDITED")).

(** Bumping the counters at the indexes [idxs], one after the other. *)
Definition bump_all (idxs : list nat) (cs : list nat) : list nat :=
  fold_left (fun cs i => alter S i cs) idxs cs.

(** The bounds of the eighteen buckets. *)
Definition fixed_bounds : list (float * float) :=
  [(PrimFloat.neg_infinity, 30000); (30000, 35000); (35000, 40000);
   (40000, 45000); (45000, 50000); (50000, 55000); (55000, 60000);
   (60000, 65000); (65000, 70000); (70000, 75000); (75000, 80000);
   (80000, 85000); (85000, 90000); (90000, 95000); (95000, 100000);
   (100000, 105000); (105000, 110000); (110000, PrimFloat.infinity)]%float.

(** The label a row is scored on, when it has one: neither [null] nor
    empty. *)
Definition scored_label (r : option row) (varName : string)
    (demoLookups : lookups) : option string :=
  match resolveMappedLabel r varName demoLookups with
  | None | Some "" => None
  | Some lab => Some lab
  end.

(** What the pipeline relies on: a non-empty string [model] and finite
    numbers [emb_x], [emb_y] and [cluster]. *)
Definition well_formed (o : row) : Prop :=
  exists (m : string) (x y cl : float),
    o !! "model" = Some (JStr m) /\ m <> ""
    /\ o !! "emb_x" = Some (JNum x) /\ is_finite x = true
    /\ o !! "emb_y" = Some (JNum y) /\ is_finite y = true
    /\ o !! "cluster" = Some (JNum cl) /\ is_finite cl = true.

(** The fields the normalizer writes. *)
Definition written : list string :=
  ["model"; "raw_x"; "raw_y"; "emb_x"; "emb_y"; "cluster"].

(** The sum of the counts of a [Map] of counts. *)
Definition counts_total (cs : list (string * nat)) : nat :=
  sum_list (map snd cs).

(** The sum of the counts of the items. *)
Definition items_total (items : list item) : nat :=
  sum_list (map i_count items).


End WithRuntime.

(** *** Colours *)

Definition SERIES_COLORS : list string :=
  ["#1F77B4"; "#FF7F0E"; "#2CA02C"; "#D62728"; "#9467BD"; "#8C564B";
   "#E377C2"; "#7F7F7F"; "#BCBD22"; "#17BECF"; "#F97316"; "#14B8A6";
   "#A855F7"; "#22C55E"; "#3B82F6"].

(** [FIXED_CLUSTER_COLORS[k]] for an integer [k], whose property key is
    its decimal text. *)
Definition FIXED_CLUSTER_COLORS (k : Z) : option string :=
  if (k =? 1)%Z then Some "#1F77B4"
  else if (k =? 2)%Z then Some "#FF7F0E"
  else if (k =? 3)%Z then Some "#2CA02C"
  else if (k =? 4)%Z then Some "#D62728"
  else None.

(** [clusterColor(k)] for a cluster id that is an integer a double holds
    exactly; [%] is the remainder that has the sign of the dividend.
    [None] is [undefined]. *)
Definition clusterColor (k : Z) : option string :=
  match FIXED_CLUSTER_COLORS k with
  | Some c => Some c
  | None =>
      nth_Z SERIES_COLORS
        (Z.rem (k - 1 + Z.of_nat (length SERIES_COLORS))
           (Z.of_nat (length SERIES_COLORS)))
  end.

(** One turn of the loop of [hashStr]: [h = (h << 5) - h + c; h |= 0]. *)
Definition hash_step (h : Z) (c : ascii) : Z :=
  ToInt32 (ToInt32 (h * 2 ^ 5) - h + Z.of_N (N_of_ascii c)).

Fixpoint hash_loop (s : string) (h : Z) : Z :=
  match s with
  | EmptyString => h
  | String c s' => hash_loop s' (hash_step h c)
  end.

Definition hashStr (s : string) : Z := Z.abs (hash_loop s 0).

(** [modelColors[m]] for a model [m] of [allModels]. *)
Definition modelColor (m : string) : option string :=
  nth_Z SERIES_COLORS (Z.rem (hashStr m) (Z.of_nat (length SERIES_COLORS))).

Record rgb : Type := mkRgb {
  c_r : float;
  c_g : float;
  c_b : float
}.

(** [s.length === 3 ? s.split("").map((c) => c + c).join("") : s] *)
Definition expand_hex (s : string) : string :=
  if (String.length s =? 3)%nat then double_chars s else s.

Definition hexToRgb (h : string) : rgb :=
  let s := remove_first "#" h in
  let v := expand_hex s in
  mkRgb (parseInt16 (slice 0 2 v)) (parseInt16 (slice 2 4 v))
    (parseInt16 (slice 4 6 v)).

(** [to] of [rgbToHex] *)
Definition to_hex2 (x : float) : string :=
  padStart0 2 (Number_toString16 x).

Definition rgbToHex (c : rgb) : string :=
  ("#" ++ to_hex2 (Math_round (c_r c)) ++ to_hex2 (Math_round (c_g c))
   ++ to_hex2 (Math_round (c_b c)))%string.

Definition lerp (a b t : float) : float := (a + (b - a) * t)%float.

Definition blendHex (aHex bHex : string) (t : float) : string :=
  let a := hexToRgb aHex in
  let b := hexToRgb bHex in
  rgbToHex
    (mkRgb (lerp (c_r a) (c_r b) t) (lerp (c_g a) (c_g b) t)
       (lerp (c_b a) (c_b b) t)).

(** *** Model selection *)

(** [prev.includes(m) ? prev.filter((x) => x !== m) : [...prev, m]] *)
Definition toggleModel (prev : list jsval) (m : jsval) : list jsval :=
  if includes prev m
  then List.filter (fun x => negb (StrictEquals x m)) prev
  else prev ++ [m].

(** *** Groups of rows *)

(** A [Map] from group key to the rows of the group, in the order the
    keys arrived. *)
Definition groups : Type := list (jsval * list row).

(** [if (!byGroup.has(k)) byGroup.set(k, []); byGroup.get(k).push(r)] *)
Fixpoint group_push (k : jsval) (r : row) (g : groups) : groups :=
  match g with
  | [] => [(k, [r])]
  | (k', rs) :: g' =>
      if SameValueZero k' k then (k', rs ++ [r]) :: g'
      else (k', rs) :: group_push k r g'
  end.

(** [byGroup.get(k) || []] *)
Fixpoint group_get (g : groups) (k : jsval) : list row :=
  match g with
  | [] => []
  | (k', rs) :: g' => if SameValueZero k' k then rs else group_get g' k
  end.

Section Grouping.
Context {rt : Runtime}.

(** [groupingKey === "cluster" ? r.cluster : String(r.model)] *)
Definition groupKeyOf (groupingKey : string) (r : row) : jsval :=
  if String.eqb groupingKey "cluster" then get r "cluster"
  else JStr (ToString (get r "model")).

Definition byGroup (groupingKey : string) (rows : list row) : groups :=
  fold_left (fun g r => group_push (groupKeyOf groupingKey r) r g) rows [].

(** The body of [for (const k of keys)] in [buildPriceSeriesByGroup]:
    [None] stands for an exception. *)
Definition series_step (g : groups)
    (acc : option (list (jsval * list bucket))) (k : jsval)
  : option (list (jsval * list bucket)) :=
  match acc with
  | None => None
  | Some series =>
      match buildBucketsForRows (map Some (group_get g k)) with
      | None => None
      | Some res =>
          Some (match data res with
                | [] => series
                | _ :: _ => series ++ [(k, data res)]
                end)
      end
  end.

(** [groupOrder] is [None] when it is null or undefined. *)
Definition buildPriceSeriesByGroup (rows : list row) (groupingKey : string)
    (groupOrder : option (list jsval))
  : option (list (jsval * list bucket)) :=
  let g := byGroup groupingKey rows in
  let keys := default (map fst g) groupOrder in
  fold_left (series_step g) keys (Some []).

(** *** Code tables *)

(** [m.set(k, v)] *)
Definition codemap_set (m : codemap) (k : jsval) (v : string) : codemap :=
  fun x => if SameValueZero x k then Some v else m x.

(** The body of [for (const row of demosMapping || [])]. *)
Definition demoLookups_step (byField : lookups) (row : option row)
  : lookups :=
  let field := trim (ToString (coalesce (get_opt row "NAME") (JStr ""))) in
  if String.eqb field "" then byField
  else
    let start := get_opt row "START" in
    let label :=
      trim (ToString (coalesce (get_opt row "LABEL") (JStr ""))) in
    let m := default empty_codemap (byField field) in
    let m := codemap_set m start label in
    let m := codemap_set m (JStr (ToString start)) label in
    let m :=
      if is_finite (ToNumber start)
      then codemap_set m (JNum (ToNumber start)) label
      else m in
    fun f => if String.eqb f field then Some m else byField f.

Definition demoLookups (demosMapping : list (option row)) : lookups :=
  fold_left demoLookups_step demosMapping (fun _ => None).

(** The five fields [getAttRaw] falls back to. *)
Definition aliases (varName : string) : list string :=
  [(varName ++ "_LABEL")%string; (varName ++ "_TXT")%string;
   (varName ++ "_TEXT")%string; (varName ++ "_DESC")%string;
   (varName ++ "_LAB")%string].

(** *** The attitudes chart *)

(** [Number.isFinite(k)] of a value: only a number is finite. *)
Definition Number_isFinite (v : jsval) : bool :=
  match v with
  | JNum x => is_finite x
  | _ => false
  end.

(** [arr.sort((a, b) => a - b)], stable: a value goes after those the
    comparator puts strictly before it. *)
Fixpoint insert_numeric (x : jsval) (l : list jsval) : list jsval :=
  match l with
  | [] => [x]
  | y :: l' =>
      if gtb (ToNumber x - ToNumber y) 0 then y :: insert_numeric x l'
      else x :: y :: l'
  end.

Definition sort_numeric (l : list jsval) : list jsval :=
  foldr insert_numeric [] l.

Definition attGroupKeys (attBaseRows : list row) (colorMode : string)
  : list jsval :=
  let arr := set_add_all [] (map (groupKeyOf colorMode) attBaseRows) in
  if String.eqb colorMode "cluster"
  then sort_numeric (List.filter Number_isFinite arr)
  else sort_default arr.

(** A point of the attitudes chart, without its colour. *)
Record att_point : Type := mkAttPoint {
  a_key : jsval;
  a_name : string;
  a_x : float;
  a_y : float;
  a_n : nat
}.

(** The body of [for (const k of attGroupKeys)]. *)
Definition attitudes_step (g : groups) (colorMode attXVar attYVar : string)
    (demoLookups : lookups) (pts : list att_point) (k : jsval)
  : list att_point :=
  let rs := group_get g k in
  let x := percentAgreeMappedPolicy (map Some rs) attXVar demoLookups true in
  let y := percentAgreeMappedPolicy (map Some rs) attYVar demoLookups true in
  if negb (is_finite x) || negb (is_finite y) then pts
  else
    pts ++ [mkAttPoint k
              (if String.eqb colorMode "cluster"
               then ("C" ++ ToString k)%string else ToString k)
              x y (length rs)].

Definition attitudesPoints (attBaseRows : list row)
    (colorMode attXVar attYVar : string) (demoLookups : lookups)
  : list att_point :=
  let g := byGroup colorMode attBaseRows in
  fold_left (attitudes_step g colorMode attXVar attYVar demoLookups)
    (attGroupKeys attBaseRows colorMode) [].

(** The point of a key. *)
Definition point_of (g : groups) (colorMode attXVar attYVar : string)
    (dl : lookups) (k : jsval) : att_point :=
  mkAttPoint k
    (if String.eqb colorMode "cluster"
     then ("C" ++ ToString k)%string else ToString k)
    (percentAgreeMappedPolicy (map Some (group_get g k)) attXVar dl true)
    (percentAgreeMappedPolicy (map Some (group_get g k)) attYVar dl true)
    (length (group_get g k)).

End Grouping.

(** *** The map of the states *)

(** The result of [stateAgg]: the two [Map]s in the order of their keys. *)
Record state_agg : Type := mkStateAgg {
  s_counts : list (string * nat);
  s_pcts : list (string * float);
  s_total : nat;
  s_maxPct : float
}.

(** [pcts.set(name, pct)] *)
Fixpoint pcts_set (name : string) (pct : float) (m : list (string * float))
  : list (string * float) :=
  match m with
  | [] => [(name, pct)]
  | (k, v) :: m' =>
      if String.eqb k name then (k, pct) :: m'
      else (k, v) :: pcts_set name pct m'
  end.

Section StateMap.
(** [getRowStateName], which [stateAgg] calls on every row: the name of
    a state, or [None] for [null]. *)
Variable getRowStateName : row -> option string.

(** [!name] *)
Definition unnamed (r : row) : bool :=
  match getRowStateName r with
  | None | Some "" => true
  | Some _ => false
  end.

(** The body of [for (const r of mapSourceRows)]. *)
Definition stateAgg_count (acc : list (string * nat) * nat) (r : row)
  : list (string * nat) * nat :=
  match getRowStateName r with
  | None | Some "" => acc
  | Some name => (counts_bump name (fst acc), S (snd acc))
  end.

(** The body of [for (const [name, c] of counts.entries())]. *)
Definition stateAgg_share (total : nat) (acc : list (string * float) * float)
    (nc : string * nat) : list (string * float) * float :=
  let pct := pct_of total (snd nc) in
  (pcts_set (fst nc) pct (fst acc),
   if gtb pct (snd acc) then pct else snd acc).

Definition stateAgg (mapSourceRows : list row) : state_agg :=
  let counted := fold_left stateAgg_count mapSourceRows ([], 0%nat) in
  let counts := fst counted in
  let total := snd counted in
  let shares :=
    if (0 <? total)%nat
    then fold_left (stateAgg_share total) counts ([], 0%float)
    else ([], 0%float) in
  mkStateAgg counts (fst shares) total (snd shares).

(** The rows of the state [name]. *)
Definition rows_of_state (name : string) (rows : list row) : list row :=
  List.filter (fun r => bool_decide (getRowStateName r = Some name)) rows.

End StateMap.

(** *** Vocabulary of the properties *)

(** The polynomial [c0 * 31^(n-1) + ... + c(n-1)] of the code units of
    a string, continued from [h]. *)
Fixpoint poly31 (s : string) (h : Z) : Z :=
  match s with
  | EmptyString => h
  | String c s' => poly31 s' (31 * h + Z.of_N (N_of_ascii c))
  end.

Definition is_hex_digit (c : ascii) : bool :=
  match hex_val c with
  | Some _ => true
  | None => false
  end.

(** A colour written [#rrggbb] or [#rgb]. *)
Definition hex_colour (h : string) : bool :=
  match h with
  | String "#" d =>
      ((String.length d =? 6)%nat || (String.length d =? 3)%nat)
      && forallb is_hex_digit (list_ascii_of_string d)
  | _ => false
  end.

(** The values of a colour channel: the integers from 0 to 255. *)
Definition channels : list float :=
  map (fun n => of_Z (Z.of_nat n)) (seq 0 256).

(** The digits of radix 16, in both cases. *)
Definition hex_chars : list ascii :=
  list_ascii_of_string "0123456789abcdefABCDEF".

(** The sum of the counts of a list of buckets. *)
Definition bucket_total (bs : list bucket) : nat :=
  sum_list (map b_count bs).

(** The bucket a whole number of dollars belongs to. *)
Definition dollar_bucket (n : Z) : Z :=
  if (n <? 30000)%Z then 0%Z
  else if (110000 <=? n)%Z then 17%Z
  else (1 + (n - 30000) / 5000)%Z.

(** The integers [n - 1, ..., 0]. *)
Definition Z_below (n : positive) : list Z :=
  Pos.iter
    (fun l => match l with [] => [0%Z] | x :: _ => (x + 1)%Z :: l end) [] n.

(** [low <= v && v < high] for the bounds of index [i]. *)
Definition in_bounds_of (i : Z) (v : float) : bool :=
  match fixed_bounds !! Z.to_nat i with
  | Some (lo, hi) => PrimFloat.leb lo v && PrimFloat.ltb v hi
  | None => false
  end.

(** The index [bucketIndex] gives is [i]. *)
Definition lands_in (i : nat) (v : float) : bool :=
  match bucketIndex 18 v with
  | ZFin z => (z =? Z.of_nat i)%Z
  | _ => false
  end.

(** A whole number of dollars that a double holds exactly. *)
Definition whole_dollar (v : float) : Prop :=
  exists n, (0 <= n < 2 ^ 53)%Z /\ v = of_Z n.

(** No value occurs twice. *)
Fixpoint distinct_values (l : list jsval) : Prop :=
  match l with
  | [] => True
  | x :: l' => includes l' x = false /\ distinct_values l'
  end.

(** No two keys of the groups are the same [Map] key. *)
Fixpoint distinct_keys (g : groups) : Prop :=
  match g with
  | [] => True
  | (k, _) :: g' =>
      Forall (fun kr => SameValueZero (fst kr) k = false) g'
      /\ distinct_keys g'
  end.

(** The count a [Map] of counts holds for a label, 0 when it has none. *)
Fixpoint assoc_count (l : string) (cs : list (string * nat)) : nat :=
  match cs with
  | [] => 0
  | (k, c) :: rest => if String.eqb k l then c else assoc_count l rest
  end.

(** Non-increasing. *)
Fixpoint sorted_desc (l : list nat) : Prop :=
  match l with
  | a :: (b :: _) as t => (b <= a)%nat /\ sorted_desc t
  | _ => True
  end.

(** The label and the count of each item. *)
Definition label_counts (items : list item) : list (string * nat) :=
  map (fun it => (i_label it, i_count it)) items.

Section Counting.
Context {rt : Runtime}.

(** The number of rows whose price coerces to a finite number. *)
Definition priced (rows : list row) : nat :=
  length (List.filter coercible (map Some rows)).

(** The priced rows of all the groups. *)
Definition priced_groups (g : groups) : nat :=
  sum_list (map (fun kr => priced (snd kr)) g).

(** The keys that give a series: those of a group with a priced row. *)
Definition has_priced (g : groups) (k : jsval) : bool :=
  (0 <? priced (group_get g k))%nat.

(** [low <= v && v < high] for the range of index [i]. *)
Definition in_range_of (i : nat) (v : float) : bool :=
  match getFixedBucketRanges !! i with
  | Some rg => PrimFloat.leb (low rg) v && PrimFloat.ltb v (high rg)
  | None => false
  end.

(** The number of rows that have a value for the field, counted under
    the label [l]. *)
Definition label_count (codeMap : codemap) (field : string)
    (rows : list (option row)) (l : string) : nat :=
  length
    (List.filter
       (fun r =>
          present (get_opt r field)
          && String.eqb (categoryLabel codeMap (get_opt r field)) l)
       rows).

(** The number of rows that have no value for the field. *)
Definition missing_count (field : string) (rows : list (option row)) : nat :=
  length (List.filter (fun r => negb (present (get_opt r field))) rows).

(** No element sorts strictly before its predecessor. *)
Fixpoint in_order (l : list jsval) : Prop :=
  match l with
  | a :: (b :: _) as t => sort_before b a = false /\ in_order t
  | _ => True
  end.

(** What [demoSummary] promises of a section over [n] rows. *)
Definition covers (selectedFieldGroup : string) (n : nat)
    (fs : string * section) : Prop :=
  match snd fs with
  | Numeric _ nValid nMissing =>
      isFinancingNumeric selectedFieldGroup (fst fs) = true
      /\ (0 < nValid)%nat /\ (nValid + nMissing)%nat = n
  | Categorical items total =>
      total = n /\ items_total items = n
  end.

(** What the loop of the categorical branch has counted after [rows]. *)
Definition counted (codeMap : codemap) (field : string) (a : cat_acc)
    (rows : list (option row)) : Prop :=
  NoDup (map fst (counts a))
  /\ (forall l, assoc_count l (counts a) = label_count codeMap field rows l)
  /\ Forall (fun kc => (1 <= snd kc)%nat) (counts a)
  /\ missingCount a = missing_count field rows.

(** The rows of the group of the key [k]. *)
Definition rows_of_key (colorMode : string) (rows : list row) (k : jsval)
  : list row :=
  List.filter (fun r => SameValueZero (groupKeyOf colorMode r) k) rows.

End Counting.

(** [if (pct > maxPct) maxPct = pct] over the shares. *)
Definition largest (ps : list float) (start : float) : float :=
  fold_left (fun mx p => if gtb p mx then p else mx) ps start.

End CustomerGroups.

(** ** [src/pages/MarketSimulation.jsx] *)

Module MarketSimulation.
Import JS.

(** The independent variables of the demand and profit model. *)
Record MarketState : Type := mkState {
  price : float;
  base_price : float;
  base_demand : float;
  elasticity : float;
  vcpu : float;
  fixed_cost : float
}.

Record DerivedKPIs : Type := mkKPIs {
  k_price : float;
  demand : float;
  revenue : float;
  total_cost : float;
  var_cost_total : float;
  profit : float;
  margin_pct : float;
  unit_margin : float
}.

#[local] Open Scope float_scope.

(** [Math.min(hi, Math.max(lo, Number.isFinite(v) ? v : lo))] *)
Definition clamp (v lo hi : float) : float :=
  Math_min hi (Math_max lo (if is_finite v then v else lo)).

Section WithRuntime.
Context {rt : Runtime}.

Definition toNumberSafe (v : string) : float :=
  let n := parseFloat v in
  if is_finite n then n else 0.

Definition deriveAll (s : MarketState) : DerivedKPIs :=
  let demand :=
    base_demand s * Math_pow (price s / base_price s) (elasticity s) in
  let revenue := price s * demand in
  let var_cost_total := vcpu s * demand in
  let total_cost := fixed_cost s + var_cost_total in
  let profit := revenue - total_cost in
  let margin_pct := if gtb revenue 0 then profit / revenue else 0 in
  let unit_margin := price s - vcpu s in
  mkKPIs (price s) demand revenue total_cost var_cost_total profit
    margin_pct unit_margin.

Definition invertElasticityForPrice
    (demand base_demand base_price elasticity : float) : float :=
  let ratio := clamp (demand / base_demand) 1e-12 1e12 in
  let inv := 1 / elasticity in
  let price := base_price * Math_pow ratio inv in
  clamp price 0.01 1e6.

(** The [while (fa * fb > 0 && expand < 10)] loop with [fuel] turns
    left: the brackets and the values of [f] at them. *)
Fixpoint expand_bracket (fuel : nat) (f : float -> float)
    (a b fa fb : float) : float * float * float * float :=
  match fuel with
  | O => (a, b, fa, fb)
  | S fuel' =>
      if gtb (fa * fb) 0
      then
        let a' := Math_max 0.01 (a / 2) in
        let b' := b * 2 in
        expand_bracket fuel' f a' b' (f a') (f b')
      else (a, b, fa, fb)
  end.

(** The [for (let i = 0; i < iters; i++)] loop with [iters] turns left. *)
Fixpoint bisect_loop (iters : nat) (f : float -> float)
    (a b fa fb : float) : float :=
  match iters with
  | O => clamp (0.5 * (a + b)) 0.01 1e6
  | S iters' =>
      let mid := 0.5 * (a + b) in
      let fm := f mid in
      if PrimFloat.ltb (PrimFloat.abs fm) 1e-6 then clamp mid 0.01 1e6
      else if PrimFloat.ltb (fa * fm) 0
           then bisect_loop iters' f a mid fa fm
           else bisect_loop iters' f mid b fm fb
  end.

Definition bisectPrice (f : float -> float) (lo hi : float) (iters : nat)
  : float :=
  let '(a, b, fa, fb) := expand_bracket 10 f lo hi (f lo) (f hi) in
  if gtb (fa * fb) 0 then clamp ((a + b) / 2) 0.01 1e6
  else bisect_loop iters f a b fa fb.

Definition solvePriceForRevenue
    (targetRevenue base_demand base_price elasticity : float) : float :=
  let f p :=
    p * base_demand * Math_pow (p / base_price) elasticity
    - targetRevenue in
  bisectPrice f 0.01 (base_price * 100) 60.

Definition solvePriceForProfit
    (targetProfit base_demand base_price elasticity vcpu fixed_cost
       : float) : float :=
  let f p :=
    let d := base_demand * Math_pow (p / base_price) elasticity in
    let revenue := p * d in
    let total_cost := fixed_cost + vcpu * d in
    revenue - total_cost - targetProfit in
  bisectPrice f 0.01 (base_price * 100) 60.

Definition solvePriceForMargin
    (targetMargin base_demand base_price elasticity vcpu fixed_cost
       : float) : float :=
  let m := clamp targetMargin (-5) 5 in
  let f p :=
    let d := base_demand * Math_pow (p / base_price) elasticity in
    let revenue := p * d in
    let total_cost := fixed_cost + vcpu * d in
    let profit := revenue - total_cost in
    let margin := if gtb revenue 0 then profit / revenue else -1 in
    margin - m in
  bisectPrice f 0.01 (base_price * 200) 70.

Definition set_price (s : MarketState) (p : float) : MarketState :=
  mkState p (base_price s) (base_demand s) (elasticity s) (vcpu s)
    (fixed_cost s).

(** [handleEdit(field, rawValue)]: the state handed to [setState]. *)
Definition handleEdit (state : MarketState) (field rawValue : string)
  : MarketState :=
  let value := toNumberSafe rawValue in
  let next := state in
  if String.eqb field "price" then
    set_price next (clamp value 0.01 1e6)
  else if String.eqb field "elasticity" then
    mkState (price next) (base_price next) (base_demand next)
      (clamp value (-5) (-0.05)) (vcpu next) (fixed_cost next)
  else if String.eqb field "base_price" then
    mkState (price next) (clamp value 0.01 1e6) (base_demand next)
      (elasticity next) (vcpu next) (fixed_cost next)
  else if String.eqb field "base_demand" then
    mkState (price next) (base_price next) (clamp value 1 1e9)
      (elasticity next) (vcpu next) (fixed_cost next)
  else if String.eqb field "vcpu" then
    mkState (price next) (base_price next) (base_demand next)
      (elasticity next) (clamp value 0 1e6) (fixed_cost next)
  else if String.eqb field "fixed_cost" then
    mkState (price next) (base_price next) (base_demand next)
      (elasticity next) (vcpu next) (clamp value 0 1e12)
  else if String.eqb field "demand" then
    let demandTarget := clamp value 1 1e12 in
    set_price next
      (invertElasticityForPrice demandTarget (base_demand next)
         (base_price next) (elasticity next))
  else if String.eqb field "revenue" then
    let revenueTarget := clamp value 0 1e15 in
    set_price next
      (solvePriceForRevenue revenueTarget (base_demand next)
         (base_price next) (elasticity next))
  else if String.eqb field "profit" then
    let profitTarget := value in
    set_price next
      (solvePriceForProfit profitTarget (base_demand next)
         (base_price next) (elasticity next) (vcpu next)
         (fixed_cost next))
  else if String.eqb field "margin_pct" then
    let marginTarget := clamp (value / 100) (-10) 10 in
    set_price next
      (solvePriceForMargin marginTarget (base_demand next)
         (base_price next) (elasticity next) (vcpu next)
         (fixed_cost next))
  else next.

(** The scenario the page starts from. *)
Definition initial_state : MarketState :=
  mkState 50 50 10000 (-1.2) 20 120000.

(** [resetScenario(kind)]: the state handed to [setState], the current one
    when [kind] is none of the three. *)
Definition resetScenario (state : MarketState) (kind : string)
  : MarketState :=
  if String.eqb kind "Baseline" then
    mkState 50 50 10000 (-1.2) 20 120000
  else if String.eqb kind "High FC / Low VC" then
    mkState 50 50 10000 (-1.0) 10 400000
  else if String.eqb kind "Premium Pricing" then
    mkState 120 80 7000 (-0.8) 25 180000
  else state.

(** The states the page can be in: the initial one, and those an edit or
    a reset leads to. *)
Inductive reachable : MarketState -> Prop :=
| reach_initial : reachable initial_state
| reach_edit (s : MarketState) (field rawValue : string) :
    reachable s -> reachable (handleEdit s field rawValue)
| reach_reset (s : MarketState) (kind : string) :
    reachable s -> reachable (resetScenario s kind).

(** The price an edit of a derived KPI solves for. *)
Definition solved_price (state : MarketState) (field : string)
    (value : float) : float :=
  if String.eqb field "demand" then
    invertElasticityForPrice (clamp value 1 1e12) (base_demand state)
      (base_price state) (elasticity state)
  else if String.eqb field "revenue" then
    solvePriceForRevenue (clamp value 0 1e15) (base_demand state)
      (base_price state) (elasticity state)
  else if String.eqb field "profit" then
    solvePriceForProfit value (base_demand state) (base_price state)
      (elasticity state) (vcpu state) (fixed_cost state)
  else
    solvePriceForMargin (clamp (value / 100) (-10) 10) (base_demand state)
      (base_price state) (elasticity state) (vcpu state) (fixed_cost state).

(** *** Chart helpers *)

(** A sample of the two curves. *)
Record point : Type := mkPoint {
  p_price : float;
  p_revenue : float;
  p_profit : float
}.

(** The body of [for (let i = 0; i < n; i++)] in [buildSeries]. *)
Definition series_point (s : MarketState) (min step : float) (i : nat)
  : point :=
  let price := min + of_nat i * step in
  let d := base_demand s * Math_pow (price / base_price s) (elasticity s) in
  let revenue := price * d in
  let total_cost := fixed_cost s + vcpu s * d in
  let profit := revenue - total_cost in
  mkPoint price revenue profit.

Definition buildSeries (s : MarketState) : list point :=
  let min := Math_max 0.01 (base_price s * 0.1) in
  let max := base_price s * 3 in
  let n := 100%nat in
  let step := (max - min) / (of_nat n - 1) in
  map (series_point s min step) (seq 0 n).

End WithRuntime.

(** The own properties of a sample, the keys [yAt] is called with. *)
Inductive series_key : Type := key_price | key_revenue | key_profit.

Definition point_get (p : point) (key : series_key) : float :=
  match key with
  | key_price => p_price p
  | key_revenue => p_revenue p
  | key_profit => p_profit p
  end.

(** The [for (let i = 1; i < series.length; i++)] loop of [yAt] on the
    samples that are left. *)
Fixpoint yAt_loop (rest : list point) (xPrice : float) (best : point)
    (bestDist : float) : point :=
  match rest with
  | [] => best
  | p :: rest' =>
      let d := PrimFloat.abs (xPrice - p_price p) in
      if PrimFloat.ltb d bestDist
      then yAt_loop rest' xPrice p d
      else yAt_loop rest' xPrice best bestDist
  end.

(** The sample [yAt] reads its result from; [None] is the [TypeError] of
    [series[0].price] on an empty series. *)
Definition yAt_best (series : list point) (xPrice : float) : option point :=
  match series with
  | [] => None
  | p0 :: rest =>
      Some (yAt_loop rest xPrice p0 (PrimFloat.abs (xPrice - p_price p0)))
  end.

Definition yAt (series : list point) (xPrice : float) (key : series_key)
  : option float :=
  option_map (fun best => point_get best key) (yAt_best series xPrice).

(** *** Vocabulary of the properties *)

(** [lo <= x && x <= hi] *)
Definition between (lo hi x : float) : Prop :=
  PrimFloat.leb lo x = true /\ PrimFloat.leb x hi = true.

(** The bounds [handleEdit] clamps each input to. *)
Definition in_bounds (s : MarketState) : Prop :=
  between 0.01 1e6 (price s)
  /\ between 0.01 1e6 (base_price s)
  /\ between 1 1e9 (base_demand s)
  /\ between (-5) (-0.05) (elasticity s)
  /\ between 0 1e6 (vcpu s)
  /\ between 0 1e12 (fixed_cost s).

(** *** The same formulas over the real numbers

    The demand law and its closed-form inverse read in exact arithmetic:
    every number is finite, [Math.pow] is [Rpower], and [clamp] is
    [Rmin]/[Rmax]. *)
Module Exact.
#[local] Open Scope R_scope.

Definition clamp (v lo hi : R) : R := Rmin hi (Rmax lo v).

(** [deriveAll(s).demand] *)
Definition demand (price base_price base_demand elasticity : R) : R :=
  base_demand * Rpower (price / base_price) elasticity.

Definition invertElasticityForPrice
    (demand base_demand base_price elasticity : R) : R :=
  let ratio := clamp (demand / base_demand) (/ 10 ^ 12) (10 ^ 12) in
  let inv := 1 / elasticity in
  let price := base_price * Rpower ratio inv in
  clamp price (1 / 100) (10 ^ 6).

End Exact.
End MarketSimulation.

(** ** A reference engine

    The conversions the language specifies exactly, computed on the exact
    value of a double: [Number(s)] and [parseFloat(s)] for decimal,
    hexadecimal, octal and binary literals, [String(x)] with the shortest
    digits that read back as [x], and [x.toFixed(f)].  [Math.pow] is given
    where the language fixes its result or the power is exact. *)

Module Reference.
Import JS.
#[local] Open Scope string_scope.

(** *** Decimal digits *)

Definition digit_char (d : Z) : ascii := ascii_of_N (48 + Z.to_N d).

(** The digits of [n >= 0], most significant first, as a first digit and
    the rest. *)
Fixpoint digits_acc (fuel : nat) (n : Z) (acc : string) : ascii * string :=
  let d := digit_char (n mod 10) in
  match fuel with
  | O => (d, acc)
  | S fuel' =>
      if (n <? 10)%Z then (d, acc)
      else digits_acc fuel' (n / 10) (String d acc)
  end.

Definition digits (n : Z) : ascii * string :=
  digits_acc (Z.to_nat (Z.log2 n)) n "".

Definition digits_string (n : Z) : string :=
  let '(d, r) := digits n in String d r.

Fixpoint zeros (n : nat) : string :=
  match n with
  | O => ""
  | S n' => String "0" (zeros n')
  end.

Fixpoint take (n : nat) (s : string) : string :=
  match n, s with
  | S n', String c r => String c (take n' r)
  | _, _ => ""
  end.

Fixpoint drop (n : nat) (s : string) : string :=
  match n, s with
  | S n', String _ r => drop n' r
  | _, _ => s
  end.

(** *** From a decimal literal to the nearest double *)

(** [a / b] for positive integers, rounded to nearest-even. *)
Definition div_round (s : bool) (a b : Z) : spec_float :=
  let '(q, e, l) := SFdiv_core_binary prec emax a 0 b 0 in
  binary_round_aux prec emax s q e l.

(** The double nearest to [m * 10^e], [m >= 0], negated when [neg].
    Literals beyond the range of doubles are settled without computing
    their power of ten. *)
Definition of_decimal (neg : bool) (m e : Z) : float :=
  if (m =? 0)%Z then if neg then PrimFloat.neg_zero else PrimFloat.zero
  else if (310 <? e)%Z
  then if neg then PrimFloat.neg_infinity else PrimFloat.infinity
  else if (e + (Z.log2 m + 1) / 3 + 1 <? -330)%Z
  then if neg then PrimFloat.neg_zero else PrimFloat.zero
  else if (0 <=? e)%Z
  then of_Z ((if neg then - m else m) * 10 ^ e)
  else SF2Prim (div_round neg m (10 ^ (- e))).

(** *** Reading numeric literals *)

Definition digit_val (base : Z) (c : ascii) : option Z :=
  let n := Z.of_N (N_of_ascii c) in
  let v :=
    if ((48 <=? n) && (n <=? 57))%Z then Some (n - 48)%Z
    else if ((97 <=? n) && (n <=? 102))%Z then Some (n - 87)%Z
    else if ((65 <=? n) && (n <=? 70))%Z then Some (n - 55)%Z
    else None in
  match v with
  | Some d => if (d <? base)%Z then Some d else None
  | None => None
  end.

(** The longest run of digits in [base]: its value on top of [acc], its
    length on top of [n], and what follows. *)
Fixpoint take_digits (base : Z) (s : string) (acc : Z) (n : nat)
  : Z * nat * string :=
  match s with
  | String c r =>
      match digit_val base c with
      | Some d => take_digits base r (acc * base + d) (S n)
      | None => (acc, n, s)
      end
  | EmptyString => (acc, n, s)
  end.

Definition take_sign (s : string) : bool * string :=
  match s with
  | String "+" r => (false, r)
  | String "-" r => (true, r)
  | _ => (false, s)
  end.

(** An [ExponentPart], if one starts here. *)
Definition parse_exponent (s : string) : Z * string :=
  match s with
  | String c r =>
      if Ascii.eqb c "e" || Ascii.eqb c "E"
      then
        let '(neg, r1) := take_sign r in
        let '(x, n, r2) := take_digits 10 r1 0 0 in
        if (n =? 0)%nat then (0, s)
        else ((if neg then - x else x)%Z, r2)
      else (0, s)
  | EmptyString => (0, s)
  end.

(** An unsigned [StrDecimalLiteral] other than [Infinity]: mantissa,
    decimal exponent, and what follows. *)
Definition parse_unsigned (s : string) : option (Z * Z * string) :=
  let '(i, ni, r1) := take_digits 10 s 0 0 in
  match r1 with
  | String "." r1' =>
      let '(m, nf, r2) := take_digits 10 r1' i 0 in
      if (ni + nf =? 0)%nat then None
      else
        let '(x, r3) := parse_exponent r2 in
        Some (m, (x - Z.of_nat nf)%Z, r3)
  | _ =>
      if (ni =? 0)%nat then None
      else let '(x, r3) := parse_exponent r1 in Some (i, x, r3)
  end.

(** A signed [StrDecimalLiteral] at the start of [s]. *)
Definition parse_signed (s : string) : option (float * string) :=
  let '(neg, r) := take_sign s in
  if String.prefix "Infinity" r
  then Some (if neg then PrimFloat.neg_infinity else PrimFloat.infinity,
             drop 8 r)
  else
    match parse_unsigned r with
    | Some (m, e, rest) => Some (of_decimal neg m e, rest)
    | None => None
    end.

(** [0x], [0o] and [0b] literals. *)
Definition radix_of (s : string) : option (Z * string) :=
  match s with
  | String "0" (String c r) =>
      if Ascii.eqb c "x" || Ascii.eqb c "X" then Some (16, r)
      else if Ascii.eqb c "o" || Ascii.eqb c "O" then Some (8, r)
      else if Ascii.eqb c "b" || Ascii.eqb c "B" then Some (2, r)
      else None
  | _ => None
  end.

(** [Number(s)] *)
Definition ref_StringToNumber (s : string) : float :=
  let t := trim s in
  if String.eqb t "" then PrimFloat.zero
  else
    match radix_of t with
    | Some (base, r) =>
        match take_digits base r 0 0 with
        | (v, S _, EmptyString) => of_Z v
        | _ => PrimFloat.nan
        end
    | None =>
        match parse_signed t with
        | Some (x, EmptyString) => x
        | _ => PrimFloat.nan
        end
    end.

(** [parseFloat(s)] *)
Definition ref_parseFloat (s : string) : float :=
  match parse_signed (trimStart s) with
  | Some (x, _) => x
  | None => PrimFloat.nan
  end.

(** *** Printing numbers *)

(** [M * 2^E < 10^j], for [M > 0]. *)
Definition lt_pow10 (M E j : Z) : bool :=
  (M * 2 ^ Z.max E 0 * 10 ^ Z.max (- j) 0
   <? 10 ^ Z.max j 0 * 2 ^ Z.max (- E) 0)%Z.

(** The least [c >= c0] with [M * 2^E < 10^c], within [fuel] steps. *)
Fixpoint first_pow10_above (fuel : nat) (M E c : Z) : Z :=
  match fuel with
  | O => c
  | S fuel' =>
      if lt_pow10 M E c then c else first_pow10_above fuel' M E (c + 1)
  end.

(** [n] with [10^(n-1) <= M * 2^E < 10^n]. *)
Definition decimal_exponent (M E : Z) : Z :=
  first_pow10_above 5 M E (((Z.log2 M + E) * 30103) / 100000 - 1).

(** The candidates with [k] digits for [x = M * 2^E]: the two integers
    around [x * 10^(k - n)], the nearer one first. *)
Definition candidates (M E n k : Z) : list Z :=
  let num := (M * 2 ^ Z.max E 0 * 10 ^ Z.max (k - n) 0)%Z in
  let den := (2 ^ Z.max (- E) 0 * 10 ^ Z.max (n - k) 0)%Z in
  let lo := (num / den)%Z in
  let r := (num mod den)%Z in
  if (r =? 0)%Z then [lo]
  else if (2 * r <? den)%Z then [lo; (lo + 1)%Z]
  else if (den <? 2 * r)%Z then [(lo + 1)%Z; lo]
  else if Z.even lo then [lo; (lo + 1)%Z] else [(lo + 1)%Z; lo].

(** The first candidate that reads back as [x]. *)
Definition reads_back (x : float) (n k : Z) (cands : list Z) : option Z :=
  List.find
    (fun c => PrimFloat.eqb (of_decimal false c (n - k)) x) cands.

(** The shortest digits: the integer [s] found with the least [k], and
    [k]; seventeen digits always read back. *)
Fixpoint shortest (fuel : nat) (x : float) (M E n k : Z) : Z * Z :=
  match fuel with
  | O => (Z.shiftl M (Z.max E 0), k)
  | S fuel' =>
      match reads_back x n k (candidates M E n k) with
      | Some c => (c, k)
      | None => shortest fuel' x M E n (k + 1)
      end
  end.

Fixpoint strip_zeros (fuel : nat) (c : Z) : Z :=
  match fuel with
  | O => c
  | S fuel' =>
      if ((c mod 10 =? 0) && negb (c =? 0))%Z
      then strip_zeros fuel' (c / 10) else c
  end.

Definition string_length (s : string) : Z := Z.of_nat (String.length s).

(** The digits [d r] with the decimal point after [n] of them, as
    [Number::toString] lays them out. *)
Definition layout (d : ascii) (r : string) (n : Z) : string :=
  let k := (1 + string_length r)%Z in
  if ((k <=? n) && (n <=? 21))%Z
  then String d (r ++ zeros (Z.to_nat (n - k)))
  else if ((0 <? n) && (n <=? 21))%Z
  then String d (take (Z.to_nat (n - 1)) r ++ "."
                 ++ drop (Z.to_nat (n - 1)) r)
  else if ((-6 <? n) && (n <=? 0))%Z
  then String "0" (String "." (zeros (Z.to_nat (- n)) ++ String d r))
  else
    let e := (n - 1)%Z in
    let sign := if (e <? 0)%Z then "-" else "+" in
    String d
      ((if (k =? 1)%Z then "" else String "." r)
       ++ "e" ++ sign ++ digits_string (Z.abs e)).

(** [String(x)] for a positive finite [x = M * 2^E]. *)
Definition print_positive (x : float) (M E : Z) : string :=
  let n0 := decimal_exponent M E in
  let '(c, k) := shortest 17 x M E n0 1 in
  let n := (string_length (digits_string c) + n0 - k)%Z in
  let '(d, r) := digits (strip_zeros 400 c) in
  layout d r n.

(** [String(x)] *)
Definition ref_NumberToString (x : float) : string :=
  match Prim2SF x with
  | S754_nan => "NaN"
  | S754_zero _ => "0"
  | S754_infinity s => if s then "-Infinity" else "Infinity"
  | S754_finite s m e =>
      if s then String "-" (print_positive (PrimFloat.abs x) (Zpos m) e)
      else print_positive x (Zpos m) e
  end.

(** [x.toFixed(f)]: the integer [n] nearest to [x * 10^f], the larger of
    two, printed with [f] decimals. *)
Definition ref_toFixed (x : float) (f : nat) : string :=
  match Prim2SF x with
  | S754_finite s m e =>
      if PrimFloat.leb 1e21 (PrimFloat.abs x) then ref_NumberToString x
      else
        let num := (2 * Zpos m * 2 ^ Z.max e 0 * 10 ^ Z.of_nat f
                    + 2 ^ Z.max (- e) 0)%Z in
        let n := (num / (2 * 2 ^ Z.max (- e) 0))%Z in
        let ds := digits_string n in
        let ds :=
          if (String.length ds <=? f)%nat
          then zeros (S f - String.length ds) ++ ds else ds in
        let body :=
          match f with
          | O => ds
          | S _ =>
              take (String.length ds - f) ds ++ "."
              ++ drop (String.length ds - f) ds
          end in
        if s then String "-" body else body
  | S754_zero _ =>
      match f with
      | O => "0"
      | S _ => String "0" (String "." (zeros f))
      end
  | _ => ref_NumberToString x
  end.

(** [Math.pow(x, y)] where the language fixes the result or the exact
    power is [1] or [x]; NaN elsewhere, where engines may differ in the
    last bit. *)
Definition ref_Math_pow (x y : float) : float :=
  if PrimFloat.is_nan y then PrimFloat.nan
  else if PrimFloat.is_zero y then 1%float
  else if PrimFloat.is_nan x then PrimFloat.nan
  else if PrimFloat.eqb x 1 then
    if is_finite y then 1%float else PrimFloat.nan
  else if PrimFloat.eqb y 1 then x
  else PrimFloat.nan.

#[export, refine] Instance engine : Runtime := {|
  StringToNumber := ref_StringToNumber;
  NumberToString := ref_NumberToString;
  toFixed := ref_toFixed;
  parseFloat := ref_parseFloat;
  Math_pow := ref_Math_pow
|}.
Proof.
  intros x. unfold ref_NumberToString, print_positive.
  destruct (Prim2SF x) as [s|s| |s m e]; try destruct s; try discriminate.
  all: destruct (shortest _ _ _ _ _ _) as [c k];
    destruct (digits _) as [d r]; unfold layout;
    repeat match goal with
           | |- context [if ?b then _ else _] => destruct b
           end; discriminate.
Defined.
End Reference.

(** ** The inputs of the scenarios *)

Module Scenarios.
Import JS.

(** [[{FIN_PRICE_UNEDITED: "$29,999"}, {FIN_PRICE_UNEDITED: "$35,200"}]] *)
Definition price_rows : list (option (gmap string jsval)) :=
  [Some {["FIN_PRICE_UNEDITED" := JStr "$29,999"]};
   Some {["FIN_PRICE_UNEDITED" := JStr "$35,200"]}].

(** Three records, two with [AGE: "25-34"] and one without [AGE]. *)
Definition age_rows : list (option (gmap string jsval)) :=
  [Some {["AGE" := JStr "25-34"]};
   Some {["AGE" := JStr "25-34"]};
   Some ∅].

(** Three records: one agrees, one disagrees, one has no answer. *)
Definition attitude_rows : list (option (gmap string jsval)) :=
  [Some {["PV_VALUE" := JStr "Strongly  Agree"]};
   Some {["PV_VALUE" := JStr "Disagree"]};
   Some ∅].



(** Three rows of two models; the last has no answer. *)
Definition chart_rows : list (gmap string jsval) :=
  [<["model" := JStr "Stelvio"]> {["PV_VALUE" := JStr "Agree"]};
   <["model" := JStr "Macan"]> {["PV_VALUE" := JStr "Disagree"]};
   {["model" := JStr "Stelvio"]}].

(** A way to name the state of a row: its field [STATE], when it is a
    string. *)
Definition state_of (r : gmap string jsval) : option string :=
  match r !! "STATE" with
  | Some (JStr name) => Some name
  | _ => None
  end.

(** Two rows of Ohio, one of Texas, and one without a state. *)
Definition state_rows : list (gmap string jsval) :=
  [{["STATE" := JStr "Ohio"]}; {["STATE" := JStr "Texas"]};
   {["STATE" := JStr "Ohio"]}; ∅].
End Scenarios.

(** ** Vocabulary for binary64 arithmetic *)

Module Binary64.

(** The shapes of a finite number. *)
Definition SF_finite (x : spec_float) : Prop :=
  match x with
  | S754_zero _ | S754_finite _ _ _ => True
  | _ => False
  end.

(** The number of binary digits of a mantissa. *)
Definition ndigits (p : positive) : Z := Zpos (digits2_pos p).

(** What [j] right shifts make of the mantissa [m0] with rounding bits
    [r0] and [s0]: the quotient by [2^j], with both rounding bits clear
    exactly when nothing was lost. *)
Definition shr_inv (m0 : Z) (r0 s0 : bool) (j : Z) (cur : shr_record)
  : Prop :=
  shr_m cur = m0 / 2 ^ j
  /\ (shr_r cur || shr_s cur = false
      <-> r0 || s0 = false /\ m0 = shr_m cur * 2 ^ j).

(** [m * 2^e <= b], stated on a common grid [2^E]. *)
Definition val_le (m e b : Z) : Prop :=
  exists E, E <= e /\ E <= 0 /\ m * 2 ^ (e - E) <= b * 2 ^ (- E).

(** The mantissa of [100 = M100 * 2^-46]. *)
Definition M100 : positive := 7036874417766400.

End Binary64.

(** * Properties *)

Import JS CustomerGroups Binary64.
#[local] Open Scope Z_scope.

(** ** Facts on binary64 arithmetic

    Rounding a non-negative mantissa never yields NaN; hence the difference
    and the quotient of finite numbers by a finite non-zero number are
    numbers.  Rounding to nearest never crosses an integer bound that lies
    on the grid of the result; hence the quotient of a part by its whole is
    at most 1 and its product by 100 at most 100. *)

Section FloatFacts.

Lemma iter_pos_invariant {A : Type} (P : A -> Prop) (f : A -> A) :
  (forall x, P x -> P (f x)) ->
  forall p x, P x -> P (SpecFloat.iter_pos f p x).
Proof.
  intros Hf p. induction p as [p IH|p IH|]; intros x Hx; simpl; auto.
Qed.

Lemma shr_1_nonneg mrs : 0 <= shr_m mrs -> 0 <= shr_m (shr_1 mrs).
Proof.
  destruct mrs as [m r s]. simpl. intros H.
  destruct m as [|p|p]; simpl; try lia.
  destruct p; simpl; lia.
Qed.

Lemma shr_nonneg mrs e n :
  0 <= shr_m mrs -> 0 <= shr_m (fst (shr mrs e n)).
Proof.
  intros H. unfold shr. destruct n; simpl; auto.
  apply (iter_pos_invariant (fun x => 0 <= shr_m x));
    auto using shr_1_nonneg.
Qed.

Lemma shr_fexp_nonneg m e l :
  0 <= m -> 0 <= shr_m (fst (shr_fexp prec emax m e l)).
Proof.
  intros H. unfold shr_fexp. apply shr_nonneg.
  destruct l as [|[| |]]; simpl; auto.
Qed.

Lemma round_nearest_even_nonneg m l :
  0 <= m -> 0 <= round_nearest_even m l.
Proof.
  intros H. unfold round_nearest_even. destruct l as [|[| |]]; try lia.
  destruct (Z.even m); lia.
Qed.

Lemma binary_round_aux_not_nan s m e l :
  0 <= m -> binary_round_aux prec emax s m e l <> S754_nan.
Proof.
  intros H. unfold binary_round_aux.
  pose proof (shr_fexp_nonneg m e l H) as H1.
  destruct (shr_fexp prec emax m e l) as [mrs' e']. simpl in H1.
  pose proof
    (shr_fexp_nonneg _ e' loc_Exact
       (round_nearest_even_nonneg _ (loc_of_shr_record mrs') H1)) as H2.
  destruct (shr_fexp prec emax (round_nearest_even _ _) e' loc_Exact)
    as [mrs'' e''].
  simpl in H2.
  destruct (shr_m mrs''); try lia; try discriminate.
  destruct (_ <=? _); discriminate.
Qed.

Lemma binary_normalize_not_nan m e sz :
  binary_normalize prec emax m e sz <> S754_nan.
Proof.
  unfold binary_normalize, binary_round.
  destruct m as [|p|p]; try discriminate.
  all: destruct (shl_align p e _) as [mz ez];
    apply binary_round_aux_not_nan; lia.
Qed.

Lemma SFdiv_core_nonneg m1 e1 m2 e2 :
  0 < m1 -> 0 < m2 ->
  0 <= fst (fst (SFdiv_core_binary prec emax m1 e1 m2 e2)).
Proof.
  intros H1 H2. unfold SFdiv_core_binary.
  set (s := _ - _ - _).
  set (m' := match s with Z0 => m1 | Zpos _ => Z.shiftl m1 s | Zneg _ => 0 end).
  assert (Hm' : 0 <= m').
  { subst m'. destruct s; try lia. apply Z.shiftl_nonneg. lia. }
  pose proof (Z.div_pos m' m2 Hm' H2) as Hq.
  unfold Z.div in Hq. destruct (Z.div_eucl m' m2) as [q r]. simpl. exact Hq.
Qed.

Lemma is_finite_SF x : is_finite x = true -> SF_finite (Prim2SF x).
Proof.
  unfold is_finite, PrimFloat.is_nan, PrimFloat.is_infinity.
  rewrite !FloatAxioms.eqb_spec, FloatAxioms.abs_spec.
  change (Prim2SF infinity) with (S754_infinity false).
  destruct (Prim2SF x) as [s|s| |s m e]; simpl; auto; try discriminate.
  destruct s; discriminate.
Qed.

Lemma SFsub_not_nan x s m e :
  SF_finite x -> SFsub prec emax x (S754_finite s m e) <> S754_nan.
Proof.
  destruct x as [sx|sx| |sx mx ex]; simpl; try tauto; intros _.
  - discriminate.
  - apply binary_normalize_not_nan.
Qed.

Lemma SFdiv_not_nan x s m e :
  x <> S754_nan -> SFdiv prec emax x (S754_finite s m e) <> S754_nan.
Proof.
  destruct x as [sx|sx| |sx mx ex]; simpl; try tauto; try discriminate.
  intros _.
  pose proof (SFdiv_core_nonneg (Zpos mx) ex (Zpos m) e) as H.
  destruct (SFdiv_core_binary prec emax (Zpos mx) ex (Zpos m) e)
    as [[mz ez] lz].
  apply binary_round_aux_not_nan. apply H; lia.
Qed.

(** [(v - BUCKET_MIN) / BUCKET_STEP] is a number when [v] is finite. *)
Lemma step_quotient_not_nan (v : float) :
  is_finite v = true ->
  Prim2SF ((v - BUCKET_MIN) / BUCKET_STEP)%float <> S754_nan.
Proof.
  intros Hv. apply is_finite_SF in Hv.
  rewrite FloatAxioms.div_spec, FloatAxioms.sub_spec.
  change (Prim2SF BUCKET_STEP) with (S754_finite false 5497558138880000 (-40)).
  change (Prim2SF BUCKET_MIN) with (S754_finite false 8246337208320000 (-38)).
  apply SFdiv_not_nan, SFsub_not_nan, Hv.
Qed.

Lemma digits2_pos_bounds (p : positive) :
  2 ^ (ndigits p - 1) <= Zpos p < 2 ^ ndigits p.
Proof.
  unfold ndigits. induction p as [p IH|p IH|]; simpl digits2_pos.
  - rewrite Pos2Z.inj_succ.
    replace (Z.succ (Zpos (digits2_pos p)) - 1)
      with (Z.succ (Zpos (digits2_pos p) - 1)) by lia.
    rewrite !Z.pow_succ_r by lia. lia.
  - rewrite Pos2Z.inj_succ.
    replace (Z.succ (Zpos (digits2_pos p)) - 1)
      with (Z.succ (Zpos (digits2_pos p) - 1)) by lia.
    rewrite !Z.pow_succ_r by lia. lia.
  - simpl. lia.
Qed.

Lemma digits_le (p : positive) (t : Z) :
  0 <= t -> Zpos p < 2 ^ t -> ndigits p <= t.
Proof.
  intros Ht H. destruct (digits2_pos_bounds p) as [H1 _].
  destruct (Z.le_gt_cases (ndigits p) t) as [|Hgt]; [done|].
  assert (2 ^ t <= 2 ^ (ndigits p - 1)) by (apply Z.pow_le_mono_r; lia). lia.
Qed.

Lemma fexp_eq (e : Z) : fexp prec emax e = Z.max (e - 53) (-1074).
Proof. reflexivity. Qed.

Lemma shr_1_spec (mrs : shr_record) :
  0 <= shr_m mrs ->
  shr_m (shr_1 mrs) = shr_m mrs / 2
  /\ (shr_r (shr_1 mrs) || shr_s (shr_1 mrs) = false
      <-> shr_r mrs || shr_s mrs = false /\ shr_m mrs = 2 * (shr_m mrs / 2)).
Proof.
  destruct mrs as [m r s]. simpl. intros Hm.
  destruct m as [|p|p]; [| |lia].
  - simpl. split; [done|]. tauto.
  - destruct p as [p|p|]; simpl shr_m; simpl shr_r; simpl shr_s.
    + assert (H : Zpos p~1 / 2 = Zpos p).
      { symmetry. rewrite Pos2Z.inj_xI. apply Z.div_unique with 1; lia. }
      rewrite H. split; [done|]. split; [done|]. intros [_ H']. lia.
    + assert (H : Zpos p~0 / 2 = Zpos p).
      { symmetry. rewrite Pos2Z.inj_xO. apply Z.div_unique with 0; lia. }
      rewrite H. split; [done|]. simpl. split.
      * intros Hrs. split; [done|lia].
      * tauto.
    + change (1 / 2) with 0. split; [done|]. split; [done|]. intros [_ H']. lia.
Qed.

Lemma shr_inv_step m0 r0 s0 j cur :
  0 <= m0 -> 0 <= j -> shr_inv m0 r0 s0 j cur ->
  shr_inv m0 r0 s0 (j + 1) (shr_1 cur).
Proof.
  intros Hm Hj [H1 H2].
  assert (Hp : 0 < 2 ^ j) by (apply Z.pow_pos_nonneg; lia).
  assert (Hc : 0 <= shr_m cur).
  { rewrite H1. apply Z.div_pos; lia. }
  destruct (shr_1_spec cur Hc) as [H3 H4].
  split.
  - rewrite H3, H1, Z.div_div, Z.pow_add_r by lia. done.
  - rewrite H4, H2, H3, Z.pow_add_r by lia. split.
    + intros [[Ha Hb] Hc']. split; [done|].
      rewrite Hb at 1. rewrite Hc' at 1. lia.
    + intros [Ha Hb]. 
      assert (He : shr_m cur = 2 * (shr_m cur / 2)).
      { rewrite H1 at 1. rewrite Hb at 1.
        replace (shr_m cur / 2 * (2 ^ j * 2 ^ 1))
          with ((2 * (shr_m cur / 2)) * 2 ^ j) by lia.
        rewrite Z.div_mul by lia. done. }
      split; [split; [done|]|done]. rewrite Hb at 1. rewrite He at 2. lia.
Qed.

Lemma iter_pos_indexed {A : Type} (P : Z -> A -> Prop) (f : A -> A) :
  (forall j x, 0 <= j -> P j x -> P (j + 1) (f x)) ->
  forall p j x, 0 <= j -> P j x -> P (j + Zpos p) (SpecFloat.iter_pos f p x).
Proof.
  intros Hf p. induction p as [p IH|p IH|]; intros j x Hj Hx; simpl.
  - replace (j + Zpos p~1) with (j + 1 + Zpos p + Zpos p) by lia.
    apply IH; [lia|]. apply IH; [lia|]. by apply Hf.
  - replace (j + Zpos p~0) with (j + Zpos p + Zpos p) by lia.
    apply IH; [lia|]. by apply IH.
  - by apply Hf.
Qed.

Lemma shr_spec (m : Z) (l : location) (e n : Z) :
  0 <= m ->
  let '(mrs, e') := shr (shr_record_of_loc m l) e n in
  e' = e + Z.max n 0
  /\ shr_m mrs = m / 2 ^ Z.max n 0
  /\ (loc_of_shr_record mrs = loc_Exact
      <-> l = loc_Exact /\ m = shr_m mrs * 2 ^ Z.max n 0).
Proof.
  intros Hm.
  assert (Hbase : shr_inv m (shr_r (shr_record_of_loc m l))
                    (shr_s (shr_record_of_loc m l)) 0 (shr_record_of_loc m l)).
  { split.
    - destruct l as [|[| |]]; simpl; by rewrite Z.div_1_r.
    - split; [intros H; split; [done|]|tauto].
      destruct l as [|[| |]]; simpl; lia. }
  assert (Hloc : forall mrs,
             loc_of_shr_record mrs = loc_Exact
             <-> shr_r mrs || shr_s mrs = false).
  { intros [m' [|] [|]]; simpl; done. }
  assert (Hl : shr_r (shr_record_of_loc m l)
               || shr_s (shr_record_of_loc m l) = false
               <-> l = loc_Exact).
  { destruct l as [|[| |]]; simpl; done. }
  assert (Hgen : forall j cur, shr_inv m (shr_r (shr_record_of_loc m l))
                    (shr_s (shr_record_of_loc m l)) j cur ->
                 shr_m cur = m / 2 ^ j
                 /\ (loc_of_shr_record cur = loc_Exact
                     <-> l = loc_Exact /\ m = shr_m cur * 2 ^ j)).
  { intros j cur [H1 H2]. split; [done|]. rewrite Hloc, H2, Hl. done. }
  unfold shr. destruct n as [|p|p].
  - simpl Z.max. rewrite Z.add_0_r. split; [done|]. by apply Hgen.
  - replace (Z.max (Zpos p) 0) with (Zpos p) by lia.
    split; [done|]. apply Hgen.
    apply (iter_pos_indexed (shr_inv m _ _) shr_1
             (fun j x Hj => shr_inv_step m _ _ j x Hm Hj) p 0 _
             (Z.le_refl 0) Hbase).
  - simpl Z.max. rewrite Z.add_0_r. split; [done|]. by apply Hgen.
Qed.

Lemma round_nearest_even_cases (m : Z) (l : location) :
  round_nearest_even m l = m
  \/ (round_nearest_even m l = m + 1 /\ l <> loc_Exact).
Proof.
  destruct l as [|[| |]]; simpl; try destruct (Z.even m); auto;
    right; done.
Qed.

Lemma bra_le (s : bool) (mx ex : Z) (lx : location) (b : Z) :
  0 <= mx -> ex <= 0 -> Zdigits2 mx + ex <= 53 ->
  mx <= b * 2 ^ (- ex) -> (lx <> loc_Exact -> mx < b * 2 ^ (- ex)) ->
  match binary_round_aux prec emax s mx ex lx with
  | S754_zero s' => s' = s
  | S754_finite s' m e => s' = s /\ val_le (Zpos m) e b
  | S754_infinity s' => exists m e, 0 < m /\ 971 < e /\ val_le m e b
  | S754_nan => False
  end.
Proof.
  intros Hmx Hex Hdig Hle Hlt.
  unfold binary_round_aux, shr_fexp.
  set (n1 := fexp prec emax (Zdigits2 mx + ex) - ex).
  pose proof (shr_spec mx lx ex n1 Hmx) as H1.
  destruct (shr (shr_record_of_loc mx lx) ex n1) as [mrs1 e1].
  destruct H1 as (He1 & Hm1 & Hloc1).
  set (k := Z.max n1 0) in *.
  assert (Hk : 0 <= k) by lia.
  assert (HE : e1 <= 0).
  { subst k n1. rewrite fexp_eq in *. lia. }
  assert (Hpk : 0 < 2 ^ k) by (apply Z.pow_pos_nonneg; lia).
  set (NB := b * 2 ^ (- e1)).
  assert (HNB : b * 2 ^ (- ex) = NB * 2 ^ k).
  { subst NB. replace (- ex) with (- e1 + k) by lia.
    rewrite Z.pow_add_r by lia. lia. }
  assert (Hm1k : shr_m mrs1 * 2 ^ k <= mx).
  { rewrite Hm1. rewrite Z.mul_comm. apply Z.mul_div_le. lia. }
  assert (Hm1pos : 0 <= shr_m mrs1).
  { rewrite Hm1. apply Z.div_pos; lia. }
  set (m2 := round_nearest_even (shr_m mrs1) (loc_of_shr_record mrs1)).
  assert (Hm2 : 0 <= m2 <= NB).
  { subst m2.
    destruct (round_nearest_even_cases (shr_m mrs1) (loc_of_shr_record mrs1))
      as [->|[-> Hne]].
    - split; [done|]. nia.
    - split; [lia|].
      assert (shr_m mrs1 < NB); [|lia].
      destruct (Z.eq_dec mx (shr_m mrs1 * 2 ^ k)) as [Heq|Hneq].
      + assert (lx <> loc_Exact).
        { intros Hl. apply Hne. apply Hloc1. done. }
        specialize (Hlt H). nia.
      + nia. }
  pose proof (shr_spec m2 loc_Exact e1
                (fexp prec emax (Zdigits2 m2 + e1) - e1) (proj1 Hm2)) as H2.
  destruct (shr (shr_record_of_loc m2 loc_Exact) e1 _) as [mrs2 e2].
  destruct H2 as (He2 & Hm3 & _).
  set (k2 := Z.max (fexp prec emax (Zdigits2 m2 + e1) - e1) 0) in *.
  assert (Hpk2 : 0 < 2 ^ k2) by (apply Z.pow_pos_nonneg; lia).
  assert (Hm3k : shr_m mrs2 * 2 ^ k2 <= m2).
  { rewrite Hm3. rewrite Z.mul_comm. apply Z.mul_div_le. lia. }
  assert (Hval : val_le (shr_m mrs2) e2 b).
  { exists e1. split; [lia|]. split; [done|].
    replace (e2 - e1) with k2 by lia. fold NB. lia. }
  assert (Hm3pos : 0 <= shr_m mrs2).
  { rewrite Hm3. apply Z.div_pos; lia. }
  destruct (shr_m mrs2) as [|p|p] eqn:Hp; [done| |lia].
  destruct (Z.leb_spec e2 (emax - prec)).
  - done.
  - exists (Zpos p), e2. split; [lia|]. split; [|done].
    change (emax - prec) with 971 in *. lia.
Qed.

Lemma Pos_iter_xO (p d : positive) :
  Zpos (Pos.iter xO p d) = Zpos p * 2 ^ Zpos d
  /\ ndigits (Pos.iter xO p d) = ndigits p + Zpos d.
Proof.
  unfold ndigits. induction d as [|d IH] using Pos.peano_ind.
  - simpl. split; lia.
  - rewrite Pos.iter_succ. destruct IH as [IH1 IH2].
    rewrite Pos2Z.inj_xO, IH1. simpl digits2_pos.
    rewrite !Pos2Z.inj_succ, IH2, Z.pow_succ_r by lia. split; lia.
Qed.

Lemma bra_canonical (s : bool) (m : positive) (e : Z) :
  ndigits m = 53 -> -1074 <= e <= 971 ->
  binary_round_aux prec emax s (Zpos m) e loc_Exact = S754_finite s m e.
Proof.
  unfold ndigits. intros Hd He. unfold binary_round_aux, shr_fexp.
  simpl Zdigits2. rewrite Hd.
  replace (fexp prec emax (53 + e) - e) with 0 by (rewrite fexp_eq; lia).
  simpl. rewrite Hd.
  replace (fexp prec emax (53 + e) - e) with 0 by (rewrite fexp_eq; lia).
  simpl. destruct (Z.leb_spec e (emax - prec)); [done|].
  change (emax - prec) with 971 in *. lia.
Qed.

Lemma normalize_small (p : positive) :
  ndigits p <= 53 ->
  exists mz,
    binary_normalize prec emax (Zpos p) 0 false
    = S754_finite false mz (ndigits p - 53)
    /\ Zpos mz = Zpos p * 2 ^ (53 - ndigits p) /\ ndigits mz = 53.
Proof.
  intros Hd. assert (Hpos : 1 <= ndigits p) by (unfold ndigits; lia).
  unfold binary_normalize, binary_round, shl_align.
  replace (fexp prec emax (Zpos (digits2_pos p) + 0)) with (ndigits p - 53)
    by (rewrite fexp_eq; unfold ndigits; lia).
  destruct (ndigits p - 53 - 0) as [|q|q] eqn:Hq; [|lia|].
  - exists p. assert (ndigits p = 53) by lia.
    rewrite bra_canonical by lia.
    replace (ndigits p - 53) with 0 by lia.
    replace (53 - ndigits p) with 0 by lia.
    split; [done|]. split; [lia|done].
  - destruct (Pos_iter_xO p q) as [H1 H2].
    exists (Pos.iter xO p q).
    rewrite bra_canonical by lia.
    split; [done|]. split; [|lia].
    rewrite H1. f_equal. f_equal. lia.
Qed.

Lemma Prim2SF_of_Z_small (p : positive) :
  ndigits p <= 53 ->
  exists mz,
    Prim2SF (SF2Prim (binary_normalize prec emax (Zpos p) 0 false))
    = S754_finite false mz (ndigits p - 53)
    /\ Zpos mz = Zpos p * 2 ^ (53 - ndigits p) /\ ndigits mz = 53.
Proof.
  intros Hd. destruct (normalize_small p Hd) as (mz & -> & H1 & H2).
  exists mz. split; [|done].
  apply FloatAxioms.Prim2SF_SF2Prim.
  unfold SpecFloat.valid_binary, SpecFloat.bounded,
    SpecFloat.canonical_mantissa.
  fold (ndigits mz). rewrite H2.
  assert (1 <= ndigits p) by (unfold ndigits; lia).
  apply andb_true_intro. split.
  - apply Z.eqb_eq. rewrite fexp_eq. lia.
  - apply Z.leb_le. change (emax - prec) with 971. lia.
Qed.

Lemma val_le_one (m : positive) (e : Z) :
  val_le (Zpos m) e 1 -> e <= 0 /\ Zpos m <= 2 ^ (- e).
Proof.
  intros (E & H1 & H2 & H3).
  assert (Hp : 0 < 2 ^ (e - E)) by (apply Z.pow_pos_nonneg; lia).
  assert (He : e <= 0).
  { destruct (Z.le_gt_cases e 0); [done|].
    assert (2 ^ (- E) < 2 ^ (e - E)) by (apply Z.pow_lt_mono_r; lia). nia. }
  split; [done|].
  replace (- E) with (- e + (e - E)) in H3 by lia.
  rewrite Z.pow_add_r in H3 by lia.
  assert (0 < 2 ^ (- e)) by (apply Z.pow_pos_nonneg; lia). nia.
Qed.

Lemma val_le_no_overflow (m e b : Z) :
  0 < m -> 971 < e -> b <= 100 -> ~ val_le m e b.
Proof.
  intros Hm He Hb (E & H1 & H2 & H3).
  replace (e - E) with (e + - E) in H3 by lia.
  rewrite Z.pow_add_r in H3 by lia.
  assert (0 < 2 ^ (- E)) by (apply Z.pow_pos_nonneg; lia).
  assert (2 ^ 7 <= 2 ^ e) by (apply Z.pow_le_mono_r; lia).
  change (2 ^ 7) with 128 in *.
  set (X := 2 ^ (- E)) in *. set (Y := 2 ^ e) in *.
  assert (128 * X <= m * (Y * X)).
  { transitivity (Y * X); [nia|]. assert (0 <= Y * X) by nia. nia. }
  nia.
Qed.

Lemma Zdigits2_le (q t : Z) : 0 <= q -> 0 <= t -> q < 2 ^ t -> Zdigits2 q <= t.
Proof.
  intros Hq Ht H. destruct q as [|p|p]; simpl; [done| |lia].
  by apply digits_le.
Qed.

Lemma new_location_exact (nb r : Z) :
  new_location nb r <> loc_Exact -> r <> 0.
Proof.
  intros H ->. apply H.
  unfold new_location, new_location_even, new_location_odd.
  destruct (Z.even nb); reflexivity.
Qed.

Lemma div_le_one (ma md : positive) (alpha delta : Z) :
  ndigits ma = 53 -> ndigits md = 53 -> 0 <= alpha <= 52 -> 0 <= delta <= 52 ->
  Zpos ma * 2 ^ delta <= Zpos md * 2 ^ alpha ->
  match SFdiv prec emax (S754_finite false ma (- alpha))
          (S754_finite false md (- delta)) with
  | S754_zero s => s = false
  | S754_finite s m e => s = false /\ val_le (Zpos m) e 1
  | _ => False
  end.
Proof.
  unfold ndigits. intros Ha Hd Halpha Hdelta Hle.
  unfold SFdiv, SFdiv_core_binary. simpl Zdigits2. rewrite Ha, Hd.
  replace (Z.min (fexp prec emax (53 + - alpha - (53 + - delta)))
             (- alpha - - delta)) with (delta - alpha - 53)
    by (rewrite fexp_eq; lia).
  replace (- alpha - - delta - (delta - alpha - 53)) with 53 by lia.
  rewrite Z.shiftl_mul_pow2 by lia.
  pose proof (Z_div_mod (Zpos ma * 2 ^ 53) (Zpos md) eq_refl) as Hdm.
  destruct (Z.div_eucl (Zpos ma * 2 ^ 53) (Zpos md)) as [q r].
  destruct Hdm as [Hq Hr].
  assert (Hpa : 0 < 2 ^ alpha) by (apply Z.pow_pos_nonneg; lia).
  assert (Hpd : 0 < 2 ^ delta) by (apply Z.pow_pos_nonneg; lia).
  assert (Hq0 : 0 <= q) by nia.
  set (t := 53 + alpha - delta).
  assert (Ht : 2 ^ t * 2 ^ delta = 2 ^ alpha * 2 ^ 53).
  { subst t. rewrite <- !Z.pow_add_r by lia. f_equal. lia. }
  assert (Hpt : 0 < 2 ^ t) by (apply Z.pow_pos_nonneg; lia).
  assert (Hqt : q <= 2 ^ t).
  { assert (Zpos md * q * 2 ^ delta <= Zpos md * (2 ^ t * 2 ^ delta)).
    { rewrite Ht. nia. }
    nia. }
  assert (Hqs : r <> 0 -> q < 2 ^ t).
  { intros Hr0.
    assert (Zpos md * q * 2 ^ delta < Zpos md * (2 ^ t * 2 ^ delta)).
    { rewrite Ht. nia. }
    nia. }
  pose proof (bra_le (xorb false false) q (delta - alpha - 53)
                (new_location (Zpos md) r) 1 Hq0) as Hb.
  replace (- (delta - alpha - 53)) with t in Hb by lia.
  rewrite Z.mul_1_l in Hb.
  assert (Hdig : Zdigits2 q + (delta - alpha - 53) <= 53).
  { assert (Zdigits2 q <= t + 1); [|lia].
    apply Zdigits2_le; [done|lia|]. rewrite Z.pow_add_r by lia. lia. }
  specialize (Hb ltac:(lia) Hdig Hqt
                (fun H => Hqs (new_location_exact _ _ H))).
  simpl xorb in *.
  destruct (binary_round_aux prec emax false q (delta - alpha - 53) _)
    as [s|s| |s m e]; try done.
  destruct Hb as (m & e & Hm & He & Hv).
  by eapply (val_le_no_overflow m e 1).
Qed.

Lemma mul_100_le (m : positive) (e : Z) :
  val_le (Zpos m) e 1 ->
  match SFmul prec emax (S754_finite false m e)
          (S754_finite false M100 (-46)) with
  | S754_zero s => s = false
  | S754_finite s m' e' => s = false /\ val_le (Zpos m') e' 100
  | _ => False
  end.
Proof.
  intros Hv. destruct (val_le_one m e Hv) as [He Hm].
  unfold SFmul.
  assert (Hp : 0 < 2 ^ (- e)) by (apply Z.pow_pos_nonneg; lia).
  assert (HM : Zpos M100 = 100 * 2 ^ 46) by reflexivity.
  assert (Hpow : 2 ^ (- (e + -46)) = 2 ^ (- e) * 2 ^ 46).
  { rewrite <- Z.pow_add_r by lia. f_equal. lia. }
  assert (Hle : Zpos (m * M100) <= 100 * 2 ^ (- (e + -46))).
  { rewrite Pos2Z.inj_mul, HM, Hpow. nia. }
  pose proof (bra_le (xorb false false) (Zpos (m * M100)) (e + -46)
                loc_Exact 100 ltac:(lia) ltac:(lia)) as Hb.
  assert (Hdig : Zdigits2 (Zpos (m * M100)) + (e + -46) <= 53).
  { assert (Zdigits2 (Zpos (m * M100)) <= 7 + - (e + -46)); [|lia].
    apply Zdigits2_le; [lia|lia|].
    rewrite Z.pow_add_r by lia. change (2 ^ 7) with 128.
    assert (0 < 2 ^ (- (e + -46))) by (apply Z.pow_pos_nonneg; lia). lia. }
  specialize (Hb Hdig Hle ltac:(done)).
  simpl xorb in *.
  destruct (binary_round_aux prec emax false (Zpos (m * M100)) (e + -46) _)
    as [s|s| |s m' e']; try done.
  destruct Hb as (m' & e' & Hm' & He' & Hv').
  by eapply (val_le_no_overflow m' e' 100).
Qed.

Lemma val_le_leb (M : positive) (m : positive) (e : Z) :
  Zpos M = 100 * 2 ^ 46 ->
  valid_binary (S754_finite false m e) = true ->
  val_le (Zpos m) e 100 ->
  SFleb (S754_finite false m e) (S754_finite false M (-46)) = true.
Proof.
  unfold SpecFloat.valid_binary, SpecFloat.bounded,
    SpecFloat.canonical_mantissa. fold (ndigits m).
  intros HM Hvalid (E & H1 & H2 & H3).
  apply andb_true_iff in Hvalid as [Hc _]. apply Z.eqb_eq in Hc.
  rewrite fexp_eq in Hc.
  destruct (digits2_pos_bounds m) as [Hlo _].
  assert (HpE : 0 < 2 ^ (- E)) by (apply Z.pow_pos_nonneg; lia).
  assert (HpeE : 0 < 2 ^ (e - E)) by (apply Z.pow_pos_nonneg; lia).
  assert (He : e <= -46).
  { destruct (Z.le_gt_cases e (-46)); [done|].
    assert (ndigits m = 53) by lia.
    assert (Hm52 : 2 ^ 52 <= Zpos m)
      by (replace 52 with (ndigits m - 1) by lia; done).
    assert (Hp1 : 2 ^ (7 - E) <= 2 ^ (52 + (e - E)))
      by (apply Z.pow_le_mono_r; lia).
    rewrite Z.pow_add_r in Hp1 by lia.
    assert (Hp2 : 2 ^ (7 - E) = 128 * 2 ^ (- E)).
    { replace (7 - E) with (7 + - E) by lia. by rewrite Z.pow_add_r by lia. }
    nia. }
  unfold SFleb, SFcompare.
  destruct (Z.compare_spec e (-46)) as [Heq|Hlt|Hgt]; [|done|lia].
  subst e.
  assert (Hm : Zpos m <= Zpos M).
  { rewrite HM.
    replace (- E) with (46 + (-46 - E)) in H3 by lia.
    rewrite Z.pow_add_r in H3 by lia. nia. }
  pose proof (Pos.compare_spec m M) as Hcmp. unfold Pos.compare in Hcmp.
  destruct Hcmp; try done. lia.
Qed.

Lemma val_le_leb_100 (m : positive) (e : Z) :
  valid_binary (S754_finite false m e) = true ->
  val_le (Zpos m) e 100 ->
  SFleb (S754_finite false m e) (S754_finite false M100 (-46)) = true.
Proof. apply val_le_leb. reflexivity. Qed.

(** The share [a / d * 100] of a part in a whole, in doubles, lies between
    0 and 100, for counters that doubles hold exactly. *)
Lemma pct_in_range (a d : nat) :
  (a <= d)%nat -> (0 < d)%nat -> Z.of_nat d < 2 ^ 53 ->
  let p := (of_nat a / of_nat d * 100)%float in
  PrimFloat.leb 0 p = true /\ PrimFloat.leb p 100 = true.
Proof.
  intros Had Hd Hbig p. unfold of_nat, of_Z in p.
  pose proof (FloatAxioms.Prim2SF_valid p) as Hvalid.
  subst p. rewrite !FloatAxioms.leb_spec.
  rewrite FloatAxioms.mul_spec, FloatAxioms.div_spec in *.
  change (Prim2SF 100) with (S754_finite false M100 (-46)) in *.
  change (Prim2SF 0) with (S754_zero false).
  unfold SF64div, SF64mul in *.
  destruct (Z.of_nat d) as [|pd|pd] eqn:Hpd; [lia| |lia].
  assert (Hdd : ndigits pd <= 53) by (apply digits_le; lia).
  destruct (Prim2SF_of_Z_small pd Hdd) as (md & Hy & Hmd & Hdmd).
  rewrite Hy in *. clear Hy.
  assert (HDd : 1 <= ndigits pd) by (unfold ndigits; lia).
  destruct (Z.of_nat a) as [|pa|pa] eqn:Hpa; [| |lia].
  - change (Prim2SF (SF2Prim (binary_normalize prec emax 0 0 false)))
      with (S754_zero false). simpl. done.
  - assert (Hda : ndigits pa <= 53) by (apply digits_le; lia).
    destruct (Prim2SF_of_Z_small pa Hda) as (ma & Hx & Hma & Hdma).
    rewrite Hx in *. clear Hx.
    assert (HDa : 1 <= ndigits pa) by (unfold ndigits; lia).
    pose proof (div_le_one ma md (53 - ndigits pa) (53 - ndigits pd) Hdma Hdmd
                  ltac:(lia) ltac:(lia)) as Hdiv.
    replace (- (53 - ndigits pa)) with (ndigits pa - 53) in Hdiv by lia.
    replace (- (53 - ndigits pd)) with (ndigits pd - 53) in Hdiv by lia.
    assert (Hle : Zpos ma * 2 ^ (53 - ndigits pd)
                  <= Zpos md * 2 ^ (53 - ndigits pa)).
    { rewrite Hma, Hmd.
      assert (0 < 2 ^ (53 - ndigits pa)) by (apply Z.pow_pos_nonneg; lia).
      assert (0 < 2 ^ (53 - ndigits pd)) by (apply Z.pow_pos_nonneg; lia).
      assert (Zpos pa <= Zpos pd) by lia. nia. }
    specialize (Hdiv Hle).
    destruct (SFdiv prec emax (S754_finite false ma (ndigits pa - 53))
                (S754_finite false md (ndigits pd - 53))) as [s|s| |s m e].
    + rewrite Hdiv. done.
    + done.
    + done.
    + destruct Hdiv as [-> Hv].
      pose proof (mul_100_le m e Hv) as Hmul.
      destruct (SFmul prec emax (S754_finite false m e)
                  (S754_finite false M100 (-46))) as [s|s| |s m' e'].
      * rewrite Hmul. done.
      * done.
      * done.
      * destruct Hmul as [-> Hv']. split; [done|].
        by apply val_le_leb_100.
Qed.

End FloatFacts.

(** ** Price buckets *)

Section PriceBuckets.
Context {rt : Runtime}.

Lemma price_vals_filter (rows : list (option row)) :
  price_vals rows
  = map (fun r => coercePrice (get_opt r "FIN_PRICE_UNEDITED"))
      (List.filter coercible rows).
Proof.
  unfold price_vals. induction rows as [|r rows IH]; simpl; auto.
  unfold coercible at 1.
  rewrite filter_cons. case_decide as H.
  - rewrite H. simpl. by rewrite IH.
  - destruct (is_finite _); [done|]. apply IH.
Qed.

Lemma price_vals_finite (rows : list (option row)) :
  Forall (fun v => is_finite v = true) (price_vals rows).
Proof.
  unfold price_vals. apply Forall_forall. intros v Hv.
  by apply list_elem_of_filter in Hv as [Hv _].
Qed.

Lemma ranges_length : length getFixedBucketRanges = 18%nat.
Proof. reflexivity. Qed.

Lemma bucketIndex_range (v : float) :
  is_finite v = true ->
  exists z, bucketIndex 18 v = ZFin z /\ 0 <= z < 18.
Proof.
  intros Hv. unfold bucketIndex.
  destruct (PrimFloat.ltb v BUCKET_MIN); [exists 0; split; [done|lia]|].
  destruct (geb v OVER_MIN); [exists 17; split; [done|lia]|].
  change (Math_floor ((OVER_MIN - BUCKET_MIN) / BUCKET_STEP - 1)%float)
    with (ZFin 15).
  pose proof (step_quotient_not_nan v Hv) as Hq.
  unfold Math_floor.
  destruct (Prim2SF ((v - BUCKET_MIN) / BUCKET_STEP)%float)
    as [s|s| |s m e]; try done; simpl.
  - exists 1. split; [done|lia].
  - destruct s; simpl; [exists 1|exists 16]; split; try done; lia.
  - eexists. split; [reflexivity|lia].
Qed.

Lemma sum_list_alter_S (i : nat) (l : list nat) :
  (i < length l)%nat -> sum_list (alter S i l) = S (sum_list l).
Proof.
  revert i. induction l as [|x l IH]; intros [|i] H; simpl in *; try lia.
  specialize (IH i). unfold alter in IH. lia.
Qed.

(** A finite value bumps exactly one of the eighteen counters. *)
Lemma bump_finite (v : float) (cs : list nat) :
  is_finite v = true -> length cs = 18%nat ->
  exists i, (i < 18)%nat
    /\ bump (bucketIndex (length cs) v) cs = Some (alter S i cs).
Proof.
  intros Hv Hlen. rewrite Hlen.
  destruct (bucketIndex_range v Hv) as (z & -> & Hz).
  exists (Z.to_nat z). split; [lia|]. unfold bump.
  destruct (Z.leb_spec 0 z); [|lia].
  case_decide; [done|lia].
Qed.

Lemma bump_all_length (idxs : list nat) (cs : list nat) :
  length (bump_all idxs cs) = length cs.
Proof.
  revert cs. induction idxs as [|i idxs IH]; intros cs; simpl; [done|].
  unfold bump_all in *. simpl. by rewrite IH, length_alter.
Qed.

Lemma bump_all_sum (idxs : list nat) (cs : list nat) :
  Forall (fun i => (i < length cs)%nat) idxs ->
  sum_list (bump_all idxs cs) = (sum_list cs + length idxs)%nat.
Proof.
  revert cs. induction idxs as [|i idxs IH]; intros cs H; simpl; [lia|].
  inversion H as [|? ? Hi Hrest]; subst.
  unfold bump_all in *. simpl. rewrite IH.
  - rewrite sum_list_alter_S; lia.
  - rewrite length_alter. done.
Qed.

Lemma count_vals_total (vals : list float) (cs : list nat) :
  Forall (fun v => is_finite v = true) vals -> length cs = 18%nat ->
  exists idxs, count_vals vals cs = Some (bump_all idxs cs)
    /\ length idxs = length vals
    /\ Forall (fun i => (i < 18)%nat) idxs.
Proof.
  intros Hvals. revert cs.
  induction Hvals as [|v vals Hv _ IH]; intros cs Hlen; simpl.
  - exists []. by repeat split.
  - destruct (bump_finite v cs Hv Hlen) as (i & Hi & ->).
    destruct (IH (alter S i cs)) as (idxs & -> & Hlen' & Hidx).
    { by rewrite length_alter. }
    exists (i :: idxs). split; [done|]. split; [simpl; lia|].
    by constructor.
Qed.

Lemma sum_counts_zip (f : range -> nat -> bucket) (rs : list range)
    (cs : list nat) :
  (forall r c, b_count (f r c) = c) -> length rs = length cs ->
  sum_list (map b_count (zip_with f rs cs)) = sum_list cs.
Proof.
  intros Hf. revert cs.
  induction rs as [|r rs IH]; intros [|c cs] Hlen; simpl in *; try done.
  rewrite Hf, IH; [lia|lia].
Qed.

Lemma map_count_zip (f : range -> nat -> bucket) (rs : list range)
    (cs : list nat) :
  (forall r c, b_count (f r c) = c) -> length rs = length cs ->
  map b_count (zip_with f rs cs) = cs.
Proof.
  intros Hf. revert cs.
  induction rs as [|r rs IH]; intros [|c cs] Hlen; simpl in *; try done.
  rewrite Hf, IH; [done|lia].
Qed.

(** C10.  When some price coerces ([totalValid > 0]), [buildBucketsForRows]
    returns normally, [totalValid] is the number of records whose price
    coerces to a finite number, every such value bumps exactly one of the
    eighteen counters (the indexes [idxs], one per value), and the bucket
    counts add up to [totalValid]; the other records reach no counter. *)
Theorem bucket_counts_sum_to_totalValid (rows : list (option row)) :
  (0 < length (List.filter coercible rows))%nat ->
  exists res idxs,
    buildBucketsForRows rows = Some res
    /\ totalValid res = length (List.filter coercible rows)
    /\ length idxs = totalValid res
    /\ Forall (fun i => (i < 18)%nat) idxs
    /\ map b_count (data res) = bump_all idxs (replicate 18 0%nat)
    /\ sum_list (map b_count (data res)) = totalValid res.
Proof.
  intros Hpos.
  assert (Hlen : length (price_vals rows)
                 = length (List.filter coercible rows)).
  { by rewrite price_vals_filter, length_map. }
  unfold buildBucketsForRows.
  case_decide as Hz; [lia|].
  destruct (count_vals_total (price_vals rows)
              (map (fun _ => 0%nat) getFixedBucketRanges))
    as (idxs & Hc & Hl & Hi).
  { apply price_vals_finite. }
  { by rewrite length_map, ranges_length. }
  rewrite Hc.
  change (map (fun _ => 0%nat) getFixedBucketRanges)
    with (replicate 18 0%nat) in *.
  eexists. exists idxs. split; [reflexivity|]. cbn [data totalValid].
  assert (Hm : forall pct,
             map b_count
               (zip_with (fun r c => mkBucket (label r) (pct c) c)
                  getFixedBucketRanges (bump_all idxs (replicate 18 0%nat)))
             = bump_all idxs (replicate 18 0%nat)).
  { intros pct. apply map_count_zip; [done|].
    by rewrite bump_all_length, ranges_length, length_replicate. }
  rewrite Hm. repeat split; try done; try lia.
  rewrite bump_all_sum.
  - rewrite Hl, Hlen, sum_list_replicate. lia.
  - by rewrite length_replicate.
Qed.






End PriceBuckets.

(** The first scenario has a price that coerces, and its counts add up. *)
Lemma bucket_counts_sum_witness :
  exists res idxs,
    @buildBucketsForRows Reference.engine Scenarios.price_rows = Some res
    /\ totalValid res
       = length (List.filter (@coercible Reference.engine)
                   Scenarios.price_rows)
    /\ length idxs = totalValid res
    /\ Forall (fun i => (i < 18)%nat) idxs
    /\ map b_count (data res) = bump_all idxs (replicate 18 0%nat)
    /\ sum_list (map b_count (data res)) = totalValid res.
Proof.
  apply (@bucket_counts_sum_to_totalValid Reference.engine
           Scenarios.price_rows).
  vm_compute. lia.
Defined.


(** ** Model filter *)

Section ModelFilter.
Context {rt : Runtime}.

Lemma SameValueZero_refl (v : jsval) : SameValueZero v v = true.
Proof.
  destruct v as [| |b|x|s]; simpl; try done.
  - by destruct b.
  - unfold PrimFloat.is_nan. by destruct (PrimFloat.eqb x x).
  - apply String.eqb_refl.
Qed.

Lemma includes_app (l1 l2 : list jsval) (v : jsval) :
  includes (l1 ++ l2) v = includes l1 v || includes l2 v.
Proof. unfold includes. apply existsb_app. Qed.

Lemma set_add_all_includes (l seen : list jsval) (v : jsval) :
  includes seen v = true \/ In v l ->
  includes (set_add_all seen l) v = true.
Proof.
  revert seen. induction l as [|a l IH]; intros seen H; simpl.
  - destruct H as [H|[]]. done.
  - destruct (includes seen a) eqn:Ha.
    + apply IH. destruct H as [H|[->|H]]; auto.
    + apply IH. destruct H as [H|[->|H]]; auto.
      * left. rewrite includes_app, H. done.
      * left. rewrite includes_app. simpl.
        rewrite SameValueZero_refl. by rewrite orb_true_r.
Qed.

Lemma includes_sort_insert (x : jsval) (l : list jsval) (v : jsval) :
  includes (sort_insert x l) v = includes (x :: l) v.
Proof.
  induction l as [|y l IH]; simpl; [done|].
  destruct (sort_before y x); simpl; [|done].
  simpl in IH. rewrite IH.
  destruct (SameValueZero x v), (SameValueZero y v); done.
Qed.

Lemma includes_sort_default (l : list jsval) (v : jsval) :
  includes (sort_default l) v = includes l v.
Proof.
  induction l as [|x l IH]; simpl; [done|].
  unfold sort_default in *. simpl.
  rewrite includes_sort_insert. simpl. by rewrite IH.
Qed.

Lemma allModels_includes (rows : list row) (r : row) :
  In r rows -> includes (allModels rows) (get r "model") = true.
Proof.
  intros Hr. unfold allModels. rewrite includes_sort_default.
  apply set_add_all_includes. right.
  apply in_map_iff. by exists r.
Qed.

Lemma filter_all {A : Type} (f : A -> bool) (l : list A) :
  (forall x, In x l -> f x = true) -> List.filter f l = l.
Proof.
  induction l as [|x l IH]; intros H; simpl; [done|].
  rewrite H by (by left). f_equal. apply IH. intros y Hy. apply H. by right.
Qed.

(** C7.  With an empty selection of models (or none at all) the model
    filter returns every row, unchanged and in order. *)
Theorem empty_selection_keeps_all_rows (rows : list row) :
  baseByModel rows (Some []) = rows /\ baseByModel rows None = rows.
Proof.
  split; unfold baseByModel; apply filter_all;
    intros r Hr; by apply allModels_includes.
Qed.

End ModelFilter.

(** ** Attitude scorer: policy and normalization *)

Section AgreePolicy.
Context {rt : Runtime}.

Lemma has_TOP2 (s : string) :
  has AGREE_TOP2 s
  = String.eqb s "strongly agree" || String.eqb s "somewhat agree".
Proof. unfold has, AGREE_TOP2. simpl. by rewrite orb_false_r. Qed.

Lemma has_TOP3 (s : string) :
  has AGREE_TOP3 s
  = String.eqb s "strongly agree" || String.eqb s "agree"
    || String.eqb s "somewhat agree".
Proof.
  unfold has, AGREE_TOP3. simpl. rewrite orb_false_r. by rewrite orb_assoc.
Qed.

Lemma tally_row_agree (varName : string) (demoLookups : lookups) (t : tally)
    (r : option row) :
  agree (tally_row varName demoLookups t r)
  = match scored_label r varName demoLookups with
    | Some lab =>
        if isTopNAgree lab (agreePolicyFor varName)
        then S (agree t) else agree t
    | None => agree t
    end.
Proof.
  unfold tally_row, scored_label.
  by destruct (resolveMappedLabel r varName demoLookups) as [[|c s]|].
Qed.

Lemma is_ws_lower (c : ascii) : is_ws (lower_char c) = is_ws c.
Proof. by destruct c as [[] [] [] [] [] [] [] []]. Qed.

Lemma lower_char_idem (c : ascii) :
  lower_char (lower_char c) = lower_char c.
Proof. by destruct c as [[] [] [] [] [] [] [] []]. Qed.

Lemma toLowerCase_idem (s : string) :
  toLowerCase (toLowerCase s) = toLowerCase s.
Proof.
  induction s as [|c s IH]; simpl; [done|]. by rewrite lower_char_idem, IH.
Qed.

Lemma trimStart_lower (s : string) :
  trimStart (toLowerCase s) = toLowerCase (trimStart s).
Proof.
  induction s as [|c s IH]; simpl; [done|]. rewrite is_ws_lower.
  by destruct (is_ws c).
Qed.

Lemma trimEnd_lower (s : string) :
  trimEnd (toLowerCase s) = toLowerCase (trimEnd s).
Proof.
  induction s as [|c s IH]; simpl; [done|]. rewrite IH, is_ws_lower.
  destruct (trimEnd s); simpl; [by destruct (is_ws c)|done].
Qed.

(** Normalization does not see the letter case. *)
Lemma normalizeLabel_lower (s : string) :
  normalizeLabel (toLowerCase s) = normalizeLabel s.
Proof.
  unfold normalizeLabel, trim.
  by rewrite trimStart_lower, trimEnd_lower, toLowerCase_idem.
Qed.

Lemma trimEnd_snoc_ws (s : string) (c : ascii) :
  is_ws c = true -> trimEnd (s ++ String c "") = trimEnd s.
Proof.
  intros Hc. induction s as [|a s IH]; simpl; [by rewrite Hc|].
  by rewrite IH.
Qed.

Lemma trim_snoc_ws (s : string) (c : ascii) :
  is_ws c = true -> trim (s ++ String c "") = trim s.
Proof.
  intros Hc. unfold trim. induction s as [|a s IH]; simpl.
  - by rewrite Hc.
  - destruct (is_ws a); [done|].
    apply (trimEnd_snoc_ws (String a s) c Hc).
Qed.

(** Normalization does not see white space around the label. *)
Lemma normalizeLabel_padding (s : string) (c : ascii) :
  is_ws c = true ->
  normalizeLabel (String c s) = normalizeLabel s
  /\ normalizeLabel (s ++ String c "") = normalizeLabel s.
Proof.
  intros Hc. unfold normalizeLabel. split.
  - unfold trim. simpl. by rewrite Hc.
  - by rewrite trim_snoc_ws.
Qed.

(** C5.  A row counts as agreeing exactly when it has a label and the
    label, once trimmed, lower-cased and with every run of white space
    collapsed to one space, is: ["loyal"] for the field [OL_MODEL_GRP];
    ["strongly agree"] or ["somewhat agree"] for a field whose name starts
    with [STATE_] in any letter case; ["strongly agree"], ["agree"] or
    ["somewhat agree"] for any other field.  The decision sees neither the
    letter case of the label nor white space around it. *)
Theorem agree_decided_on_normalized_label
    (varName lab : string) (demoLookups : lookups) (t : tally)
    (r : option row) (c : ascii) :
  normalizeLabel lab = collapse_ws (toLowerCase (trim lab))
  /\ isTopNAgree lab (agreePolicyFor varName)
     = (let s := normalizeLabel lab in
        if String.eqb varName "OL_MODEL_GRP" then String.eqb s "loyal"
        else if prefix_ci "STATE_" varName
        then String.eqb s "strongly agree" || String.eqb s "somewhat agree"
        else String.eqb s "strongly agree" || String.eqb s "agree"
             || String.eqb s "somewhat agree")
  /\ agree (tally_row varName demoLookups t r)
     = (match scored_label r varName demoLookups with
        | Some l =>
            if isTopNAgree l (agreePolicyFor varName)
            then S (agree t) else agree t
        | None => agree t
        end)
  /\ isTopNAgree (toLowerCase lab) (agreePolicyFor varName)
     = isTopNAgree lab (agreePolicyFor varName)
  /\ (if is_ws c
      then isTopNAgree (String c lab) (agreePolicyFor varName)
           = isTopNAgree lab (agreePolicyFor varName)
           /\ isTopNAgree (lab ++ String c "") (agreePolicyFor varName)
              = isTopNAgree lab (agreePolicyFor varName)
      else True)
  /\ normalizeLabel "  Strongly   AGREE " = "strongly agree"
  /\ agreePolicyFor "OL_MODEL_GRP" = LOYAL_ONLY
  /\ agreePolicyFor "state_wait" = TOP2
  /\ agreePolicyFor "STATE_BALANCE" = TOP2
  /\ agreePolicyFor "ESTATE_X" = TOP3
  /\ agreePolicyFor "PV_VALUE" = TOP3.
Proof.
  split; [reflexivity|]. split.
  { unfold isTopNAgree, agreePolicyFor. cbv zeta.
    destruct (String.eqb varName "OL_MODEL_GRP"); [done|].
    destruct (prefix_ci "STATE_" varName); [apply has_TOP2|apply has_TOP3]. }
  split; [apply tally_row_agree|].
  split; [unfold isTopNAgree; by rewrite normalizeLabel_lower|].
  split; [|by repeat split].
  destruct (is_ws c) eqn:Hc; [|done].
  destruct (normalizeLabel_padding lab c Hc) as [H1 H2].
  unfold isTopNAgree. by rewrite H1, H2.
Qed.

End AgreePolicy.

(** ** Attitude scorer: the range of the score *)

Section AgreeRange.
Context {rt : Runtime}.

Lemma tally_fold_invariant (varName : string) (demoLookups : lookups)
    (rows : list (option row)) (t0 : tally) :
  let t := fold_left (tally_row varName demoLookups) rows t0 in
  ((agree t0 <= valid t0)%nat -> (agree t <= valid t)%nat)
  /\ (valid t + missing t = valid t0 + missing t0 + length rows)%nat.
Proof.
  revert t0. induction rows as [|r rows IH]; intros t0; simpl.
  - split; [done|lia].
  - destruct (IH (tally_row varName demoLookups t0 r)) as [H1 H2].
    unfold tally_row in *.
    destruct (resolveMappedLabel r varName demoLookups) as [[|c l]|];
      simpl in *.
    + split; [done|lia].
    + destruct (isTopNAgree _ _); simpl in *; split; try lia;
        intros H; apply H1; lia.
    + split; [done|lia].
Qed.

Lemma SFcompare_antisym (x y : spec_float) :
  SFcompare y x = option_map CompOpp (SFcompare x y).
Proof.
  destruct x as [sx|sx| |sx mx ex], y as [sy|sy| |sy my ey]; simpl;
    try done; try (by destruct sx); try (by destruct sy);
    try (by destruct sx, sy).
  destruct sx, sy; simpl; try done.
  - rewrite (Z.compare_antisym ex ey).
    destruct (Z.compare ex ey); simpl; try done.
    by rewrite (Pos.compare_cont_antisym mx my Eq).
  - rewrite (Z.compare_antisym ex ey).
    destruct (Z.compare ex ey); simpl; try done.
    by rewrite (Pos.compare_cont_antisym mx my Eq).
Qed.

Lemma leb_not_ltb (x y : float) :
  PrimFloat.leb x y = true -> PrimFloat.ltb y x = false.
Proof.
  rewrite FloatAxioms.leb_spec, FloatAxioms.ltb_spec.
  unfold SFleb, SFltb. rewrite (SFcompare_antisym (Prim2SF x) (Prim2SF y)).
  by destruct (SFcompare (Prim2SF x) (Prim2SF y)) as [[| |]|].
Qed.

Lemma leb_not_nan (x y : float) :
  PrimFloat.leb x y = true -> PrimFloat.is_nan y = false.
Proof.
  unfold PrimFloat.is_nan.
  rewrite FloatAxioms.leb_spec, FloatAxioms.eqb_spec.
  unfold SFleb, SFeqb.
  destruct (Prim2SF y) as [s|s| |s m e].
  - done.
  - by destruct s.
  - by destruct (Prim2SF x).
  - intros _. simpl. rewrite Z.compare_refl, Pos.compare_cont_refl.
    by destruct s.
Qed.

(** C4.  With fewer than [2^53] rows (so that the counters are exact
    doubles), the score is NaN or lies between 0 and 100, never below 0
    and never above 100; it is NaN exactly when the denominator is zero;
    and the denominator of [percentAgree], which includes the missing
    rows, is the number of valid rows plus the number of missing rows,
    that is, all the rows. *)
Theorem percentAgree_in_range_or_nan (rows : list (option row))
    (varName : string) (demoLookups : lookups)
    (includeMissingInDenom : bool) :
  Z.of_nat (length rows) < 2 ^ 53 ->
  let t := tally_rows rows varName demoLookups in
  let p :=
    percentAgreeMappedPolicy rows varName demoLookups includeMissingInDenom in
  percentAgree rows varName demoLookups
  = percentAgreeMappedPolicy rows varName demoLookups true
  /\ denominator true t = (valid t + missing t)%nat
  /\ (valid t + missing t)%nat = length rows
  /\ denominator false t = valid t
  /\ (PrimFloat.is_nan p = true <-> denominator includeMissingInDenom t = 0%nat)
  /\ (PrimFloat.is_nan p = true
      \/ (PrimFloat.leb 0 p = true /\ PrimFloat.leb p 100 = true))
  /\ PrimFloat.ltb p 0 = false
  /\ PrimFloat.ltb 100 p = false.
Proof.
  intros Hlen t p.
  destruct (tally_fold_invariant varName demoLookups rows (mkTally 0 0 0))
    as [Hav Hsum].
  fold (tally_rows rows varName demoLookups) in Hav, Hsum. fold t in Hav, Hsum.
  simpl in Hav, Hsum. specialize (Hav (Nat.le_refl 0)).
  split; [reflexivity|]. split; [reflexivity|]. split; [lia|].
  split; [reflexivity|].
  assert (Hden : (agree t <= denominator includeMissingInDenom t)%nat
                 /\ Z.of_nat (denominator includeMissingInDenom t) < 2 ^ 53).
  { unfold denominator. destruct includeMissingInDenom; split; lia. }
  destruct Hden as [Hle Hbig].
  subst p. unfold percentAgreeMappedPolicy. fold t. cbv zeta.
  destruct (Nat.ltb_spec 0 (denominator includeMissingInDenom t)) as [Hpos|Hz].
  - destruct (pct_in_range (agree t) (denominator includeMissingInDenom t)
                Hle Hpos Hbig) as [H0 H100].
    cbv zeta in H0, H100.
    pose proof (leb_not_nan _ _ H0) as Hnan.
    split; [rewrite Hnan; split; [done|lia]|].
    split; [by right|].
    split; by apply leb_not_ltb.
  - assert (denominator includeMissingInDenom t = 0%nat) as -> by lia.
    split; [done|]. split; [by left|]. done.
Qed.

End AgreeRange.

(** Three rows are fewer than [2^53]; their score is a third. *)
Lemma percentAgree_range_witness :
  let p :=
    @percentAgreeMappedPolicy Reference.engine Scenarios.attitude_rows
      "PV_VALUE" (fun _ => None) true in
  (PrimFloat.is_nan p = true
   \/ (PrimFloat.leb 0 p = true /\ PrimFloat.leb p 100 = true))
  /\ p = (1 / 3 * 100)%float.
Proof.
  pose proof (@percentAgree_in_range_or_nan Reference.engine
                Scenarios.attitude_rows "PV_VALUE" (fun _ => None) true
                eq_refl) as H.
  cbv zeta in H. destruct H as (_ & _ & _ & _ & _ & H & _).
  cbv zeta. split; [exact H|]. vm_compute. reflexivity.
Defined.

(** ** Row normalizer *)

Section Normalizer.
Context {rt : Runtime}.

Lemma rows_of_filter (dataPoints : list (option row)) :
  rows_of dataPoints = map normalized (List.filter keeps dataPoints).
Proof.
  induction dataPoints as [|r rest IH]; simpl; [done|].
  destruct (keeps r); simpl; by rewrite IH.
Qed.

Lemma ToString_truthy (v : jsval) : ToBoolean v = true -> ToString v <> "".
Proof.
  destruct v as [| |b|x|s]; simpl; try done.
  - by destruct b.
  - intros _. apply NumberToString_nonempty.
  - intros H Hs. subst s. done.
Qed.

Lemma normalized_well_formed (r : option row) :
  keeps r = true -> well_formed (normalized r).
Proof.
  unfold keeps. rewrite !andb_true_iff. intros [[[Hm Hx] Hy] Hc].
  exists (ToString (modelVal r)), (ToNumber (get_opt r "emb_x")),
    (ToNumber (get_opt r "emb_y")), (ToNumber (get_opt r "cluster")).
  unfold normalized.
  repeat split; try done; try (by apply ToString_truthy).
  all: rewrite ?lookup_insert_ne by done; apply lookup_insert_eq.
Qed.

Lemma normalized_other (o : row) (k : string) :
  ~ In k written -> normalized (Some o) !! k = o !! k.
Proof.
  intros Hk. unfold normalized, written in *. simpl in *.
  rewrite !lookup_insert_ne; [done|intros Heq; apply Hk; subst k; auto 10..].
Qed.

(** C8.  The normalizer is total; its output is exactly the records that
    pass the test, in order, each extended with the six coerced fields
    and otherwise untouched: a record passes iff its resolved model value
    is truthy (for a string: non-empty) and [emb_x], [emb_y] and
    [cluster] coerce to finite numbers; every output record has a
    non-empty string [model] and finite [emb_x], [emb_y], [cluster]. *)
Theorem normalizer_drops_malformed_rows (dataPoints : list (option row))
    (r : option row) (o : row) (s k : string) :
  rows_of dataPoints = map normalized (List.filter keeps dataPoints)
  /\ keeps r
     = ToBoolean (modelVal r)
       && is_finite (ToNumber (get_opt r "emb_x"))
       && is_finite (ToNumber (get_opt r "emb_y"))
       && is_finite (ToNumber (get_opt r "cluster"))
  /\ ToBoolean (JStr s) = negb (String.eqb s "")
  /\ ToBoolean JNull = false
  /\ ToBoolean JUndefined = false
  /\ Forall well_formed (rows_of dataPoints)
  /\ (if decide (In k written) then True
      else normalized (Some o) !! k = o !! k).
Proof.
  split; [apply rows_of_filter|]. split; [reflexivity|].
  split; [reflexivity|]. split; [reflexivity|]. split; [reflexivity|].
  split.
  - rewrite rows_of_filter. apply Forall_forall. intros x Hx.
    apply list_elem_of_In, in_map_iff in Hx as (r' & <- & Hr').
    apply filter_In in Hr' as [_ Hk]. by apply normalized_well_formed.
  - case_decide; [done|]. by apply normalized_other.
Qed.

End Normalizer.

(** ** Market model *)

Import MarketSimulation.

Section Market.
Context {rt : Runtime}.
#[local] Open Scope float_scope.

(** C2.  [deriveAll] computes
    [demand = base_demand * (price / base_price) ^ elasticity],
    [revenue = price * demand], [total_cost = fixed_cost + vcpu * demand],
    [profit = revenue - total_cost], [margin_pct = profit / revenue] when
    [revenue > 0] and [0] otherwise, [unit_margin = price - vcpu]; and on
    the state [{price: 50, base_price: 50, base_demand: 10000,
    elasticity: -1.2, vcpu: 20, fixed_cost: 120000}] it returns demand
    10000, revenue 500000, total cost 320000, profit 180000 and margin
    0.36, on an engine whose [Math.pow(1, -1.2)] is [1]. *)
Theorem deriveAll_formulas_and_scenario (s : MarketState) :
  Math_pow 1 (-1.2) = 1 ->
  let k := deriveAll s in
  demand k = base_demand s * Math_pow (price s / base_price s) (elasticity s)
  /\ revenue k = price s * demand k
  /\ total_cost k = fixed_cost s + vcpu s * demand k
  /\ profit k = revenue k - total_cost k
  /\ margin_pct k = (if gtb (revenue k) 0 then profit k / revenue k else 0)
  /\ unit_margin k = price s - vcpu s
  /\ deriveAll (mkState 50 50 10000 (-1.2) 20 120000)
     = mkKPIs 50 10000 500000 320000 200000 180000 0.36 30.
Proof.
  intros Hpow k. repeat (split; [reflexivity|]).
  unfold deriveAll.
  cbn [price base_price base_demand elasticity vcpu fixed_cost].
  change (50 / 50) with 1. rewrite Hpow. reflexivity.
Qed.

Lemma is_finite_not_nan (x : float) :
  is_finite x = true -> PrimFloat.is_nan x = false.
Proof.
  unfold is_finite. destruct (PrimFloat.is_nan x); [done|done].
Qed.

Lemma Math_max_not_nan (a b : float) :
  PrimFloat.is_nan a = false -> PrimFloat.is_nan b = false ->
  PrimFloat.is_nan (Math_max a b) = false.
Proof.
  intros Ha Hb. unfold Math_max. rewrite Ha, Hb. simpl.
  repeat match goal with
         | |- context [if ?c then _ else _] => destruct c
         end; done.
Qed.

(** A number that is not above a negative constant is negative. *)
Lemma not_above_negative (m : positive) (e : Z) (c y : float) :
  Prim2SF c = S754_finite true m e ->
  PrimFloat.is_nan y = false -> PrimFloat.ltb c y = false ->
  PrimFloat.ltb y 0 = true.
Proof.
  unfold PrimFloat.is_nan.
  rewrite !FloatAxioms.ltb_spec, FloatAxioms.eqb_spec. intros ->.
  change (Prim2SF 0) with (S754_zero false).
  destruct (Prim2SF y) as [sy|sy| |sy my ey]; simpl; try done.
  all: destruct sy; done.
Qed.

Lemma clamp_elasticity_negative (v : float) :
  PrimFloat.ltb (clamp v (-5) (-0.05)) 0 = true.
Proof.
  unfold clamp.
  set (x := if is_finite v then v else (-5)).
  assert (Hx : PrimFloat.is_nan x = false).
  { subst x. destruct (is_finite v) eqn:Hv; [|done].
    by apply is_finite_not_nan. }
  pose proof (Math_max_not_nan (-5) x eq_refl Hx) as Hy.
  set (y := Math_max (-5) x) in *.
  unfold Math_min. rewrite Hy.
  change (PrimFloat.is_nan (-0.05) || false) with false. cbv iota.
  destruct (PrimFloat.ltb (-0.05) y) eqn:Hlt; [done|].
  assert (Hneg : PrimFloat.ltb y 0 = true).
  { eapply not_above_negative; [|done|exact Hlt]. reflexivity. }
  destruct (PrimFloat.ltb y (-0.05)); [done|].
  change (is_neg_zero (-0.05)) with false. cbv iota. done.
Qed.

Lemma handleEdit_elasticity (state : MarketState) (field rawValue : string) :
  elasticity (handleEdit state field rawValue) = elasticity state
  \/ elasticity (handleEdit state field rawValue)
     = clamp (toNumberSafe rawValue) (-5) (-0.05).
Proof.
  unfold handleEdit.
  repeat match goal with
         | |- context [if String.eqb ?a ?b then _ else _] =>
             destruct (String.eqb a b)
         end; simpl; auto.
Qed.

Lemma handleEdit_keeps_negative (state : MarketState)
    (field rawValue : string) :
  PrimFloat.ltb (elasticity state) 0 = true ->
  PrimFloat.ltb (elasticity (handleEdit state field rawValue)) 0 = true.
Proof.
  intros H. destruct (handleEdit_elasticity state field rawValue) as [->| ->].
  - done.
  - apply clamp_elasticity_negative.
Qed.

Lemma resetScenario_keeps_negative (state : MarketState) (kind : string) :
  PrimFloat.ltb (elasticity state) 0 = true ->
  PrimFloat.ltb (elasticity (resetScenario state kind)) 0 = true.
Proof.
  intros H. unfold resetScenario.
  repeat match goal with
         | |- context [if String.eqb ?a ?b then _ else _] =>
             destruct (String.eqb a b)
         end; done.
Qed.

Lemma reachable_negative (s : MarketState) :
  reachable s -> PrimFloat.ltb (elasticity s) 0 = true.
Proof.
  induction 1 as [|s f r _ IH|s k _ IH].
  - reflexivity.
  - by apply handleEdit_keeps_negative.
  - by apply resetScenario_keeps_negative.
Qed.

(** C9.  Editing a derived KPI (demand, revenue, profit or margin_pct)
    replaces the price by the solved one (the closed-form inverse for
    demand, a bisection for the others) and leaves [base_price],
    [base_demand], [elasticity], [vcpu] and [fixed_cost] as they were;
    and the elasticity is negative in every state the page can reach:
    it is negative initially and stays negative whatever is edited or
    reset. *)
Theorem derived_edit_changes_price_only (state : MarketState)
    (field rawValue : string) :
  In field ["demand"; "revenue"; "profit"; "margin_pct"]%string ->
  let next := handleEdit state field rawValue in
  next = set_price state (solved_price state field (toNumberSafe rawValue))
  /\ base_price next = base_price state
  /\ base_demand next = base_demand state
  /\ elasticity next = elasticity state
  /\ vcpu next = vcpu state
  /\ fixed_cost next = fixed_cost state
  /\ (forall s, reachable s -> PrimFloat.ltb (elasticity s) 0 = true)
  /\ (forall s f r,
         PrimFloat.ltb (elasticity s) 0 = true ->
         PrimFloat.ltb (elasticity (handleEdit s f r)) 0 = true)
  /\ (forall s k,
         PrimFloat.ltb (elasticity s) 0 = true ->
         PrimFloat.ltb (elasticity (resetScenario s k)) 0 = true).
Proof.
  intros Hf next.
  assert (Hnext : next
            = set_price state
                (solved_price state field (toNumberSafe rawValue))).
  { subst next. unfold handleEdit, solved_price. simpl in Hf.
    destruct Hf as [<-|[<-|[<-|[<-|[]]]]]; reflexivity. }
  split; [exact Hnext|]. rewrite Hnext. cbn [set_price base_price
    base_demand elasticity vcpu fixed_cost].
  repeat (split; [reflexivity|]).
  split; [apply reachable_negative|].
  split; [apply handleEdit_keeps_negative|apply resetScenario_keeps_negative].
Qed.

End Market.

(** The reference engine has [Math.pow(1, -1.2) = 1]. *)
Lemma deriveAll_scenario_witness :
  let k := @deriveAll Reference.engine initial_state in
  demand k = 10000%float /\ revenue k = 500000%float
  /\ total_cost k = 320000%float /\ profit k = 180000%float
  /\ margin_pct k = 0.36%float.
Proof.
  pose proof (@deriveAll_formulas_and_scenario Reference.engine
                initial_state eq_refl) as H.
  cbv zeta in H. destruct H as (_ & _ & _ & _ & _ & _ & H).
  unfold initial_state. rewrite H. by repeat split.
Defined.

(** Editing the revenue of the initial state. *)
Lemma derived_edit_witness :
  let next := @handleEdit Reference.engine initial_state "revenue" "400000" in
  base_price next = base_price initial_state
  /\ base_demand next = base_demand initial_state
  /\ elasticity next = elasticity initial_state
  /\ vcpu next = vcpu initial_state
  /\ fixed_cost next = fixed_cost initial_state
  /\ PrimFloat.ltb (elasticity next) 0 = true.
Proof.
  pose proof (@derived_edit_changes_price_only Reference.engine
                initial_state "revenue" "400000"
                (or_intror (or_introl eq_refl))) as H.
  cbv zeta in H. destruct H as (_ & H1 & H2 & H3 & H4 & H5 & H6 & _).
  cbv zeta. repeat (split; [assumption|]).
  apply H6. apply reach_edit. apply reach_initial.
Defined.

(** ** Categorical summaries *)

Section Categorical.
Context {rt : Runtime}.

Lemma counts_bump_total (l : string) (cs : list (string * nat)) :
  counts_total (counts_bump l cs) = S (counts_total cs).
Proof.
  unfold counts_total. induction cs as [|[k c] cs IH]; simpl; [done|].
  destruct (String.eqb k l); simpl; [done|]. rewrite IH. lia.
Qed.

Lemma categorical_fold_invariant (codeMap : codemap) (field : string)
    (rows : list (option row)) (a : cat_acc) :
  let a' := fold_left (categorical_step codeMap field) rows a in
  (validCount a' + missingCount a'
   = validCount a + missingCount a + length rows)%nat
  /\ (counts_total (counts a) = validCount a ->
      counts_total (counts a') = validCount a').
Proof.
  revert a. induction rows as [|r rows IH]; intros a; simpl.
  - split; [lia|done].
  - destruct (IH (categorical_step codeMap field a r)) as [H1 H2].
    split.
    + rewrite H1. unfold categorical_step.
      destruct (present _); simpl; lia.
    + intros Ha. apply H2. unfold categorical_step.
      destruct (present _); simpl; [|done].
      rewrite counts_bump_total. by rewrite Ha.
Qed.

Lemma insert_by_count_total (x : item) (l : list item) :
  items_total (insert_by_count x l) = (i_count x + items_total l)%nat.
Proof.
  unfold items_total. induction l as [|y l IH]; simpl; [done|].
  destruct (i_count x <? i_count y)%nat; simpl; [|done]. rewrite IH. lia.
Qed.

Lemma sort_by_count_total (l : list item) :
  items_total (sort_by_count l) = items_total l.
Proof.
  induction l as [|x l IH]; simpl; [done|].
  unfold sort_by_count in *. simpl. rewrite insert_by_count_total, IH.
  done.
Qed.



Lemma items_total_app (l1 l2 : list item) :
  items_total (l1 ++ l2) = (items_total l1 + items_total l2)%nat.
Proof. unfold items_total. by rewrite map_app, sum_list_with_app. Qed.

Lemma items_total_map (f : string * nat -> item) (cs : list (string * nat)) :
  (forall p, i_count (f p) = snd p) ->
  items_total (map f cs) = counts_total cs.
Proof.
  intros Hf. unfold items_total, counts_total.
  induction cs as [|p cs IH]; simpl; [done|]. by rewrite Hf, IH.
Qed.


Lemma raw_items_total (a : cat_acc) :
  counts_total (counts a) = validCount a ->
  items_total (raw_items a) = (validCount a + missingCount a)%nat.
Proof.
  intros Ha. unfold raw_items.
  rewrite items_total_app, sort_by_count_total, items_total_map, Ha.
  - destruct (0 <? missingCount a)%nat eqn:Hm; unfold items_total; simpl.
    + lia.
    + apply Nat.ltb_ge in Hm. lia.
  - by intros [l c].
Qed.

Lemma add_to_last_counts (diff : float) (items : list item) :
  map i_count (add_to_last diff items) = map i_count items
  /\ map i_label (add_to_last diff items) = map i_label items.
Proof.
  induction items as [|x [|y items] IH]; simpl; [done|done|].
  destruct IH as [IH1 IH2]. simpl in *. by rewrite IH1, IH2.
Qed.

Lemma corrected_items_counts (items : list item) :
  map i_count (corrected_items items) = map i_count items
  /\ map i_label (corrected_items items) = map i_label items.
Proof.
  unfold corrected_items. destruct (needs_correction items); [|done].
  apply add_to_last_counts.
Qed.


End Categorical.



(** ** The demand law and its inverse, in exact arithmetic *)

Section RoundTrip.
#[local] Open Scope R_scope.








End RoundTrip.

(** * Further properties

    What the code shows beyond the specification: the bounds the market
    page keeps, the chart helpers, the colours, the selection, the code
    tables, the groups of rows, the attitudes chart and the shares of
    the states. *)

(** ** The order of doubles *)

Section FloatOrder.

Lemma is_nan_SF (x : float) :
  PrimFloat.is_nan x = false <-> Prim2SF x <> S754_nan.
Proof.
  unfold PrimFloat.is_nan. rewrite FloatAxioms.eqb_spec. unfold SFeqb.
  destruct (Prim2SF x) as [s|s| |s m e]; simpl.
  - split; [discriminate|done].
  - split; [discriminate|by destruct s].
  - split; [discriminate|done].
  - rewrite Z.compare_refl, Pos.compare_cont_refl.
    split; [discriminate|by destruct s].
Qed.

Lemma SFcompare_None (x y : spec_float) :
  SFcompare x y = None <-> x = S754_nan \/ y = S754_nan.
Proof.
  destruct x as [sx|sx| |sx mx ex], y as [sy|sy| |sy my ey]; simpl;
    split; intros H; try discriminate; auto;
    destruct H as [H|H]; discriminate.
Qed.

Lemma SFcompare_refl (x : spec_float) :
  x <> S754_nan -> SFcompare x x = Some Eq.
Proof.
  destruct x as [s|s| |s m e]; simpl; try done.
  - by destruct s.
  - rewrite Z.compare_refl, Pos.compare_cont_refl. by destruct s.
Qed.

(** The order of doubles is transitive: a chain of [<] and [=] steps that
    has a strict step is strict. *)
Lemma SFcompare_trans (x y z : spec_float) (c1 c2 : comparison) :
  SFcompare x y = Some c1 -> SFcompare y z = Some c2 ->
  c1 <> Gt -> c2 <> Gt ->
  SFcompare x z = Some (match c1 with Eq => c2 | _ => Lt end).
Proof.
  destruct x as [sx|sx| |sx mx ex], y as [sy|sy| |sy my ey],
    z as [sz|sz| |sz mz ez]; simpl; intros H1 H2 Hc1 Hc2;
    try discriminate;
    repeat match goal with
           | s : bool |- _ => destruct s
           end;
    simpl in *;
    try (injection H1 as <-); try (injection H2 as <-);
    try done.
  all: try congruence.
  all: change (PosDef.Pos.compare_cont Eq ?a ?b) with (Pos.compare a b) in *.
  all: repeat match goal with
         | H : context [(?a ?= ?b)%Z] |- _ => destruct (Z.compare_spec a b)
         | |- context [(?a ?= ?b)%Z] => destruct (Z.compare_spec a b)
         | H : context [Pos.compare ?a ?b] |- _ =>
             destruct (Pos.compare_spec a b)
         | |- context [Pos.compare ?a ?b] => destruct (Pos.compare_spec a b)
         end; simpl in *; try lia; try done; subst; try lia.
Qed.


Lemma SFcompare_Some (x y : spec_float) :
  x <> S754_nan -> y <> S754_nan -> exists c, SFcompare x y = Some c.
Proof.
  intros Hx Hy. destruct (SFcompare x y) as [c|] eqn:H; [by exists c|].
  apply SFcompare_None in H as [H|H]; done.
Qed.

Lemma ltb_trans (x y z : float) :
  PrimFloat.ltb x y = true -> PrimFloat.ltb y z = true ->
  PrimFloat.ltb x z = true.
Proof.
  rewrite !FloatAxioms.ltb_spec. unfold SFltb.
  destruct (SFcompare (Prim2SF x) (Prim2SF y)) as [[| |]|] eqn:H1; try done.
  destruct (SFcompare (Prim2SF y) (Prim2SF z)) as [[| |]|] eqn:H2; try done.
  by rewrite (SFcompare_trans _ _ _ _ _ H1 H2).
Qed.

Lemma leb_trans (x y z : float) :
  PrimFloat.leb x y = true -> PrimFloat.leb y z = true ->
  PrimFloat.leb x z = true.
Proof.
  rewrite !FloatAxioms.leb_spec. unfold SFleb.
  destruct (SFcompare (Prim2SF x) (Prim2SF y)) as [[| |]|] eqn:H1; try done;
    destruct (SFcompare (Prim2SF y) (Prim2SF z)) as [[| |]|] eqn:H2;
    try done; by rewrite (SFcompare_trans _ _ _ _ _ H1 H2).
Qed.

Lemma ltb_leb (x y : float) :
  PrimFloat.ltb x y = true -> PrimFloat.leb x y = true.
Proof.
  rewrite FloatAxioms.ltb_spec, FloatAxioms.leb_spec. unfold SFltb, SFleb.
  by destruct (SFcompare (Prim2SF x) (Prim2SF y)) as [[| |]|].
Qed.

Lemma leb_refl (x : float) :
  PrimFloat.is_nan x = false -> PrimFloat.leb x x = true.
Proof.
  rewrite is_nan_SF, FloatAxioms.leb_spec. unfold SFleb. intros H.
  by rewrite SFcompare_refl.
Qed.

(** Of two numbers, one is below the other or they are equal. *)
Lemma not_ltb_leb (x y : float) :
  PrimFloat.is_nan x = false -> PrimFloat.is_nan y = false ->
  PrimFloat.ltb x y = false -> PrimFloat.leb y x = true.
Proof.
  rewrite !is_nan_SF, FloatAxioms.ltb_spec, FloatAxioms.leb_spec.
  unfold SFltb, SFleb. intros Hx Hy.
  rewrite (SFcompare_antisym (Prim2SF x) (Prim2SF y)).
  destruct (SFcompare_Some _ _ Hx Hy) as [c ->]. by destruct c.
Qed.

Lemma leb_antisym (x y : float) :
  PrimFloat.leb x y = true -> PrimFloat.leb y x = true ->
  PrimFloat.eqb x y = true.
Proof.
  rewrite !FloatAxioms.leb_spec, FloatAxioms.eqb_spec. unfold SFleb, SFeqb.
  rewrite (SFcompare_antisym (Prim2SF x) (Prim2SF y)).
  by destruct (SFcompare (Prim2SF x) (Prim2SF y)) as [[| |]|].
Qed.

Lemma leb_is_nan_l (x y : float) :
  PrimFloat.leb x y = true -> PrimFloat.is_nan x = false.
Proof.
  intros H. apply is_nan_SF. intros Hx.
  rewrite FloatAxioms.leb_spec in H. unfold SFleb in H. by rewrite Hx in H.
Qed.

Lemma Math_max_spec (a b : float) :
  PrimFloat.is_nan a = false -> PrimFloat.is_nan b = false ->
  (Math_max a b = a \/ Math_max a b = b)
  /\ PrimFloat.leb a (Math_max a b) = true
  /\ PrimFloat.leb b (Math_max a b) = true.
Proof.
  intros Ha Hb. unfold Math_max. rewrite Ha, Hb. simpl.
  destruct (PrimFloat.ltb a b) eqn:Hab.
  { split; [by right|]. split; [by apply ltb_leb|by apply leb_refl]. }
  destruct (PrimFloat.ltb b a) eqn:Hba.
  { split; [by left|]. split; [by apply leb_refl|by apply ltb_leb]. }
  pose proof (not_ltb_leb a b Ha Hb Hab).
  pose proof (not_ltb_leb b a Hb Ha Hba).
  destruct (is_neg_zero a).
  - split; [by right|]. split; [done|by apply leb_refl].
  - split; [by left|]. split; [by apply leb_refl|done].
Qed.

Lemma Math_min_spec (a b : float) :
  PrimFloat.is_nan a = false -> PrimFloat.is_nan b = false ->
  (Math_min a b = a \/ Math_min a b = b)
  /\ PrimFloat.leb (Math_min a b) a = true
  /\ PrimFloat.leb (Math_min a b) b = true.
Proof.
  intros Ha Hb. unfold Math_min. rewrite Ha, Hb. simpl.
  destruct (PrimFloat.ltb a b) eqn:Hab.
  { split; [by left|]. split; [by apply leb_refl|by apply ltb_leb]. }
  destruct (PrimFloat.ltb b a) eqn:Hba.
  { split; [by right|]. split; [by apply ltb_leb|by apply leb_refl]. }
  pose proof (not_ltb_leb a b Ha Hb Hab).
  pose proof (not_ltb_leb b a Hb Ha Hba).
  destruct (is_neg_zero a).
  - split; [by left|]. split; [by apply leb_refl|done].
  - split; [by right|]. split; [done|by apply leb_refl].
Qed.

(** What [clamp] hands to [Math.max]: a number. *)
Lemma clamp_arg_not_nan (v lo : float) :
  PrimFloat.is_nan lo = false ->
  PrimFloat.is_nan (if is_finite v then v else lo) = false.
Proof.
  intros Hlo. destruct (is_finite v) eqn:Hv; [|done].
  by apply is_finite_not_nan.
Qed.

Lemma clamp_between (v lo hi : float) :
  PrimFloat.leb lo hi = true -> between lo hi (clamp v lo hi).
Proof.
  intros Hle.
  pose proof (leb_is_nan_l _ _ Hle) as Hlo.
  pose proof (leb_not_nan _ _ Hle) as Hhi.
  unfold clamp, between.
  pose proof (clamp_arg_not_nan v lo Hlo) as Hx.
  set (x := if is_finite v then v else lo) in *.
  destruct (Math_max_spec lo x Hlo Hx) as (_ & Hy1 & _).
  pose proof (leb_not_nan _ _ Hy1) as Hy.
  set (y := Math_max lo x) in *.
  destruct (Math_min_spec hi y Hhi Hy) as ([-> | ->] & Hz1 & Hz2).
  - split; [done|by apply leb_refl].
  - split; [done|]. done.
Qed.

End FloatOrder.

(** ** Bounds of the market model *)

Section MarketBounds.
Context {rt : Runtime}.
#[local] Open Scope float_scope.

(** [Math.min(hi, Math.max(lo, x))] for a number [x]. *)
Lemma min_max_cases (x lo hi : float) :
  PrimFloat.leb lo hi = true -> PrimFloat.is_nan x = false ->
  let z := Math_min hi (Math_max lo x) in
  (PrimFloat.ltb x lo = true -> PrimFloat.eqb z lo = true)
  /\ (between lo hi x -> PrimFloat.eqb z x = true)
  /\ (PrimFloat.ltb hi x = true -> PrimFloat.eqb z hi = true).
Proof.
  intros Hle Hx z.
  pose proof (leb_is_nan_l _ _ Hle) as Hlo.
  pose proof (leb_not_nan _ _ Hle) as Hhi.
  destruct (Math_max_spec lo x Hlo Hx) as (Hy & Hy1 & Hy2).
  pose proof (leb_not_nan _ _ Hy1) as Hyn.
  destruct (Math_min_spec hi (Math_max lo x) Hhi Hyn) as (Hz & Hz1 & Hz2).
  fold z in Hz, Hz1, Hz2.
  assert (Hloz : PrimFloat.leb lo z = true).
  { destruct Hz as [-> | ->]; done. }
  split; [|split].
  - intros Hlt. apply leb_antisym; [|done].
    destruct Hy as [Hy|Hy]; rewrite Hy in *; [done|].
    apply leb_not_ltb in Hy1. congruence.
  - intros [H1 H2]. apply leb_antisym.
    + destruct Hy as [Hy|Hy]; rewrite Hy in *; [|done].
      by apply (leb_trans _ lo).
    + destruct Hz as [-> | ->]; done.
  - intros Hlt. apply leb_antisym; [done|].
    destruct Hz as [-> | ->]; [by apply leb_refl|].
    apply (leb_trans _ x); [by apply ltb_leb|done].
Qed.


(** X1.  With [lo <= hi], [clamp] returns a number between the bounds:
    the value itself when it is finite and in range, the nearer bound
    when it is finite and out of range, and the lower bound when it is
    NaN or infinite, [+Infinity] included.  Equalities are those of
    [===]. *)
Theorem clamp_value_or_bound (v lo hi : float) :
  PrimFloat.leb lo hi = true ->
  between lo hi (clamp v lo hi)
  /\ (is_finite v = false -> PrimFloat.eqb (clamp v lo hi) lo = true)
  /\ (is_finite v = true ->
      (PrimFloat.ltb v lo = true -> PrimFloat.eqb (clamp v lo hi) lo = true)
      /\ (between lo hi v -> PrimFloat.eqb (clamp v lo hi) v = true)
      /\ (PrimFloat.ltb hi v = true
          -> PrimFloat.eqb (clamp v lo hi) hi = true)).
Proof.
  intros Hle. split; [by apply clamp_between|].
  pose proof (leb_is_nan_l _ _ Hle) as Hlo.
  unfold clamp. split.
  - intros ->.
    destruct (min_max_cases lo lo hi Hle Hlo) as (_ & H & _).
    apply H. split; [by apply leb_refl|done].
  - intros Hv. rewrite Hv.
    exact (min_max_cases v lo hi Hle (is_finite_not_nan v Hv)).
Qed.

Lemma bisect_loop_between (iters : nat) (f : float -> float)
    (a b fa fb : float) :
  between 0.01 1e6 (bisect_loop iters f a b fa fb).
Proof.
  revert a b fa fb. induction iters as [|n IH]; intros a b fa fb; simpl.
  - by apply clamp_between.
  - destruct (PrimFloat.ltb _ 1e-6); [by apply clamp_between|].
    destruct (PrimFloat.ltb _ 0); apply IH.
Qed.

Lemma bisectPrice_between (f : float -> float) (lo hi : float)
    (iters : nat) :
  between 0.01 1e6 (bisectPrice f lo hi iters).
Proof.
  unfold bisectPrice.
  destruct (expand_bracket 10 f lo hi (f lo) (f hi)) as [[[a b] fa] fb].
  destruct (gtb (fa * fb) 0); [by apply clamp_between|].
  apply bisect_loop_between.
Qed.

Lemma invertElasticityForPrice_between (d bd bp e : float) :
  between 0.01 1e6 (invertElasticityForPrice d bd bp e).
Proof. unfold invertElasticityForPrice. by apply clamp_between. Qed.

(** X2.  Every solver returns a price between 0.01 and 1e6, whatever the
    target, the state and the function searched: never NaN and never
    outside the range of the price input. *)
Theorem solvers_return_bounded_price (f : float -> float) (lo hi : float)
    (iters : nat) (target bd bp e vc fc : float) :
  between 0.01 1e6 (bisectPrice f lo hi iters)
  /\ between 0.01 1e6 (invertElasticityForPrice target bd bp e)
  /\ between 0.01 1e6 (solvePriceForRevenue target bd bp e)
  /\ between 0.01 1e6 (solvePriceForProfit target bd bp e vc fc)
  /\ between 0.01 1e6 (solvePriceForMargin target bd bp e vc fc).
Proof.
  split; [apply bisectPrice_between|].
  split; [apply invertElasticityForPrice_between|].
  repeat split; apply bisectPrice_between.
Qed.

Lemma handleEdit_in_bounds (s : MarketState) (field rawValue : string) :
  in_bounds s -> in_bounds (handleEdit s field rawValue).
Proof.
  intros (Hp & Hbp & Hbd & He & Hv & Hf). unfold handleEdit, in_bounds.
  repeat match goal with
         | |- context [if String.eqb ?a ?b then _ else _] =>
             destruct (String.eqb a b)
         end;
    cbn [set_price price base_price base_demand elasticity vcpu fixed_cost];
    repeat match goal with |- _ /\ _ => split end; try assumption;
    try (by apply clamp_between);
    try apply invertElasticityForPrice_between;
    apply bisectPrice_between.
Qed.

Lemma resetScenario_in_bounds (s : MarketState) (kind : string) :
  in_bounds s -> in_bounds (resetScenario s kind).
Proof.
  intros H. unfold resetScenario.
  repeat match goal with
         | |- context [if String.eqb ?a ?b then _ else _] =>
             destruct (String.eqb a b)
         end; try assumption; by repeat split.
Qed.

(** X3.  In every state the page can reach, each input lies within the
    bounds its editor clamps to: price and base price in [[0.01, 1e6]],
    base demand in [[1, 1e9]], elasticity in [[-5, -0.05]], unit cost in
    [[0, 1e6]] and fixed cost in [[0, 1e12]]. *)
Theorem reachable_states_in_bounds (s : MarketState) :
  reachable s -> in_bounds s.
Proof.
  induction 1 as [|s f r _ IH|s k _ IH].
  - by repeat split.
  - by apply handleEdit_in_bounds.
  - by apply resetScenario_in_bounds.
Qed.

(** X4.  An edit whose text does not parse to a finite number acts as
    the edit of 0: it sets the price and the base price to 0.01, the
    elasticity to -0.05, the base demand to 1, and the costs to 0. *)
Theorem unparsable_edit_sets_bound (s : MarketState) (rawValue : string) :
  is_finite (parseFloat rawValue) = false ->
  toNumberSafe rawValue = 0
  /\ handleEdit s "price" rawValue = set_price s 0.01
  /\ elasticity (handleEdit s "elasticity" rawValue) = -0.05
  /\ base_price (handleEdit s "base_price" rawValue) = 0.01
  /\ base_demand (handleEdit s "base_demand" rawValue) = 1
  /\ vcpu (handleEdit s "vcpu" rawValue) = 0
  /\ fixed_cost (handleEdit s "fixed_cost" rawValue) = 0.
Proof.
  intros H.
  assert (H0 : toNumberSafe rawValue = 0).
  { unfold toNumberSafe. by rewrite H. }
  split; [done|]. unfold handleEdit. rewrite H0. by repeat split.
Qed.

(** X5.  [buildSeries] returns 100 samples, and each carries the revenue
    and the profit that [deriveAll] computes for the state at the price
    of the sample. *)
Theorem buildSeries_on_the_curves (s : MarketState) :
  length (buildSeries s) = 100%nat
  /\ Forall (fun pt =>
               let k := deriveAll (set_price s (p_price pt)) in
               p_revenue pt = revenue k /\ p_profit pt = profit k)
       (buildSeries s).
Proof.
  unfold buildSeries. cbv zeta. split.
  - by rewrite length_map, length_seq.
  - apply Forall_map. apply Forall_forall. intros i _. done.
Qed.

End MarketBounds.

(** [clamp(Infinity, 0.01, 1e6)] is [0.01]. *)
Lemma clamp_witness :
  between 0.01 1e6 (clamp PrimFloat.infinity 0.01 1e6)
  /\ PrimFloat.eqb (clamp PrimFloat.infinity 0.01 1e6) 0.01 = true.
Proof.
  destruct (clamp_value_or_bound PrimFloat.infinity 0.01 1e6 eq_refl)
    as (H1 & H2 & _).
  split; [exact H1|]. apply H2. reflexivity.
Defined.

(** A preset followed by an edit of the profit. *)
Lemma reachable_bounds_witness :
  in_bounds
    (@handleEdit Reference.engine
       (resetScenario initial_state "Premium Pricing") "profit" "250000").
Proof.
  apply (@reachable_states_in_bounds Reference.engine).
  apply reach_edit, reach_reset, reach_initial.
Defined.

(** The texts [abc] and the empty text do not parse. *)
Lemma unparsable_edit_witness :
  @handleEdit Reference.engine initial_state "price" "abc"
  = set_price initial_state 0.01
  /\ elasticity (@handleEdit Reference.engine initial_state "elasticity" "")
     = (-0.05)%float.
Proof.
  split.
  - apply (@unparsable_edit_sets_bound Reference.engine initial_state "abc").
    vm_compute. reflexivity.
  - apply (@unparsable_edit_sets_bound Reference.engine initial_state "").
    vm_compute. reflexivity.
Defined.

(** ** The nearest sample *)

Section Nearest.
#[local] Open Scope float_scope.

Lemma ltb_asym (x y : float) :
  PrimFloat.ltb x y = true -> PrimFloat.ltb y x = false.
Proof. intros H. by apply leb_not_ltb, ltb_leb. Qed.

Lemma ltb_irrefl (x : float) : PrimFloat.ltb x x = false.
Proof.
  destruct (PrimFloat.ltb x x) eqn:H; [|done].
  pose proof (ltb_asym x x H). congruence.
Qed.

Lemma yAt_loop_spec (xPrice : float) (rest : list point) (best : point) :
  let dist p := PrimFloat.abs (xPrice - p_price p) in
  let r := yAt_loop rest xPrice best (dist best) in
  (r = best \/ (In r rest /\ PrimFloat.ltb (dist r) (dist best) = true))
  /\ Forall (fun p => PrimFloat.ltb (dist p) (dist r) = false) rest.
Proof.
  intros dist. revert best.
  induction rest as [|p rest IH]; intros best; simpl.
  - split; [by left|constructor].
  - fold (dist p).
    destruct (PrimFloat.ltb (dist p) (dist best)) eqn:Hlt.
    + destruct (IH p) as [[Hr|[Hin Hr]] Hall].
      * rewrite Hr in *. split; [right; split; [by left|done]|].
        constructor; [apply ltb_irrefl|done].
      * split.
        { right. split; [by right|]. by apply (ltb_trans _ (dist p)). }
        constructor; [by apply ltb_asym|done].
    + destruct (IH best) as [[Hr|[Hin Hr]] Hall].
      * rewrite Hr in *. split; [by left|]. constructor; [exact Hlt|exact Hall].
      * split; [right; split; [by right|done]|].
        constructor; [|done].
        set (r := yAt_loop rest xPrice best (dist best)) in *.
        destruct (PrimFloat.ltb (dist p) (dist r)) eqn:Hp; [|done].
        pose proof (ltb_trans _ _ _ Hp Hr). congruence.
Qed.

(** X6.  [yAt] reads the sample nearest in price to [xPrice]: a sample
    of the series than which no sample is strictly nearer; on an empty
    series it throws. *)
Theorem yAt_reads_a_nearest_sample (series : list point) (xPrice : float)
    (key : series_key) :
  let dist p := PrimFloat.abs (xPrice - p_price p) in
  match yAt_best series xPrice with
  | None => series = [] /\ yAt series xPrice key = None
  | Some best =>
      yAt series xPrice key = Some (point_get best key)
      /\ In best series
      /\ Forall (fun p => PrimFloat.ltb (dist p) (dist best) = false) series
  end.
Proof.
  intros dist. unfold yAt. destruct series as [|p0 rest]; simpl; [done|].
  split; [done|].
  destruct (yAt_loop_spec xPrice rest p0) as [[Hr|[Hin Hr]] Hall];
    fold dist in Hr, Hall |- *.
  - rewrite Hr in *. split; [by left|]. constructor; [apply ltb_irrefl|done].
  - split; [by right|]. constructor; [by apply ltb_asym|done].
Qed.

End Nearest.

(** ** Colours *)

Section Colours.

Lemma ToInt32_range (z : Z) : - 2 ^ 31 <= ToInt32 z < 2 ^ 31.
Proof.
  unfold ToInt32.
  pose proof (Z.mod_pos_bound (z + 2 ^ 31) (2 ^ 32) eq_refl). lia.
Qed.

(** [ToInt32] depends on its argument modulo [2^32] only. *)
Lemma ToInt32_congr (a b : Z) :
  a mod 2 ^ 32 = b mod 2 ^ 32 -> ToInt32 a = ToInt32 b.
Proof.
  intros H. unfold ToInt32. f_equal.
  rewrite (Z.add_mod a), (Z.add_mod b), H by done. done.
Qed.

Lemma ToInt32_mod (z : Z) : ToInt32 z mod 2 ^ 32 = z mod 2 ^ 32.
Proof.
  unfold ToInt32.
  rewrite Zminus_mod, Z.mod_mod, <- Zminus_mod by done.
  f_equal. lia.
Qed.

Lemma hash_step_poly (h h' : Z) (c : ascii) :
  h mod 2 ^ 32 = h' mod 2 ^ 32 ->
  hash_step h c mod 2 ^ 32 = (31 * h' + Z.of_N (N_of_ascii c)) mod 2 ^ 32.
Proof.
  intros H. unfold hash_step. rewrite ToInt32_mod.
  set (n := Z.of_N (N_of_ascii c)).
  rewrite Z.add_mod, Zminus_mod, ToInt32_mod by done.
  rewrite <- Zminus_mod, <- Z.add_mod by done.
  replace (h * 2 ^ 5 - h + n) with (31 * h + n) by lia.
  rewrite Z.add_mod, Z.mul_mod, H, <- Z.mul_mod, <- Z.add_mod by done.
  done.
Qed.

Lemma hash_loop_poly (s : string) (h h' : Z) :
  h mod 2 ^ 32 = h' mod 2 ^ 32 ->
  hash_loop s h mod 2 ^ 32 = poly31 s h' mod 2 ^ 32.
Proof.
  revert h h'. induction s as [|c s IH]; intros h h' H; simpl; [done|].
  apply IH. by apply hash_step_poly.
Qed.

Lemma hash_loop_int32 (s : string) (h : Z) :
  - 2 ^ 31 <= h < 2 ^ 31 -> - 2 ^ 31 <= hash_loop s h < 2 ^ 31.
Proof.
  revert h. induction s as [|c s IH]; intros h H; simpl; [done|].
  apply IH. apply ToInt32_range.
Qed.

Lemma ToInt32_id (z : Z) : - 2 ^ 31 <= z < 2 ^ 31 -> ToInt32 z = z.
Proof.
  intros H. unfold ToInt32. rewrite Z.mod_small by lia. lia.
Qed.

Lemma nth_Z_palette (i : Z) :
  0 <= i < 15 -> exists c, nth_Z SERIES_COLORS i = Some c /\ In c SERIES_COLORS.
Proof.
  intros H. unfold nth_Z. destruct (Z.ltb_spec i 0); [lia|].
  destruct (SERIES_COLORS !! Z.to_nat i) as [c|] eqn:Hc.
  - exists c. split; [done|]. apply list_elem_of_In.
    by eapply list_elem_of_lookup_2.
  - apply lookup_ge_None in Hc. simpl in Hc. lia.
Qed.

(** X7.  [hashStr] is the hash with multiplier 31 of the code units,
    reduced to a signed integer of 32 bits, in absolute value: between 0
    and [2^31] included; and every model is given one of the fifteen
    colours. *)
Theorem hashStr_is_polynomial_hash (s : string) :
  hashStr s = Z.abs (ToInt32 (poly31 s 0))
  /\ 0 <= hashStr s <= 2 ^ 31
  /\ exists c, modelColor s = Some c /\ In c SERIES_COLORS.
Proof.
  pose proof (hash_loop_int32 s 0 ltac:(lia)) as Hr.
  assert (H : hash_loop s 0 = ToInt32 (poly31 s 0)).
  { rewrite <- (ToInt32_id (hash_loop s 0)) by done.
    apply ToInt32_congr. by apply hash_loop_poly. }
  unfold hashStr. split; [by rewrite H|]. split; [lia|].
  unfold modelColor. apply nth_Z_palette.
  change (Z.of_nat (length SERIES_COLORS)) with 15.
  apply Z.rem_bound_pos; [unfold hashStr|]; lia.
Qed.

(** X8.  For an integer cluster id [k >= -14], [clusterColor] is the
    colour of index [(k - 1) mod 15] of the palette, the four fixed
    colours included; below -14 it is [undefined] unless 15 divides
    [k - 1], where it is the first colour.  The id is of magnitude at
    most [2^52], where the arithmetic of the code, on doubles, is that
    of the integers. *)
Theorem clusterColor_cycles_through_palette (k : Z) :
  Z.abs k <= 2 ^ 52 ->
  clusterColor k
  = if decide (-14 <= k) then SERIES_COLORS !! Z.to_nat ((k - 1) mod 15)
    else if decide ((k - 1) mod 15 = 0) then SERIES_COLORS !! 0%nat
         else None.
Proof.
  intros _. unfold clusterColor.
  change (Z.of_nat (length SERIES_COLORS)) with 15.
  destruct (FIXED_CLUSTER_COLORS k) as [c|] eqn:Hf.
  - unfold FIXED_CLUSTER_COLORS in Hf.
    repeat match type of Hf with
           | (if (?a =? ?b) then _ else _) = _ =>
               destruct (Z.eqb_spec a b); [subst k; by injection Hf as <-|]
           end.
    done.
  - case_decide as Hk.
    + rewrite Z.rem_mod_nonneg by lia.
      replace ((k - 1 + 15) mod 15) with ((k - 1) mod 15).
      2:{ rewrite <- (Z.mod_add (k - 1) 1 15) by lia. f_equal; lia. }
      unfold nth_Z.
      pose proof (Z.mod_pos_bound (k - 1) 15 eq_refl).
      destruct (Z.ltb_spec ((k - 1) mod 15) 0); first [lia|done].
    + assert (Hm : (k - 1) mod 15 = (k - 1 + 15) mod 15).
      { rewrite <- (Z.mod_add (k - 1) 1 15) by lia. f_equal; lia. }
      pose proof (Z.rem_bound_pos_neg (k - 1 + 15) 15 ltac:(lia) ltac:(lia)).
      case_decide as Hd.
      * rewrite Hm in Hd. apply Z.mod_divide in Hd; [|lia].
        apply Z.rem_divide in Hd; [|lia]. by rewrite Hd.
      * unfold nth_Z.
        destruct (Z.ltb_spec (Z.rem (k - 1 + 15) 15) 0); [done|].
        assert (Hz : Z.rem (k - 1 + 15) 15 = 0) by lia.
        exfalso. apply Hd. rewrite Hm. apply Z.mod_divide; [lia|].
        apply Z.rem_divide; [lia|done].
Qed.

End Colours.

(** The clusters 7, 16 and -16: the seventh colour, the first again, and
    none. *)
Lemma clusterColor_witness :
  clusterColor 7 = Some "#E377C2"
  /\ clusterColor 16 = Some "#1F77B4"
  /\ clusterColor (-16) = None.
Proof.
  split; [|split].
  - apply (clusterColor_cycles_through_palette 7). vm_compute. discriminate.
  - apply (clusterColor_cycles_through_palette 16). vm_compute. discriminate.
  - apply (clusterColor_cycles_through_palette (-16)).
    vm_compute. discriminate.
Defined.

Section Hex.

Lemma is_hex_digit_In (c : ascii) : is_hex_digit c = true -> In c hex_chars.
Proof.
  destruct c as [[] [] [] [] [] [] [] []]; vm_compute; intros H;
    first [discriminate H | tauto].
Qed.

Lemma pair_round_trip_check :
  forallb (fun a =>
    forallb (fun b =>
      String.eqb
        (to_hex2 (Math_round (parseInt16 (String a (String b EmptyString)))))
        (String (lower_char a) (String (lower_char b) EmptyString))
      && existsb (PrimFloat.Leibniz.eqb
                    (parseInt16 (String a (String b EmptyString)))) channels)
      hex_chars) hex_chars = true.
Proof. vm_compute. reflexivity. Qed.

Lemma pair_round_trip (a b : ascii) :
  is_hex_digit a = true -> is_hex_digit b = true ->
  to_hex2 (Math_round (parseInt16 (String a (String b EmptyString))))
  = String (lower_char a) (String (lower_char b) EmptyString)
  /\ In (parseInt16 (String a (String b EmptyString))) channels.
Proof.
  intros Ha Hb. apply is_hex_digit_In in Ha, Hb.
  pose proof pair_round_trip_check as H.
  rewrite forallb_forall in H. specialize (H a Ha).
  rewrite forallb_forall in H. specialize (H b Hb).
  apply andb_true_iff in H as [H1 H2].
  apply String.eqb_eq in H1. split; [done|].
  apply existsb_exists in H2 as (x & Hx & Heq).
  apply FloatAxioms.Leibniz.eqb_spec in Heq. by rewrite Heq.
Qed.

Lemma channel_round_trip_check :
  forallb (fun x =>
    let s := to_hex2 (Math_round x) in
    match s with
    | String a (String b EmptyString) =>
        is_hex_digit a && is_hex_digit b
        && PrimFloat.Leibniz.eqb (parseInt16 s) x
    | _ => false
    end) channels = true.
Proof. vm_compute. reflexivity. Qed.

Lemma channel_round_trip (x : float) :
  In x channels ->
  exists a b, to_hex2 (Math_round x) = String a (String b EmptyString)
    /\ is_hex_digit a = true /\ is_hex_digit b = true
    /\ parseInt16 (String a (String b EmptyString)) = x.
Proof.
  intros Hx. pose proof channel_round_trip_check as H.
  rewrite forallb_forall in H. specialize (H x Hx). cbv zeta in H.
  destruct (to_hex2 (Math_round x)) as [|a [|b [|c s]]]; try done.
  exists a, b. apply andb_true_iff in H as [H H3].
  apply andb_true_iff in H as [H1 H2].
  apply FloatAxioms.Leibniz.eqb_spec in H3. done.
Qed.


Lemma In_channels (n : nat) : (n < 256)%nat -> In (of_nat n) channels.
Proof.
  intros H. unfold channels. apply in_map_iff. exists n. split; [done|].
  apply in_seq. lia.
Qed.

Lemma hexToRgb_six (a1 a2 a3 a4 a5 a6 : ascii) :
  hexToRgb
    (String "#" (String a1 (String a2 (String a3 (String a4 (String a5
       (String a6 EmptyString)))))))
  = mkRgb (parseInt16 (String a1 (String a2 EmptyString)))
      (parseInt16 (String a3 (String a4 EmptyString)))
      (parseInt16 (String a5 (String a6 EmptyString))).
Proof. reflexivity. Qed.

Lemma length_six (d : string) :
  String.length d = 6%nat ->
  exists a1 a2 a3 a4 a5 a6,
    d = String a1 (String a2 (String a3 (String a4 (String a5
          (String a6 EmptyString))))).
Proof.
  destruct d as [|a1 [|a2 [|a3 [|a4 [|a5 [|a6 [|a7 d]]]]]]]; try done.
  intros _. by exists a1, a2, a3, a4, a5, a6.
Qed.

Lemma hex_colour_digits (h : string) :
  hex_colour h = true ->
  exists a1 a2 a3 a4 a5 a6,
    (is_hex_digit a1 = true /\ is_hex_digit a2 = true
     /\ is_hex_digit a3 = true /\ is_hex_digit a4 = true
     /\ is_hex_digit a5 = true /\ is_hex_digit a6 = true)
    /\ expand_hex (remove_first "#" h)
       = String a1 (String a2 (String a3 (String a4 (String a5
           (String a6 EmptyString)))))
    /\ hexToRgb h
       = mkRgb (parseInt16 (String a1 (String a2 EmptyString)))
           (parseInt16 (String a3 (String a4 EmptyString)))
           (parseInt16 (String a5 (String a6 EmptyString))).
Proof.
  destruct h as [|c d]; [done|]. simpl.
  destruct (Ascii.eqb_spec c "#") as [->|Hc].
  2:{ destruct c as [[] [] [] [] [] [] [] []]; done. }
  cbn. intros H. apply andb_true_iff in H as [Hl Hd].
  apply orb_true_iff in Hl as [Hl|Hl]; apply Nat.eqb_eq in Hl.
  - destruct (length_six d Hl) as (a1 & a2 & a3 & a4 & a5 & a6 & ->).
    simpl in Hd. rewrite !andb_true_iff in Hd.
    destruct Hd as (X1 & X2 & X3 & X4 & X5 & X6 & _).
    by exists a1, a2, a3, a4, a5, a6.
  - destruct d as [|a1 [|a2 [|a3 [|a4 d]]]]; try done.
    simpl in Hd. rewrite !andb_true_iff in Hd.
    destruct Hd as (X1 & X2 & X3 & _).
    by exists a1, a1, a2, a2, a3, a3.
Qed.

(** X9.  A colour written from three integer channels between 0 and 255
    reads back as the same channels. *)
Theorem rgb_to_hex_and_back (r g b : nat) :
  (r < 256)%nat -> (g < 256)%nat -> (b < 256)%nat ->
  hexToRgb (rgbToHex (mkRgb (of_nat r) (of_nat g) (of_nat b)))
  = mkRgb (of_nat r) (of_nat g) (of_nat b).
Proof.
  intros Hr Hg Hb.
  destruct (channel_round_trip _ (In_channels r Hr))
    as (a1 & a2 & H1 & _ & _ & E1).
  destruct (channel_round_trip _ (In_channels g Hg))
    as (a3 & a4 & H2 & _ & _ & E2).
  destruct (channel_round_trip _ (In_channels b Hb))
    as (a5 & a6 & H3 & _ & _ & E3).
  unfold rgbToHex. cbn [c_r c_g c_b]. rewrite H1, H2, H3.
  cbv [String.append]. by rewrite hexToRgb_six, E1, E2, E3.
Qed.

(** X10.  Reading a colour written [#rrggbb] or [#rgb] and writing it
    again gives the six-digit colour in lower case. *)
Theorem hex_to_rgb_and_back (h : string) :
  hex_colour h = true ->
  rgbToHex (hexToRgb h)
  = toLowerCase (String "#" (expand_hex (remove_first "#" h))).
Proof.
  intros H.
  destruct (hex_colour_digits h H)
    as (a1 & a2 & a3 & a4 & a5 & a6 & (X1 & X2 & X3 & X4 & X5 & X6) & -> & ->).
  unfold rgbToHex. cbn [c_r c_g c_b].
  rewrite (proj1 (pair_round_trip a1 a2 X1 X2)),
    (proj1 (pair_round_trip a3 a4 X3 X4)),
    (proj1 (pair_round_trip a5 a6 X5 X6)). done.
Qed.

Lemma lerp_endpoints_check :
  forallb (fun a =>
    forallb (fun b =>
      PrimFloat.Leibniz.eqb (lerp a b 0) a
      && PrimFloat.Leibniz.eqb (lerp a b 1) b) channels) channels = true.
Proof. vm_compute. reflexivity. Qed.

Lemma lerp_endpoints (a b : float) :
  In a channels -> In b channels -> lerp a b 0 = a /\ lerp a b 1 = b.
Proof.
  intros Ha Hb. pose proof lerp_endpoints_check as H.
  rewrite forallb_forall in H. specialize (H a Ha).
  rewrite forallb_forall in H. specialize (H b Hb).
  apply andb_true_iff in H as [H1 H2].
  by apply FloatAxioms.Leibniz.eqb_spec in H1, H2.
Qed.

(** X11.  Blending two colours at 0 gives the first and at 1 the second,
    each written with six digits in lower case. *)
Theorem blendHex_endpoints (aHex bHex : string) :
  hex_colour aHex = true -> hex_colour bHex = true ->
  blendHex aHex bHex 0 = rgbToHex (hexToRgb aHex)
  /\ blendHex aHex bHex 1 = rgbToHex (hexToRgb bHex).
Proof.
  intros Ha Hb.
  destruct (hex_colour_digits aHex Ha)
    as (a1 & a2 & a3 & a4 & a5 & a6 & (X1 & X2 & X3 & X4 & X5 & X6) & _ & Ea).
  destruct (hex_colour_digits bHex Hb)
    as (b1 & b2 & b3 & b4 & b5 & b6 & (Y1 & Y2 & Y3 & Y4 & Y5 & Y6) & _ & Eb).
  unfold blendHex. rewrite Ea, Eb. cbn [c_r c_g c_b].
  destruct (lerp_endpoints _ _ (proj2 (pair_round_trip a1 a2 X1 X2))
              (proj2 (pair_round_trip b1 b2 Y1 Y2))) as [-> ->].
  destruct (lerp_endpoints _ _ (proj2 (pair_round_trip a3 a4 X3 X4))
              (proj2 (pair_round_trip b3 b4 Y3 Y4))) as [-> ->].
  destruct (lerp_endpoints _ _ (proj2 (pair_round_trip a5 a6 X5 X6))
              (proj2 (pair_round_trip b5 b6 Y5 Y6))) as [-> ->].
  done.
Qed.

End Hex.

(** The accent colour [#FF5432]. *)
Lemma rgb_to_hex_witness :
  rgbToHex (mkRgb (of_nat 255) (of_nat 84) (of_nat 50)) = "#ff5432"
  /\ hexToRgb (rgbToHex (mkRgb (of_nat 255) (of_nat 84) (of_nat 50)))
     = mkRgb (of_nat 255) (of_nat 84) (of_nat 50).
Proof.
  split; [vm_compute; reflexivity|].
  apply rgb_to_hex_and_back; lia.
Defined.

Lemma hex_to_rgb_witness :
  rgbToHex (hexToRgb "#FF5432") = "#ff5432"
  /\ rgbToHex (hexToRgb "#F53") = "#ff5533".
Proof.
  split.
  - apply (hex_to_rgb_and_back "#FF5432"). reflexivity.
  - apply (hex_to_rgb_and_back "#F53"). reflexivity.
Defined.

Lemma blendHex_witness :
  blendHex "#FF5432" "#1F6FFF" 0 = "#ff5432"
  /\ blendHex "#FF5432" "#1F6FFF" 1 = "#1f6fff".
Proof.
  destruct (blendHex_endpoints "#FF5432" "#1F6FFF" eq_refl eq_refl)
    as [H0 H1].
  split; [rewrite H0|rewrite H1]; vm_compute; reflexivity.
Defined.

(** ** Model selection *)

Section Selection.

Lemma eqb_sym (x y : float) : PrimFloat.eqb x y = PrimFloat.eqb y x.
Proof.
  rewrite !FloatAxioms.eqb_spec. unfold SFeqb.
  rewrite (SFcompare_antisym (Prim2SF y) (Prim2SF x)).
  by destruct (SFcompare (Prim2SF y) (Prim2SF x)) as [[| |]|].
Qed.

Lemma eqb_trans (x y z : float) :
  PrimFloat.eqb x y = true -> PrimFloat.eqb y z = true ->
  PrimFloat.eqb x z = true.
Proof.
  rewrite !FloatAxioms.eqb_spec. unfold SFeqb.
  destruct (SFcompare (Prim2SF x) (Prim2SF y)) as [[| |]|] eqn:H1; try done.
  destruct (SFcompare (Prim2SF y) (Prim2SF z)) as [[| |]|] eqn:H2; try done.
  by rewrite (SFcompare_trans _ _ _ _ _ H1 H2).
Qed.

Lemma eqb_is_nan (x y : float) :
  PrimFloat.eqb x y = true ->
  PrimFloat.is_nan x = false /\ PrimFloat.is_nan y = false.
Proof.
  intros H. unfold PrimFloat.is_nan.
  rewrite (eqb_trans x y x), (eqb_trans y x y); try done;
    by rewrite eqb_sym.
Qed.

Lemma SameValueZero_sym (a b : jsval) :
  SameValueZero a b = SameValueZero b a.
Proof.
  destruct a as [| |x|x|x], b as [| |y|y|y]; simpl; try done.
  - by destruct x, y.
  - by rewrite eqb_sym, andb_comm.
  - apply String.eqb_sym.
Qed.

Lemma SameValueZero_trans (a b c : jsval) :
  SameValueZero a b = true -> SameValueZero b c = true ->
  SameValueZero a c = true.
Proof.
  destruct a as [| |x|x|x], b as [| |y|y|y], c as [| |z|z|z]; simpl;
    try done.
  - by destruct x, y, z.
  - rewrite !orb_true_iff, !andb_true_iff.
    intros [H1|[H1 H1']] [H2|[H2 H2']].
    + left. by apply (eqb_trans _ y).
    + apply eqb_is_nan in H1 as [_ H1]. congruence.
    + apply eqb_is_nan in H2 as [H2 _]. congruence.
    + by right.
  - rewrite !String.eqb_eq. congruence.
Qed.

Lemma includes_congr (l : list jsval) (x m : jsval) :
  SameValueZero x m = true -> includes l x = includes l m.
Proof.
  intros H. unfold includes. induction l as [|a l IH]; simpl; [done|].
  rewrite IH. f_equal.
  destruct (SameValueZero a x) eqn:Hax, (SameValueZero a m) eqn:Ham; try done.
  - by rewrite (SameValueZero_trans a x m) in Ham.
  - rewrite SameValueZero_sym in H.
    by rewrite (SameValueZero_trans a m x) in Hax.
Qed.

(** For a value that is not NaN, [===] and the equality of [includes]
    agree. *)
Lemma StrictEquals_SameValueZero (a m : jsval) :
  StrictEquals m m = true -> StrictEquals a m = SameValueZero a m.
Proof.
  destruct a as [| |x|x|x], m as [| |y|y|y]; simpl; try done.
  intros H. apply eqb_is_nan in H as [H _]. rewrite H.
  by rewrite andb_false_r, orb_false_r.
Qed.

Lemma includes_filter_out (l : list jsval) (m x : jsval) :
  StrictEquals m m = true ->
  includes (List.filter (fun a => negb (StrictEquals a m)) l) x
  = if SameValueZero x m then false else includes l x.
Proof.
  intros Hm. unfold includes. induction l as [|a l IH]; simpl.
  - by destruct (SameValueZero x m).
  - rewrite (StrictEquals_SameValueZero a m Hm).
    destruct (SameValueZero a m) eqn:Ham; simpl; rewrite IH.
    + destruct (SameValueZero x m) eqn:Hxm; [done|].
      destruct (SameValueZero a x) eqn:Hax; [|done].
      rewrite SameValueZero_sym in Hax.
      by rewrite (SameValueZero_trans x a m) in Hxm.
    + destruct (SameValueZero x m) eqn:Hxm; [|done].
      destruct (SameValueZero a x) eqn:Hax; [|done].
      by rewrite (SameValueZero_trans a x m) in Ham.
Qed.

(** X12.  Toggling a model flips its membership and no other: afterwards
    the selection includes [x] iff [x] is the model and the selection did
    not include it, or [x] is another value and the selection included
    it.  NaN, which [!==] cannot remove, is left aside. *)
Theorem toggleModel_flips_membership (prev : list jsval) (m x : jsval) :
  StrictEquals m m = true ->
  includes (toggleModel prev m) x
  = if SameValueZero x m then negb (includes prev m) else includes prev x.
Proof.
  intros Hm. unfold toggleModel.
  destruct (includes prev m) eqn:Hin.
  - by rewrite includes_filter_out.
  - rewrite includes_app. simpl. rewrite orb_false_r.
    rewrite (SameValueZero_sym m x).
    destruct (SameValueZero x m) eqn:Hxm.
    + rewrite (includes_congr prev x m Hxm), Hin. done.
    + by rewrite orb_false_r.
Qed.

End Selection.

(** Toggling a selected model and one that is not. *)
Lemma toggleModel_witness :
  includes (toggleModel [JStr "Stelvio"; JStr "Macan"] (JStr "Macan"))
    (JStr "Macan") = false
  /\ includes (toggleModel [JStr "Stelvio"] (JStr "Macan")) (JStr "Macan")
     = true.
Proof.
  split.
  - apply (toggleModel_flips_membership [JStr "Stelvio"; JStr "Macan"]
             (JStr "Macan") (JStr "Macan")). reflexivity.
  - apply (toggleModel_flips_membership [JStr "Stelvio"]
             (JStr "Macan") (JStr "Macan")). reflexivity.
Defined.

(** ** Code tables and labels *)

Section CodeTables.
Context {rt : Runtime}.










End CodeTables.


(** ** The normalizer, applied again *)

Section NormalizerAgain.
Context {rt : Runtime}.

Lemma normalized_fixed (r : option row) :
  keeps r = true ->
  keeps (Some (normalized r)) = true
  /\ normalized (Some (normalized r)) = normalized r.
Proof.
  intros Hk. pose proof Hk as Hk'.
  unfold keeps in Hk'. rewrite !andb_true_iff in Hk'.
  destruct Hk' as [[[Hm Hx] Hy] Hc].
  set (o := normalized r).
  assert (Lm : o !! "model" = Some (JStr (ToString (modelVal r)))).
  { subst o. unfold normalized.
    rewrite ?lookup_insert_ne by done. apply lookup_insert_eq. }
  assert (Lx : o !! "emb_x" = Some (JNum (ToNumber (get_opt r "emb_x")))).
  { subst o. unfold normalized.
    rewrite ?lookup_insert_ne by done. apply lookup_insert_eq. }
  assert (Ly : o !! "emb_y" = Some (JNum (ToNumber (get_opt r "emb_y")))).
  { subst o. unfold normalized.
    rewrite ?lookup_insert_ne by done. apply lookup_insert_eq. }
  assert (Lc : o !! "cluster" = Some (JNum (ToNumber (get_opt r "cluster")))).
  { subst o. unfold normalized.
    rewrite ?lookup_insert_ne by done. apply lookup_insert_eq. }
  assert (Lrx : o !! "raw_x" = Some (JNum (ToNumber (get_opt r "emb_x")))).
  { subst o. unfold normalized.
    rewrite ?lookup_insert_ne by done. apply lookup_insert_eq. }
  assert (Lry : o !! "raw_y" = Some (JNum (ToNumber (get_opt r "emb_y")))).
  { subst o. unfold normalized.
    rewrite ?lookup_insert_ne by done. apply lookup_insert_eq. }
  assert (Hmv : modelVal (Some o) = JStr (ToString (modelVal r))).
  { unfold modelVal, get_opt, get. rewrite Lm. done. }
  assert (Gx : get_opt (Some o) "emb_x" = JNum (ToNumber (get_opt r "emb_x"))).
  { unfold get_opt, get. by rewrite Lx. }
  assert (Gy : get_opt (Some o) "emb_y" = JNum (ToNumber (get_opt r "emb_y"))).
  { unfold get_opt, get. by rewrite Ly. }
  assert (Gc : get_opt (Some o) "cluster"
               = JNum (ToNumber (get_opt r "cluster"))).
  { unfold get_opt, get. by rewrite Lc. }
  split.
  - unfold keeps. rewrite Hmv, Gx, Gy, Gc. simpl ToNumber.
    rewrite Hx, Hy, Hc, !andb_true_r. simpl.
    apply negb_true_iff, String.eqb_neq. by apply ToString_truthy.
  - unfold normalized at 1. rewrite Hmv, Gx, Gy, Gc. simpl ToNumber.
    simpl ToString. simpl default.
    rewrite (insert_id o "model") by done.
    rewrite (insert_id o "raw_x") by done.
    rewrite (insert_id o "raw_y") by done.
    rewrite (insert_id o "emb_x") by done.
    rewrite (insert_id o "emb_y") by done.
    by rewrite (insert_id o "cluster").
Qed.

(** X15.  Normalizing the rows the normalizer returned changes nothing:
    it keeps every one of them and leaves each as it is. *)
Theorem normalizer_is_idempotent (dataPoints : list (option row)) :
  rows_of (map Some (rows_of dataPoints)) = rows_of dataPoints.
Proof.
  induction dataPoints as [|r rest IH]; simpl; [done|].
  destruct (keeps r) eqn:Hk; [|done]. simpl.
  destruct (normalized_fixed r Hk) as [-> ->]. by rewrite IH.
Qed.

End NormalizerAgain.

(** ** Price series by group *)

Section PriceSeries.
Context {rt : Runtime}.

Lemma buildBuckets_total (rows : list (option row)) :
  exists res,
    buildBucketsForRows rows = Some res
    /\ bucket_total (data res) = length (List.filter coercible rows)
    /\ length (data res)
       = if decide (length (List.filter coercible rows) = 0)%nat
         then 0%nat else 18%nat.
Proof.
  assert (Hlen : length (price_vals rows)
                 = length (List.filter coercible rows)).
  { by rewrite price_vals_filter, length_map. }
  unfold buildBucketsForRows. rewrite Hlen.
  case_decide as Hz.
  - eexists. split; [reflexivity|]. by rewrite Hz.
  - destruct (count_vals_total (price_vals rows)
                (map (fun _ => 0%nat) getFixedBucketRanges))
      as (idxs & Hc & Hl & Hi).
    { apply price_vals_finite. }
    { by rewrite length_map, ranges_length. }
    rewrite Hc. eexists. split; [reflexivity|]. cbn [data].
    change (map (fun _ => 0%nat) getFixedBucketRanges)
      with (replicate 18 0%nat) in *.
    assert (Hb : length (bump_all idxs (replicate 18 0%nat)) = 18%nat).
    { by rewrite bump_all_length, length_replicate. }
    split.
    + unfold bucket_total. rewrite sum_counts_zip.
      * rewrite bump_all_sum by (by rewrite length_replicate).
        rewrite Hl, Hlen, sum_list_replicate. lia.
      * done.
      * by rewrite Hb, ranges_length.
    + rewrite length_zip_with, Hb, ranges_length. done.
Qed.

Lemma priced_app (l1 l2 : list row) :
  priced (l1 ++ l2) = (priced l1 + priced l2)%nat.
Proof. unfold priced. by rewrite map_app, List.filter_app, length_app. Qed.

Lemma group_push_priced (k : jsval) (r : row) (g : groups) :
  priced_groups (group_push k r g) = (priced_groups g + priced [r])%nat.
Proof.
  unfold priced_groups. induction g as [|[k' rs] g IH]; simpl.
  - lia.
  - destruct (SameValueZero k' k); simpl.
    + rewrite priced_app. lia.
    + rewrite IH. lia.
Qed.

Lemma group_push_keys (k : jsval) (r : row) (g : groups) (P : jsval -> Prop) :
  Forall (fun kr => P (fst kr)) g -> P k ->
  Forall (fun kr => P (fst kr)) (group_push k r g).
Proof.
  induction g as [|[k' rs] g IH]; simpl; intros Hg Hk.
  - by repeat constructor.
  - apply Forall_cons in Hg as [Hk' Hg].
    destruct (SameValueZero k' k); constructor; auto.
Qed.

Lemma group_push_distinct (k : jsval) (r : row) (g : groups) :
  distinct_keys g -> distinct_keys (group_push k r g).
Proof.
  induction g as [|[k' rs] g IH]; simpl.
  - intros _. split; [constructor|done].
  - intros [Hk' Hg]. destruct (SameValueZero k' k) eqn:Hkk; simpl.
    + done.
    + split; [|by apply IH].
      apply (group_push_keys k r g (fun x => SameValueZero x k' = false));
        [done|].
      by rewrite SameValueZero_sym.
Qed.

Lemma byGroup_invariant (groupingKey : string) (rows : list row) :
  distinct_keys (byGroup groupingKey rows)
  /\ priced_groups (byGroup groupingKey rows) = priced rows.
Proof.
  unfold byGroup.
  assert (H : forall g,
             distinct_keys g ->
             let g' := fold_left
                         (fun g r => group_push (groupKeyOf groupingKey r) r g)
                         rows g in
             distinct_keys g'
             /\ priced_groups g' = (priced_groups g + priced rows)%nat).
  { induction rows as [|r rows IH]; intros g Hg; simpl.
    - split; [done|]. unfold priced. simpl. lia.
    - destruct (IH (group_push (groupKeyOf groupingKey r) r g)) as [H1 H2].
      { by apply group_push_distinct. }
      split; [done|]. rewrite H2, group_push_priced.
      change (r :: rows) with ([r] ++ rows). rewrite priced_app. lia. }
  destruct (H [] I) as [H1 H2]. split; [done|].
  rewrite H2. done.
Qed.

(** The series that the remaining keys add to [acc]. *)
Lemma series_fold (g g0 : groups) (acc : list (jsval * list bucket)) :
  (forall k rs, In (k, rs) g -> group_get g0 k = rs) ->
  exists series,
    fold_left (series_step g0) (map fst g) (Some acc) = Some (acc ++ series)
    /\ Forall (fun kd =>
                 length (snd kd) = 18%nat
                 /\ bucket_total (snd kd) = priced (group_get g0 (fst kd))
                 /\ (0 < bucket_total (snd kd))%nat) series
    /\ sum_list (map (fun kd => bucket_total (snd kd)) series)
       = priced_groups g.
Proof.
  revert acc. induction g as [|[k rs] g IH]; intros acc Hget; simpl.
  - exists []. rewrite app_nil_r. by repeat split.
  - rewrite (Hget k rs) by (by left).
    destruct (buildBuckets_total (map Some rs)) as (res & -> & Ht & Hl).
    fold (priced rs) in Ht, Hl.
    destruct (IH (match data res with
                  | [] => acc
                  | _ :: _ => acc ++ [(k, data res)]
                  end)) as (series & -> & Hall & Hsum).
    { intros k' rs' Hin. apply Hget. by right. }
    unfold priced_groups in *. simpl.
    case_decide as Hz.
    + destruct (data res) as [|b bs] eqn:Hd; [|done].
      exists series. split; [done|]. split; [done|].
      rewrite Hsum, Hz. done.
    + destruct (data res) as [|b bs] eqn:Hd; [done|].
      exists ((k, b :: bs) :: series). rewrite <- app_assoc. simpl.
      split; [done|]. split.
      * constructor; [|done]. simpl.
        rewrite (Hget k rs) by (by left). split; [done|]. split; [done|].
        lia.
      * rewrite Hsum, Ht. done.
Qed.

Lemma group_get_distinct (g : groups) (k : jsval) (rs : list row) :
  distinct_keys g -> In (k, rs) g -> group_get g k = rs.
Proof.
  induction g as [|[k' rs'] g IH]; simpl; [done|].
  intros [Hk Hg] [[= -> ->]|Hin].
  - by rewrite SameValueZero_refl.
  - rewrite Forall_forall in Hk. specialize (Hk (k, rs)).
    rewrite SameValueZero_sym. simpl in Hk.
    rewrite Hk by (by apply list_elem_of_In). by apply IH.
Qed.

Lemma series_fold_keys (g : groups) (keys : list jsval)
    (acc : list (jsval * list bucket)) :
  exists series,
    fold_left (series_step g) keys (Some acc) = Some (acc ++ series)
    /\ map fst series = List.filter (has_priced g) keys
    /\ Forall (fun kd =>
                 length (snd kd) = 18%nat
                 /\ bucket_total (snd kd) = priced (group_get g (fst kd))
                 /\ (0 < bucket_total (snd kd))%nat) series.
Proof.
  revert acc. induction keys as [|k keys IH]; intros acc; simpl.
  - exists []. rewrite app_nil_r. by repeat split.
  - destruct (buildBuckets_total (map Some (group_get g k)))
      as (res & -> & Ht & Hl).
    fold (priced (group_get g k)) in Ht, Hl.
    destruct (IH (match data res with
                  | [] => acc
                  | _ :: _ => acc ++ [(k, data res)]
                  end)) as (series & -> & Hk & Hall).
    unfold has_priced at 1.
    case_decide as Hz.
    + destruct (data res) as [|b bs] eqn:Hd; [|done].
      exists series. rewrite Hz. by repeat split.
    + destruct (data res) as [|b bs] eqn:Hd; [done|].
      exists ((k, b :: bs) :: series). rewrite <- app_assoc. simpl.
      destruct (Nat.ltb_spec 0 (priced (group_get g k))); [|lia].
      split; [done|]. split; [by rewrite Hk|].
      constructor; [|done]. simpl. split; [done|]. split; [done|]. lia.
Qed.

(** X16.  [buildPriceSeriesByGroup] returns one series for each key, in
    the order given, whose group has a row with a price, and none for
    the other keys; each series has eighteen buckets whose counts add up
    to the number of priced rows of its group; and when the order is left
    out, the counts of all the series add up to the number of priced
    rows. *)
Theorem price_series_count_every_priced_row (rows : list row)
    (groupingKey : string) (groupOrder : option (list jsval)) :
  let g := byGroup groupingKey rows in
  exists series,
    buildPriceSeriesByGroup rows groupingKey groupOrder = Some series
    /\ map fst series
       = List.filter (has_priced g) (default (map fst g) groupOrder)
    /\ Forall (fun kd =>
                 length (snd kd) = 18%nat
                 /\ bucket_total (snd kd) = priced (group_get g (fst kd))
                 /\ (0 < bucket_total (snd kd))%nat) series
    /\ match groupOrder with
       | Some _ => True
       | None =>
           sum_list (map (fun kd => bucket_total (snd kd)) series)
           = priced rows
       end.
Proof.
  intros g. unfold buildPriceSeriesByGroup. fold g.
  destruct (series_fold_keys g (default (map fst g) groupOrder) [])
    as (series & Hs & Hk & Hall).
  exists series. split; [done|]. split; [done|]. split; [done|].
  destruct groupOrder as [order|]; [done|]. simpl in Hs.
  destruct (byGroup_invariant groupingKey rows) as [Hd Hp]. fold g in Hd, Hp.
  destruct (series_fold g g []) as (series' & Hs' & _ & Hsum).
  { intros k rs. by apply group_get_distinct. }
  rewrite Hs in Hs'. injection Hs' as ->. by rewrite Hsum.
Qed.

End PriceSeries.

(** ** The items of a categorical summary *)

Section CategoricalItems.
Context {rt : Runtime}.

Lemma counts_bump_assoc (l l' : string) (cs : list (string * nat)) :
  assoc_count l' (counts_bump l cs)
  = (assoc_count l' cs + if String.eqb l l' then 1 else 0)%nat.
Proof.
  induction cs as [|[k c] cs IH]; simpl.
  - destruct (String.eqb l l'); lia.
  - destruct (String.eqb_spec k l) as [->|Hkl]; simpl.
    + destruct (String.eqb l l'); lia.
    + destruct (String.eqb_spec k l') as [->|Hkl'].
      * destruct (String.eqb_spec l l'); [congruence|lia].
      * apply IH.
Qed.

Lemma counts_bump_keys (l : string) (cs : list (string * nat)) :
  (l ∈ map fst cs -> map fst (counts_bump l cs) = map fst cs)
  /\ (l ∉ map fst cs -> map fst (counts_bump l cs) = map fst cs ++ [l]).
Proof.
  induction cs as [|[k c] cs [IH1 IH2]]; simpl.
  - split; [|done]. intros H. by apply elem_of_nil in H.
  - destruct (String.eqb_spec k l) as [->|Hkl]; simpl.
    + split; [done|]. intros H. exfalso. apply H. by left.
    + split; intros H.
      * apply elem_of_cons in H as [|H]; [done|]. by rewrite IH1.
      * rewrite IH2; [done|]. intros H'. apply H. by right.
Qed.

Lemma counts_bump_NoDup (l : string) (cs : list (string * nat)) :
  NoDup (map fst cs) -> NoDup (map fst (counts_bump l cs)).
Proof.
  intros H. destruct (counts_bump_keys l cs) as [H1 H2].
  destruct (decide (l ∈ map fst cs)) as [Hin|Hin].
  - by rewrite H1.
  - rewrite H2 by done.
    apply NoDup_app. split; [done|]. split.
    + intros x Hx Hx'. apply list_elem_of_singleton in Hx'. by subst.
    + apply NoDup_singleton.
Qed.

Lemma counts_bump_positive (l : string) (cs : list (string * nat)) :
  Forall (fun kc => (1 <= snd kc)%nat) cs ->
  Forall (fun kc => (1 <= snd kc)%nat) (counts_bump l cs).
Proof.
  induction 1 as [|[k c] cs Hc Hcs IH]; simpl.
  - by repeat constructor.
  - destruct (String.eqb k l); constructor; simpl in *; auto; lia.
Qed.

Lemma categorical_step_counted (codeMap : codemap) (field : string)
    (a : cat_acc) (rows : list (option row)) (r : option row) :
  counted codeMap field a rows ->
  counted codeMap field (categorical_step codeMap field a r) (rows ++ [r]).
Proof.
  intros (Hn & Hc & Hp & Hm). unfold categorical_step, counted.
  unfold label_count, missing_count in *.
  rewrite !List.filter_app, !length_app. simpl.
  destruct (present (get_opt r field)) eqn:Hpr; simpl.
  - split; [by apply counts_bump_NoDup|]. split.
    + intros l. rewrite counts_bump_assoc, Hc, List.filter_app, length_app.
      simpl. rewrite Hpr. simpl.
      by destruct (String.eqb _ l).
    + split; [by apply counts_bump_positive|]. lia.
  - split; [done|]. split.
    + intros l. rewrite Hc, List.filter_app, length_app. simpl.
      rewrite Hpr. simpl. lia.
    + split; [done|]. lia.
Qed.

Lemma categorical_fold_counted (codeMap : codemap) (field : string)
    (rows rows0 : list (option row)) (a : cat_acc) :
  counted codeMap field a rows0 ->
  counted codeMap field (fold_left (categorical_step codeMap field) rows a)
    (rows0 ++ rows).
Proof.
  revert a rows0. induction rows as [|r rows IH]; intros a rows0 H; simpl.
  - by rewrite app_nil_r.
  - replace (rows0 ++ r :: rows) with ((rows0 ++ [r]) ++ rows)
      by (by rewrite <- app_assoc).
    apply IH. by apply categorical_step_counted.
Qed.

Lemma insert_by_count_perm (x : item) (l : list item) :
  insert_by_count x l ≡ₚ x :: l.
Proof.
  induction l as [|y l IH]; simpl; [done|].
  destruct (i_count x <? i_count y)%nat; [|done].
  rewrite IH. apply Permutation_swap.
Qed.

Lemma sort_by_count_perm (l : list item) : sort_by_count l ≡ₚ l.
Proof.
  induction l as [|x l IH]; simpl; [done|].
  unfold sort_by_count in *. simpl. by rewrite insert_by_count_perm, IH.
Qed.

Lemma insert_by_count_sorted (x : item) (l : list item) :
  sorted_desc (map i_count l) ->
  sorted_desc (map i_count (insert_by_count x l)).
Proof.
  induction l as [|y l IH]; simpl; [done|].
  intros Hs. destruct (Nat.ltb_spec (i_count x) (i_count y)).
  - assert (Hl : sorted_desc (map i_count l)).
    { destruct l; [done|]. simpl in Hs. tauto. }
    specialize (IH Hl). simpl.
    destruct l as [|z l]; simpl in *.
    + split; [lia|done].
    + destruct (i_count x <? i_count z)%nat; simpl in *.
      * split; [tauto|done].
      * split; [lia|done].
  - simpl. split; [lia|done].
Qed.

Lemma sort_by_count_sorted (l : list item) :
  sorted_desc (map i_count (sort_by_count l)).
Proof.
  induction l as [|x l IH]; simpl; [done|].
  unfold sort_by_count in *. simpl. by apply insert_by_count_sorted.
Qed.

Lemma assoc_count_In (l : string) (c : nat) (cs : list (string * nat)) :
  NoDup (map fst cs) -> In (l, c) cs -> assoc_count l cs = c.
Proof.
  induction cs as [|[k c'] cs IH]; simpl; [done|].
  intros Hn [[= -> ->]|Hin].
  - by rewrite String.eqb_refl.
  - apply NoDup_cons in Hn as [Hk Hn].
    destruct (String.eqb_spec k l) as [->|_]; [|by apply IH].
    exfalso. apply Hk. apply list_elem_of_In, in_map_iff. by exists (l, c).
Qed.

Lemma assoc_count_pos (l : string) (cs : list (string * nat)) :
  (0 < assoc_count l cs)%nat -> In l (map fst cs).
Proof.
  induction cs as [|[k c] cs IH]; simpl; [lia|].
  destruct (String.eqb_spec k l) as [->|_]; [by left|].
  intros H. right. by apply IH.
Qed.

Lemma add_to_last_label_counts (diff : float) (items : list item) :
  label_counts (add_to_last diff items) = label_counts items.
Proof.
  unfold label_counts.
  induction items as [|x [|y items] IH]; simpl; [done|done|].
  simpl in IH. by rewrite IH.
Qed.

(** X17.  The items of a categorical section are: one item for each
    label that some row has, with distinct labels, each counting the
    rows with that label, in non-increasing order of count; then, when
    some row has no value, the item ["Unknown"] counting those rows. *)
Theorem categorical_items_count_labels (codeMap : codemap)
    (srcAll : list (option row)) (field : string) (items : list item)
    (total : nat) :
  categoricalSection codeMap srcAll field = Some (Categorical items total) ->
  exists known : list (string * nat),
    label_counts items
    = known
      ++ (if (0 <? missing_count field srcAll)%nat
          then [("Unknown", missing_count field srcAll)] else [])
    /\ NoDup (map fst known)
    /\ Forall (fun lc =>
                 snd lc = label_count codeMap field srcAll (fst lc)
                 /\ (1 <= snd lc)%nat) known
    /\ sorted_desc (map snd known)
    /\ (forall l, (0 < label_count codeMap field srcAll l)%nat ->
                  In l (map fst known)).
Proof.
  unfold categoricalSection.
  set (a := fold_left _ srcAll _).
  assert (Ha : counted codeMap field a srcAll).
  { apply (categorical_fold_counted codeMap field srcAll [] (mkCatAcc [] 0 0)).
    split; [constructor|]. by repeat split. }
  destruct Ha as (Hn & Hc & Hp & Hm).
  case_decide as Hz; [done|]. intros [= <- <-].
  set (mk := fun '(l, c) =>
               mkItem l c (pct_of (validCount a + missingCount a) c)).
  set (sorted := sort_by_count (map mk (counts a))).
  exists (label_counts sorted).
  assert (Hperm : label_counts sorted ≡ₚ counts a).
  { unfold label_counts, sorted. rewrite sort_by_count_perm, map_map.
    replace (map (fun x => (i_label (mk x), i_count (mk x))) (counts a))
      with (counts a); [done|].
    clear. induction (counts a) as [|[l c] cs IH]; simpl; [done|].
    by rewrite <- IH. }
  split; [|split; [|split; [|split]]].
  - unfold corrected_items.
    assert (Hraw : label_counts (raw_items a)
                   = label_counts sorted
                     ++ (if (0 <? missing_count field srcAll)%nat
                         then [("Unknown", missing_count field srcAll)]
                         else [])).
    { unfold raw_items, label_counts. rewrite map_app. fold mk. fold sorted.
      rewrite Hm. by destruct (0 <? missing_count field srcAll)%nat. }
    destruct (needs_correction (raw_items a)); [|done].
    by rewrite add_to_last_label_counts.
  - by rewrite Hperm.
  - rewrite Forall_forall. intros [l c] Hin. simpl.
    rewrite Hperm in Hin. apply list_elem_of_In in Hin.
    split.
    + rewrite <- Hc. symmetry. by apply assoc_count_In.
    + rewrite Forall_forall in Hp.
      apply (Hp (l, c)). by apply list_elem_of_In.
  - unfold label_counts. rewrite map_map. simpl.
    apply sort_by_count_sorted.
  - intros l Hl. rewrite <- Hc in Hl. apply assoc_count_pos in Hl.
    apply list_elem_of_In. rewrite Hperm. by apply list_elem_of_In.
Qed.

End CategoricalItems.

(** Two rows of one age group and one without an age. *)
Lemma categorical_items_witness :
  exists (items : list item) (known : list (string * nat)),
    @categoricalSection Reference.engine empty_codemap Scenarios.age_rows
      "AGE" = Some (Categorical items 3)
    /\ label_counts items = known ++ [("Unknown", 1%nat)]
    /\ NoDup (map fst known)
    /\ sorted_desc (map snd known).
Proof.
  eexists.
  destruct (@categorical_items_count_labels Reference.engine
              empty_codemap Scenarios.age_rows "AGE" _ 3 eq_refl)
    as (known & H1 & H2 & _ & H3 & _).
  exists known. split; [reflexivity|]. split; [exact H1|]. by split.
Defined.

(** ** Whole-dollar prices *)

Section WholeDollars.
Context {rt : Runtime}.

Lemma Z_below_spec (p : positive) :
  Z_below p <> []
  /\ head (Z_below p) = Some (Zpos p - 1)
  /\ forall n, In n (Z_below p) <-> 0 <= n < Zpos p.
Proof.
  unfold Z_below. induction p as [|p IH] using Pos.peano_ind.
  - simpl. split; [done|]. split; [done|]. intros n. simpl. lia.
  - rewrite Pos.iter_succ.
    destruct IH as (Hne & Hh & Hin).
    destruct (Pos.iter _ [] p) as [|x l]; [done|].
    simpl in Hh. injection Hh as ->.
    split; [done|]. split; [simpl; f_equal; lia|].
    intros n. simpl. simpl in Hin. rewrite Hin. lia.
Qed.

Lemma of_Z_of_uint63 (n : Z) :
  0 <= n < 2 ^ 63 -> of_Z n = PrimFloat.of_uint63 (Uint63.of_Z n).
Proof.
  intros H. unfold of_Z.
  rewrite <- (FloatAxioms.SF2Prim_Prim2SF (of_uint63 (Uint63.of_Z n))).
  rewrite FloatAxioms.of_uint63_spec, Uint63.of_Z_spec.
  rewrite Z.mod_small; [done|]. change Uint63.wB with (2 ^ 63). lia.
Qed.

Lemma dollars_below_check :
  forallb (fun n =>
     let v := PrimFloat.of_uint63 (Uint63.of_Z n) in
     match bucketIndex 18 v with
     | ZFin z => (z =? dollar_bucket n)
     | _ => false
     end && in_bounds_of (dollar_bucket n) v) (Z_below 110000) = true.
Proof. vm_compute. reflexivity. Qed.

(** The conversion of integers that doubles hold exactly keeps their
    order. *)
Lemma of_Z_le (a b : positive) :
  Zpos b < 2 ^ 53 -> (a <= b)%positive ->
  PrimFloat.leb (of_Z (Zpos a)) (of_Z (Zpos b)) = true.
Proof.
  intros Hb Hab. unfold of_Z.
  assert (Hdb : ndigits b <= 53) by (apply digits_le; lia).
  assert (Hda : ndigits a <= 53) by (apply digits_le; lia).
  destruct (Prim2SF_of_Z_small a Hda) as (ma & Ha & Hma & Hna).
  destruct (Prim2SF_of_Z_small b Hdb) as (mb & Hb' & Hmb & Hnb).
  rewrite FloatAxioms.leb_spec, Ha, Hb'. unfold SFleb, SFcompare.
  destruct (digits2_pos_bounds a) as [Ha1 Ha2].
  destruct (digits2_pos_bounds b) as [Hb1 Hb2].
  assert (Hd : ndigits a <= ndigits b).
  { destruct (Z.le_gt_cases (ndigits a) (ndigits b)) as [|Hgt]; [done|].
    assert (2 ^ ndigits b <= 2 ^ (ndigits a - 1))
      by (apply Z.pow_le_mono_r; lia).
    lia. }
  destruct (Z.compare_spec (ndigits a - 53) (ndigits b - 53)) as [He|He|He];
    [|done|lia].
  assert (Hm : Zpos ma <= Zpos mb).
  { rewrite Hma, Hmb. replace (ndigits a) with (ndigits b) by lia.
    apply Z.mul_le_mono_nonneg_r; [|lia].
    apply Z.pow_nonneg. lia. }
  change (PosDef.Pos.compare_cont Eq ma mb) with (Pos.compare ma mb).
  destruct (Pos.compare_spec ma mb); try done. lia.
Qed.

Lemma of_Z_finite (p : positive) :
  Zpos p < 2 ^ 53 -> PrimFloat.ltb (of_Z (Zpos p)) PrimFloat.infinity = true.
Proof.
  intros Hp. unfold of_Z.
  assert (Hd : ndigits p <= 53) by (apply digits_le; lia).
  destruct (Prim2SF_of_Z_small p Hd) as (m & H & _).
  rewrite FloatAxioms.ltb_spec, H. reflexivity.
Qed.

Lemma dollar_index (n : Z) :
  0 <= n < 2 ^ 53 ->
  bucketIndex 18 (of_Z n) = ZFin (dollar_bucket n)
  /\ in_bounds_of (dollar_bucket n) (of_Z n) = true.
Proof.
  intros Hn. destruct (Z.lt_ge_cases n 110000) as [Hlt|Hge].
  - pose proof dollars_below_check as H.
    rewrite forallb_forall in H. specialize (H n).
    destruct (Z_below_spec 110000) as (_ & _ & Hin).
    specialize (H (proj2 (Hin n) ltac:(lia))). cbv zeta in H.
    rewrite <- of_Z_of_uint63 in H by lia.
    apply andb_true_iff in H as [H1 H2]. split; [|done].
    destruct (bucketIndex 18 (of_Z n)) as [| |z|]; try done.
    apply Z.eqb_eq in H1. by rewrite H1.
  - destruct n as [|p|p]; [lia| |lia].
    assert (Hle : PrimFloat.leb OVER_MIN (of_Z (Zpos p)) = true).
    { change OVER_MIN with (of_Z 110000). apply of_Z_le; lia. }
    assert (Hlo : PrimFloat.ltb (of_Z (Zpos p)) BUCKET_MIN = false).
    { apply leb_not_ltb. by apply (leb_trans _ OVER_MIN). }
    assert (Hb : dollar_bucket (Zpos p) = 17).
    { unfold dollar_bucket.
      destruct (Z.ltb_spec (Zpos p) 30000); [lia|].
      destruct (Z.leb_spec 110000 (Zpos p)); [done|lia]. }
    rewrite Hb. split.
    + unfold bucketIndex. rewrite Hlo. unfold geb. by rewrite Hle.
    + unfold in_bounds_of. simpl.
      change 110000%float with OVER_MIN. rewrite Hle.
      by rewrite of_Z_finite by lia.
Qed.


(** X18.  A price that is a whole number of dollars below [2^53] is
    counted in the bucket whose range holds it: below 30000 the first,
    from 110000 the last, and between them the bucket of index
    [1 + (n - 30000) / 5000]. *)
Theorem whole_dollar_price_lands_in_its_range (n : Z) :
  0 <= n < 2 ^ 53 ->
  exists rg,
    bucketIndex 18 (of_Z n) = ZFin (dollar_bucket n)
    /\ getFixedBucketRanges !! Z.to_nat (dollar_bucket n) = Some rg
    /\ PrimFloat.leb (low rg) (of_Z n) = true
    /\ PrimFloat.ltb (of_Z n) (high rg) = true.
Proof.
  intros Hn. destruct (dollar_index n Hn) as [Hi Hb].
  unfold in_bounds_of in Hb.
  assert (Hf : map (fun r => (low r, high r)) getFixedBucketRanges
               = fixed_bounds) by reflexivity.
  rewrite <- Hf, list_lookup_fmap in Hb.
  destruct (getFixedBucketRanges !! Z.to_nat (dollar_bucket n)) as [rg|];
    [|done].
  simpl in Hb. apply andb_true_iff in Hb as [H1 H2]. by exists rg.
Qed.

(** Each range ends where the later ones start or before. *)
Lemma bounds_ordered_check :
  forallb (fun i =>
    forallb (fun j =>
      implb (i <? j)%nat
        match fixed_bounds !! i, fixed_bounds !! j with
        | Some (_, hi), Some (lo, _) => PrimFloat.leb hi lo
        | _, _ => false
        end) (seq 0 18)) (seq 0 18) = true.
Proof. vm_compute. reflexivity. Qed.

Lemma bounds_disjoint_lt (i j : nat) (v : float) :
  (i < j < 18)%nat ->
  in_bounds_of (Z.of_nat i) v = true -> in_bounds_of (Z.of_nat j) v = true ->
  False.
Proof.
  intros Hij. pose proof bounds_ordered_check as H.
  rewrite forallb_forall in H. specialize (H i ltac:(apply in_seq; lia)).
  rewrite forallb_forall in H. specialize (H j ltac:(apply in_seq; lia)).
  destruct (Nat.ltb_spec i j); [|lia]. simpl in H.
  unfold in_bounds_of. rewrite !Nat2Z.id.
  destruct (fixed_bounds !! i) as [[lo1 hi1]|]; [|done].
  destruct (fixed_bounds !! j) as [[lo2 hi2]|]; [|done].
  rewrite !andb_true_iff. intros [_ H1] [H2 _].
  pose proof (leb_trans _ _ _ H H2) as H3.
  apply leb_not_ltb in H3. congruence.
Qed.

Lemma bounds_disjoint (i j : nat) (v : float) :
  (i < 18)%nat -> (j < 18)%nat ->
  in_bounds_of (Z.of_nat i) v = true -> in_bounds_of (Z.of_nat j) v = true ->
  i = j.
Proof.
  intros Hi Hj H1 H2.
  destruct (Nat.lt_trichotomy i j) as [Hlt|[Heq|Hgt]]; [|done|].
  - destruct (bounds_disjoint_lt i j v); [lia|done|done].
  - destruct (bounds_disjoint_lt j i v); [lia|done|done].
Qed.

Lemma dollar_bucket_range (n : Z) : 0 <= n -> 0 <= dollar_bucket n < 18.
Proof.
  intros Hn. unfold dollar_bucket.
  destruct (Z.ltb_spec n 30000); [lia|].
  destruct (Z.leb_spec 110000 n); [lia|].
  assert (0 <= (n - 30000) / 5000) by (apply Z.div_pos; lia).
  assert ((n - 30000) / 5000 < 16) by (apply Z.div_lt_upper_bound; lia).
  lia.
Qed.

Lemma lands_in_bounds (i : nat) (v : float) :
  (i < 18)%nat -> whole_dollar v ->
  lands_in i v = in_bounds_of (Z.of_nat i) v.
Proof.
  intros Hi (n & Hn & ->). destruct (dollar_index n Hn) as [Hidx Hb].
  pose proof (dollar_bucket_range n ltac:(lia)) as Hr.
  unfold lands_in. rewrite Hidx.
  destruct (Z.eqb_spec (dollar_bucket n) (Z.of_nat i)) as [He|Hne].
  - by rewrite <- He.
  - destruct (in_bounds_of (Z.of_nat i) (of_Z n)) eqn:Hin; [|done].
    exfalso. apply Hne.
    rewrite <- (Z2Nat.id (dollar_bucket n)) in Hb |- * by lia.
    f_equal. symmetry.
    apply (bounds_disjoint i (Z.to_nat (dollar_bucket n)) (of_Z n));
      try done; lia.
Qed.

(** The counters after the values [vals]: each has grown by the number
    of values whose index it is. *)
Lemma count_vals_hist (vals : list float) (cs : list nat) :
  Forall (fun v => is_finite v = true) vals -> length cs = 18%nat ->
  exists cs',
    count_vals vals cs = Some cs' /\ length cs' = 18%nat
    /\ forall i c, cs !! i = Some c ->
         cs' !! i = Some (c + length (List.filter (lands_in i) vals))%nat.
Proof.
  intros Hvals. revert cs.
  induction Hvals as [|v vals Hv _ IH]; intros cs Hlen; simpl.
  - exists cs. split; [done|]. split; [done|].
    intros i c ->. f_equal. lia.
  - rewrite Hlen.
    destruct (bucketIndex_range v Hv) as (z & Hz & Hzr).
    rewrite Hz. unfold bump.
    destruct (Z.leb_spec 0 z); [|lia].
    case_decide as Hd; [|lia].
    destruct (IH (alter S (Z.to_nat z) cs)) as (cs' & -> & Hl' & Hc').
    { by rewrite length_alter. }
    exists cs'. split; [done|]. split; [done|].
    intros i c Hic.
    assert (Hland : lands_in i v = (z =? Z.of_nat i)).
    { unfold lands_in. by rewrite Hz. }
    rewrite Hland.
    destruct (Z.eqb_spec z (Z.of_nat i)) as [->|Hne].
    + rewrite Nat2Z.id in Hc'.
      rewrite (Hc' i (S c)); [simpl; f_equal; lia|].
      rewrite list_lookup_alter, Hic. by case_decide.
    + rewrite (Hc' i c); [done|].
      rewrite list_lookup_alter_ne; [done|]. lia.
Qed.

Lemma in_range_of_bounds (i : nat) (v : float) :
  in_range_of i v = in_bounds_of (Z.of_nat i) v.
Proof.
  unfold in_range_of, in_bounds_of. rewrite Nat2Z.id.
  assert (Hf : map (fun r => (low r, high r)) getFixedBucketRanges
               = fixed_bounds) by reflexivity.
  rewrite <- Hf, list_lookup_fmap.
  by destruct (getFixedBucketRanges !! i).
Qed.

(** X19.  When the prices are whole numbers of dollars, the count of
    every bucket is the number of priced rows whose price lies in the
    range of the bucket. *)
Theorem bucket_counts_are_range_counts (rows : list (option row)) :
  Forall whole_dollar (price_vals rows) -> price_vals rows <> [] ->
  exists res,
    buildBucketsForRows rows = Some res
    /\ length (data res) = 18%nat
    /\ forall i bk, data res !! i = Some bk ->
         b_count bk
         = length (List.filter (in_range_of i) (price_vals rows)).
Proof.
  intros Hw Hne. unfold buildBucketsForRows.
  case_decide as Hz.
  { apply length_zero_iff_nil in Hz. done. }
  destruct (count_vals_hist (price_vals rows)
              (map (fun _ => 0%nat) getFixedBucketRanges))
    as (cs & -> & Hl & Hc).
  { apply price_vals_finite. }
  { by rewrite length_map, ranges_length. }
  eexists. split; [reflexivity|]. cbn [data].
  split; [by rewrite length_zip_with, Hl, ranges_length|].
  intros i bk Hbk.
  apply lookup_zip_with_Some in Hbk as (rg & c & -> & Hrg & Hci).
  cbn [b_count].
  assert (Hi : (i < 18)%nat).
  { apply lookup_lt_Some in Hci. lia. }
  assert (H0 : map (fun _ : range => 0%nat) getFixedBucketRanges !! i
               = Some 0%nat).
  { rewrite list_lookup_fmap, Hrg. done. }
  rewrite (Hc i 0%nat H0) in Hci. injection Hci as <-. simpl.
  f_equal. apply List.filter_ext_in. intros v Hv.
  rewrite in_range_of_bounds. apply lands_in_bounds; [done|].
  rewrite Forall_forall in Hw. apply Hw. by apply list_elem_of_In.
Qed.

End WholeDollars.

(** 35200 dollars lie in the third bucket. *)
Lemma whole_dollar_witness :
  exists rg,
    bucketIndex 18 (of_Z 35200) = ZFin 2
    /\ @getFixedBucketRanges Reference.engine !! 2%nat = Some rg
    /\ PrimFloat.leb (low rg) (of_Z 35200) = true
    /\ PrimFloat.ltb (of_Z 35200) (high rg) = true.
Proof.
  apply (@whole_dollar_price_lands_in_its_range Reference.engine 35200).
  lia.
Defined.

(** The prices 29999 and 35200. *)
Lemma bucket_counts_witness :
  exists res,
    @buildBucketsForRows Reference.engine Scenarios.price_rows = Some res
    /\ length (data res) = 18%nat
    /\ forall i bk, data res !! i = Some bk ->
         b_count bk
         = length (List.filter (@in_range_of Reference.engine i)
                     (@price_vals Reference.engine Scenarios.price_rows)).
Proof.
  apply (@bucket_counts_are_range_counts Reference.engine
           Scenarios.price_rows).
  - assert (H : @price_vals Reference.engine Scenarios.price_rows
                = [of_Z 29999; of_Z 35200]) by (vm_compute; reflexivity).
    rewrite H. repeat constructor.
    + exists 29999. split; [lia|reflexivity].
    + exists 35200. split; [lia|reflexivity].
  - vm_compute. discriminate.
Defined.

(** ** The sections of the summary *)

Section Summary.
Context {rt : Runtime}.

Lemma numeric_fold_invariant (field : string) (rows : list (option row))
    (a : num_acc) :
  let a' := fold_left (numeric_step field) rows a in
  (n_valid a' + n_missing a' = n_valid a + n_missing a + length rows)%nat.
Proof.
  revert a. induction rows as [|r rows IH]; intros a; simpl; [lia|].
  rewrite IH. unfold numeric_step. destruct (is_finite _); simpl; lia.
Qed.

Lemma numericSection_covers (srcAll : list (option row)) (field : string)
    (s : section) :
  numericSection srcAll field = Some s ->
  exists v nValid nMissing,
    s = Numeric v nValid nMissing
    /\ (0 < nValid)%nat /\ (nValid + nMissing)%nat = length srcAll.
Proof.
  unfold numericSection.
  pose proof (numeric_fold_invariant field srcAll (mkNumAcc 0 0 0 0)) as H.
  cbv zeta in H. simpl in H.
  destruct (Nat.ltb_spec 0 (n_valid (fold_left (numeric_step field) srcAll
                                       (mkNumAcc 0 0 0 0)))); [|done].
  intros [= <-]. eexists _, _, _. by repeat split.
Qed.

Lemma categoricalSection_covers (codeMap : codemap)
    (srcAll : list (option row)) (field : string) :
  match categoricalSection codeMap srcAll field with
  | Some (Categorical items total) =>
      srcAll <> [] /\ total = length srcAll
      /\ items_total items = length srcAll
  | Some (Numeric _ _ _) => False
  | None => srcAll = []
  end.
Proof.
  unfold categoricalSection.
  set (a := fold_left _ srcAll _).
  destruct (categorical_fold_invariant codeMap field srcAll
              (mkCatAcc [] 0 0)) as [H1 H2].
  fold a in H1, H2. simpl in H1, H2. specialize (H2 eq_refl).
  case_decide as Hz.
  - apply length_zero_iff_nil. lia.
  - split; [intros ->; simpl in *; lia|]. split; [lia|].
    destruct (corrected_items_counts (raw_items a)) as [Hc _].
    unfold items_total. rewrite Hc.
    fold (items_total (raw_items a)). rewrite raw_items_total by done. lia.
Qed.

Lemma summarizeField_covers (selectedFieldGroup : string) (dl : lookups)
    (srcAll : list (option row)) (field : string) :
  match summarizeField selectedFieldGroup dl srcAll field with
  | Some s =>
      srcAll <> [] /\ covers selectedFieldGroup (length srcAll) (field, s)
  | None => srcAll = []
  end.
Proof.
  unfold summarizeField.
  destruct (isFinancingNumeric selectedFieldGroup field) eqn:Hf.
  - destruct (numericSection srcAll field) as [s|] eqn:Hn.
    + destruct (numericSection_covers _ _ _ Hn) as (v & nv & nm & -> & H1 & H2).
      split; [intros ->; simpl in *; lia|]. unfold covers. simpl.
      by rewrite Hf.
    + pose proof (categoricalSection_covers (codemap_of dl field) srcAll field)
        as H.
      destruct (categoricalSection _ srcAll field) as [[|items total]|];
        [done| |done].
      destruct H as (H0 & H1 & H2). split; [done|]. by split.
  - pose proof (categoricalSection_covers (codemap_of dl field) srcAll field)
      as H.
    destruct (categoricalSection _ srcAll field) as [[|items total]|];
      [done| |done].
    destruct H as (H0 & H1 & H2). split; [done|]. by split.
Qed.

Lemma demoSummary_cons (f : string) (fields : list string)
    (selectedFieldGroup : string) (dl : lookups)
    (srcAll : list (option row)) :
  demoSummary (f :: fields) selectedFieldGroup dl srcAll
  = match summarizeField selectedFieldGroup dl srcAll f with
    | Some s => (f, s) :: demoSummary fields selectedFieldGroup dl srcAll
    | None => demoSummary fields selectedFieldGroup dl srcAll
    end.
Proof.
  unfold demoSummary. simpl.
  by destruct (summarizeField selectedFieldGroup dl srcAll f).
Qed.

Lemma demoSummary_covers (fields : list string)
    (selectedFieldGroup : string) (dl : lookups)
    (srcAll : list (option row)) :
  map fst (demoSummary fields selectedFieldGroup dl srcAll)
  = (match srcAll with [] => [] | _ :: _ => fields end)
  /\ Forall (covers selectedFieldGroup (length srcAll))
       (demoSummary fields selectedFieldGroup dl srcAll).
Proof.
  induction fields as [|f fields [IH1 IH2]].
  - split; [by destruct srcAll|constructor].
  - rewrite demoSummary_cons.
    pose proof (summarizeField_covers selectedFieldGroup dl srcAll f) as H.
    destruct (summarizeField selectedFieldGroup dl srcAll f) as [s|]; simpl.
    + destruct H as [Hne Hc]. split; [|by constructor].
      rewrite IH1. by destruct srcAll.
    + split; [|done]. rewrite IH1. by rewrite H.
Qed.

Lemma insert_section_perm (x : string * section)
    (l : list (string * section)) :
  insert_section x l ≡ₚ x :: l.
Proof.
  induction l as [|y l IH]; simpl; [done|].
  destruct (gtb _ 0); [|done].
  rewrite IH. apply Permutation_swap.
Qed.

Lemma sort_sections_perm (l : list (string * section)) :
  sort_sections l ≡ₚ l.
Proof.
  induction l as [|x l IH]; simpl; [done|].
  by rewrite insert_section_perm, IH.
Qed.

Lemma insert_numeric_first (x : string * section)
    (l : list (string * section)) :
  is_numeric (snd x) = true -> insert_section x l = x :: l.
Proof.
  intros Hx. destruct l as [|y l]; simpl; [done|].
  unfold section_cmp. rewrite Hx.
  destruct x as [fx [vx ax bx|? ?]]; [|done].
  by destruct y as [fy [vy ay by_|[|it its] ty]].
Qed.

Lemma insert_categorical_after (x : string * section)
    (nums cats : list (string * section)) :
  is_numeric (snd x) = false ->
  Forall (fun fs => is_numeric (snd fs) = true) nums ->
  insert_section x (nums ++ cats) = nums ++ insert_section x cats.
Proof.
  intros Hx. induction 1 as [|y nums Hy _ IH]; simpl; [done|].
  unfold section_cmp at 1. rewrite Hx, Hy. simpl.
  by rewrite IH.
Qed.

Lemma sort_sections_numeric_first (l : list (string * section)) :
  sort_sections l
  = List.filter (fun fs => is_numeric (snd fs)) l
    ++ sort_sections (List.filter (fun fs => negb (is_numeric (snd fs))) l).
Proof.
  induction l as [|x l IH]; simpl; [done|].
  destruct (is_numeric (snd x)) eqn:Hx; simpl.
  - by rewrite insert_numeric_first, IH.
  - rewrite IH, insert_categorical_after; [done..|].
    apply Forall_forall. intros fs Hfs.
    by apply list_elem_of_In, filter_In in Hfs as [_ ?].
Qed.

(** X20.  With no row in scope [demoSummary] has no section; with a row
    in scope it has one section for every field: the numeric sections
    first, in the order of their fields, then the categorical ones.  A
    numeric section is given only for a numeric financing field with a
    numeric value and its two counters add up to the number of rows, and
    the total and the counts of a categorical section add up to the
    number of rows. *)
Theorem summary_has_a_section_per_field (fields : list string)
    (selectedFieldGroup : string) (dl : lookups)
    (srcAll : list (option row)) :
  let each := demoSummary fields selectedFieldGroup dl srcAll in
  let sections := demoSummary_sorted fields selectedFieldGroup dl srcAll in
  map fst each = (match srcAll with [] => [] | _ :: _ => fields end)
  /\ sections ≡ₚ each
  /\ (exists cats,
        sections = List.filter (fun fs => is_numeric (snd fs)) each ++ cats
        /\ Forall (fun fs => is_numeric (snd fs) = false) cats)
  /\ Forall (covers selectedFieldGroup (length srcAll)) sections.
Proof.
  intros each sections.
  destruct (demoSummary_covers fields selectedFieldGroup dl srcAll)
    as [Hfields Hcovers].
  assert (Hperm : sections ≡ₚ each) by apply sort_sections_perm.
  split; [done|]. split; [done|]. split.
  - eexists. split; [apply sort_sections_numeric_first|].
    apply Forall_forall. intros fs Hfs.
    rewrite sort_sections_perm in Hfs.
    apply list_elem_of_In, filter_In in Hfs as [_ Hfs].
    by destruct (is_numeric (snd fs)).
  - by rewrite Hperm.
Qed.

End Summary.

(** ** The list of models *)

Section Models.
Context {rt : Runtime}.

Lemma includes_set_add_all (l seen : list jsval) (v : jsval) :
  includes (set_add_all seen l) v = includes seen v || includes l v.
Proof.
  revert seen. induction l as [|a l IH]; intros seen; simpl.
  - by rewrite orb_false_r.
  - destruct (includes seen a) eqn:Ha; rewrite IH.
    + destruct (SameValueZero a v) eqn:Hav; [|done]. simpl.
      rewrite orb_true_r.
      rewrite SameValueZero_sym in Hav.
      by rewrite (includes_congr seen v a Hav), Ha.
    + rewrite includes_app. simpl. rewrite orb_false_r.
      by rewrite orb_assoc.
Qed.

Lemma includes_false (l : list jsval) (a x : jsval) :
  includes l a = false -> In x l -> SameValueZero a x = false.
Proof.
  unfold includes. intros H Hx. rewrite SameValueZero_sym.
  destruct (SameValueZero x a) eqn:Hxa; [|done].
  assert (existsb (fun y => SameValueZero y a) l = true); [|congruence].
  apply existsb_exists. by exists x.
Qed.

Lemma distinct_snoc (seen : list jsval) (a : jsval) :
  distinct_values seen -> includes seen a = false ->
  distinct_values (seen ++ [a]).
Proof.
  induction seen as [|x seen IH]; simpl; intros Hd Ha.
  - done.
  - destruct Hd as [Hx Hd]. apply orb_false_iff in Ha as [Hxa Ha].
    split; [|by apply IH].
    rewrite includes_app, Hx. simpl. rewrite orb_false_r.
    by rewrite SameValueZero_sym.
Qed.

Lemma distinct_set_add_all (l seen : list jsval) :
  distinct_values seen -> distinct_values (set_add_all seen l).
Proof.
  revert seen. induction l as [|a l IH]; intros seen Hd; simpl; [done|].
  destruct (includes seen a) eqn:Ha; apply IH; [done|].
  by apply distinct_snoc.
Qed.

Lemma distinct_sort_insert (x : jsval) (l : list jsval) :
  includes l x = false -> distinct_values l ->
  distinct_values (sort_insert x l).
Proof.
  induction l as [|y l IH]; simpl; intros Hx Hd; [done|].
  apply orb_false_iff in Hx as [Hyx Hx]. destruct Hd as [Hy Hd].
  destruct (sort_before y x); simpl.
  - split; [|by apply IH].
    rewrite includes_sort_insert. simpl. rewrite Hy, orb_false_r.
    by rewrite SameValueZero_sym.
  - by rewrite Hyx, Hx.
Qed.

Lemma distinct_sort_default (l : list jsval) :
  distinct_values l -> distinct_values (sort_default l).
Proof.
  induction l as [|x l IH]; simpl; [done|]. intros [Hx Hd].
  change (sort_default (x :: l)) with (sort_insert x (sort_default l)).
  apply distinct_sort_insert.
  - by rewrite includes_sort_default.
  - by apply IH.
Qed.

Lemma str_ltb_asym (a b : string) : str_ltb a b = true -> str_ltb b a = false.
Proof.
  revert b. induction a as [|x a IH]; intros [|y b]; simpl; try done.
  destruct (N.ltb_spec (N_of_ascii x) (N_of_ascii y)),
    (N.ltb_spec (N_of_ascii y) (N_of_ascii x)); try done; try lia.
  apply IH.
Qed.

Lemma sort_before_asym (a b : jsval) :
  sort_before a b = true -> sort_before b a = false.
Proof.
  unfold sort_before.
  destruct a, b; try done; apply str_ltb_asym.
Qed.

Lemma in_order_sort_insert (x : jsval) (l : list jsval) :
  in_order l -> in_order (sort_insert x l).
Proof.
  induction l as [|y l IH]; simpl; [done|]. intros Hl.
  destruct (sort_before y x) eqn:Hyx.
  - assert (Hl' : in_order l) by (destruct l; [done|]; simpl in Hl; tauto).
    specialize (IH Hl'). simpl.
    destruct l as [|z l]; simpl in *.
    + split; [by apply sort_before_asym|done].
    + destruct (sort_before z x); simpl in *.
      * split; [tauto|done].
      * split; [by apply sort_before_asym|done].
  - simpl. by split.
Qed.

Lemma in_order_sort_default (l : list jsval) : in_order (sort_default l).
Proof.
  induction l as [|x l IH]; simpl; [done|].
  unfold sort_default in *. simpl. by apply in_order_sort_insert.
Qed.

(** X21.  [allModels] includes a value exactly when some row has it as
    its model, lists no value twice, and is in the order of the default
    sort. *)
Theorem allModels_lists_each_model_once (rows : list row) (v : jsval) :
  includes (allModels rows) v
  = existsb (fun r => SameValueZero (get r "model") v) rows
  /\ distinct_values (allModels rows)
  /\ in_order (allModels rows).
Proof.
  unfold allModels. split; [|split].
  - rewrite includes_sort_default, includes_set_add_all. simpl.
    unfold includes. induction rows as [|r rows IH]; simpl; [done|].
    by rewrite IH.
  - apply distinct_sort_default. by apply distinct_set_add_all.
  - apply in_order_sort_default.
Qed.

End Models.

(** ** The attitudes chart *)

Section Attitudes.
Context {rt : Runtime}.

Lemma group_get_push (k' k : jsval) (r : row) (g : groups) :
  group_get (group_push k' r g) k
  = group_get g k ++ (if SameValueZero k' k then [r] else []).
Proof.
  induction g as [|[k'' rs] g IH]; simpl.
  - done.
  - destruct (SameValueZero k'' k') eqn:H1; simpl.
    + destruct (SameValueZero k'' k) eqn:H2.
      * assert (SameValueZero k' k = true) as ->; [|done].
        apply (SameValueZero_trans k' k'' k); [|done].
        by rewrite SameValueZero_sym.
      * assert (SameValueZero k' k = false) as ->; [|by rewrite app_nil_r].
        destruct (SameValueZero k' k) eqn:H3; [|done].
        rewrite <- H2. symmetry. apply (SameValueZero_trans k'' k' k); done.
    + destruct (SameValueZero k'' k) eqn:H2; [|done].
      assert (SameValueZero k' k = false) as ->; [|by rewrite app_nil_r].
      destruct (SameValueZero k' k) eqn:H3; [|done].
      rewrite <- H1. symmetry. apply (SameValueZero_trans k'' k k'); [done|].
      by rewrite SameValueZero_sym.
Qed.

Lemma group_get_byGroup (colorMode : string) (rows : list row) (k : jsval) :
  group_get (byGroup colorMode rows) k = rows_of_key colorMode rows k.
Proof.
  unfold byGroup, rows_of_key.
  assert (H : forall g,
             group_get
               (fold_left
                  (fun g r => group_push (groupKeyOf colorMode r) r g) rows g)
               k
             = group_get g k
               ++ List.filter
                    (fun r => SameValueZero (groupKeyOf colorMode r) k) rows).
  { induction rows as [|r rows IH]; intros g; simpl.
    - by rewrite app_nil_r.
    - rewrite IH, group_get_push, <- app_assoc. f_equal.
      by destruct (SameValueZero _ k). }
  apply H.
Qed.


Lemma set_add_all_In (l seen : list jsval) (v : jsval) :
  In v (set_add_all seen l) -> In v seen \/ In v l.
Proof.
  revert seen. induction l as [|a l IH]; intros seen H; simpl in *.
  - by left.
  - destruct (includes seen a).
    + destruct (IH _ H); auto.
    + destruct (IH _ H) as [H1|H1]; [|auto].
      apply in_app_or in H1 as [H1|[<-|[]]]; auto.
Qed.

Lemma insert_numeric_perm (x : jsval) (l : list jsval) :
  insert_numeric x l ≡ₚ x :: l.
Proof.
  induction l as [|y l IH]; simpl; [done|].
  destruct (gtb _ 0); [|done].
  rewrite IH. apply Permutation_swap.
Qed.

Lemma sort_numeric_perm (l : list jsval) : sort_numeric l ≡ₚ l.
Proof.
  induction l as [|x l IH]; simpl; [done|].
  by rewrite insert_numeric_perm, IH.
Qed.

Lemma sort_insert_perm (x : jsval) (l : list jsval) :
  sort_insert x l ≡ₚ x :: l.
Proof.
  induction l as [|y l IH]; simpl; [done|].
  destruct (sort_before y x); [|done].
  rewrite IH. apply Permutation_swap.
Qed.

Lemma sort_default_perm (l : list jsval) : sort_default l ≡ₚ l.
Proof.
  induction l as [|x l IH]; [done|].
  change (sort_default (x :: l)) with (sort_insert x (sort_default l)).
  by rewrite sort_insert_perm, IH.
Qed.

Lemma includes_perm (l1 l2 : list jsval) (v : jsval) :
  l1 ≡ₚ l2 -> includes l1 v = includes l2 v.
Proof.
  unfold includes.
  induction 1 as [|x l1 l2 _ IH|x y l|l1 l2 l3 _ IH1 _ IH2]; simpl.
  - done.
  - by rewrite IH.
  - by destruct (SameValueZero x v), (SameValueZero y v).
  - by rewrite IH1.
Qed.

(** A key of the chart is the key of a row. *)
Lemma attGroupKeys_from_rows (rows : list row) (colorMode : string)
    (k : jsval) :
  In k (attGroupKeys rows colorMode) ->
  exists r, In r rows /\ groupKeyOf colorMode r = k.
Proof.
  unfold attGroupKeys. intros H.
  assert (Hin : In k (set_add_all [] (map (groupKeyOf colorMode) rows))).
  { destruct (String.eqb colorMode "cluster").
    - apply list_elem_of_In in H. rewrite sort_numeric_perm in H.
      by apply list_elem_of_In, filter_In in H as [H _].
    - apply list_elem_of_In in H. rewrite sort_default_perm in H.
      by apply list_elem_of_In. }
  apply set_add_all_In in Hin as [[]|Hin].
  apply in_map_iff in Hin as (r & <- & Hr). by exists r.
Qed.

Lemma rows_of_key_nonempty (rows : list row) (colorMode : string) (r : row) :
  In r rows ->
  (1 <= length (rows_of_key colorMode rows (groupKeyOf colorMode r)))%nat.
Proof.
  intros Hr.
  assert (Hin : In r (rows_of_key colorMode rows (groupKeyOf colorMode r))).
  { apply filter_In. split; [done|]. apply SameValueZero_refl. }
  destruct (rows_of_key _ _ _); [done|simpl; lia].
Qed.

Lemma bounded_is_finite (lo hi x : float) :
  is_finite lo = true -> is_finite hi = true ->
  PrimFloat.leb lo x = true -> PrimFloat.leb x hi = true ->
  is_finite x = true.
Proof.
  intros Hlo Hhi H1 H2.
  apply is_finite_SF in Hlo, Hhi.
  revert H1 H2. rewrite !FloatAxioms.leb_spec.
  unfold is_finite, PrimFloat.is_nan, PrimFloat.is_infinity.
  rewrite !FloatAxioms.eqb_spec, FloatAxioms.abs_spec.
  change (Prim2SF infinity) with (S754_infinity false).
  destruct (Prim2SF x) as [s|s| |s m e], (Prim2SF lo) as [sl|sl| |sl ml el],
    (Prim2SF hi) as [sh|sh| |sh mh eh]; simpl in *;
    try done; try (by destruct s); try (by destruct s, sl);
    try (by destruct s, sh).
  all: intros _ _; unfold SFeqb; simpl;
    rewrite Z.compare_refl, Pos.compare_cont_refl; by destruct s.
Qed.

(** The score of a group that has a row. *)
Lemma score_of_group (rs : list row) (varName : string) (dl : lookups) :
  (1 <= length rs)%nat -> Z.of_nat (length rs) < 2 ^ 53 ->
  let p := percentAgreeMappedPolicy (map Some rs) varName dl true in
  PrimFloat.leb 0 p = true /\ PrimFloat.leb p 100 = true
  /\ is_finite p = true.
Proof.
  intros Hpos Hbig p.
  destruct (tally_fold_invariant varName dl (map Some rs) (mkTally 0 0 0))
    as [Hav Hsum].
  fold (tally_rows (map Some rs) varName dl) in Hav, Hsum.
  simpl in Hav, Hsum. specialize (Hav (Nat.le_refl 0)).
  rewrite length_map in Hsum.
  subst p. unfold percentAgreeMappedPolicy, denominator.
  set (t := tally_rows (map Some rs) varName dl) in *. cbv zeta.
  destruct (Nat.ltb_spec 0 (valid t + missing t)) as [Hd|Hd]; [|lia].
  destruct (pct_in_range (agree t) (valid t + missing t)) as [H0 H100];
    [lia..|].
  cbv zeta in H0, H100. split; [done|]. split; [done|].
  by apply (bounded_is_finite 0 100).
Qed.


Lemma eqb_is_finite (x y : float) :
  PrimFloat.eqb x y = true -> is_finite y = true -> is_finite x = true.
Proof.
  intros Hxy Hy.
  apply (bounded_is_finite y y); try done.
  - rewrite FloatAxioms.leb_spec. rewrite eqb_sym in Hxy.
    revert Hxy. rewrite FloatAxioms.eqb_spec. unfold SFleb, SFeqb.
    by destruct (SFcompare (Prim2SF y) (Prim2SF x)) as [[| |]|].
  - rewrite FloatAxioms.leb_spec.
    revert Hxy. rewrite FloatAxioms.eqb_spec. unfold SFleb, SFeqb.
    by destruct (SFcompare (Prim2SF x) (Prim2SF y)) as [[| |]|].
Qed.

Lemma SameValueZero_isFinite (a v : jsval) :
  SameValueZero a v = true -> Number_isFinite v = true ->
  Number_isFinite a = true.
Proof.
  destruct a as [| |x|x|x], v as [| |y|y|y]; simpl; try done.
  intros H Hy. apply orb_true_iff in H as [H|H].
  - by apply (eqb_is_finite x y).
  - apply andb_true_iff in H as [_ H].
    apply is_finite_not_nan in Hy. congruence.
Qed.

Lemma includes_filter_finite (l : list jsval) (v : jsval) :
  Number_isFinite v = true ->
  includes (List.filter Number_isFinite l) v = includes l v.
Proof.
  intros Hv. unfold includes. induction l as [|a l IH]; simpl; [done|].
  destruct (Number_isFinite a) eqn:Ha; simpl; [by rewrite IH|].
  rewrite IH. destruct (SameValueZero a v) eqn:Hav; [|done].
  by rewrite (SameValueZero_isFinite a v) in Ha.
Qed.

(** The key of a row is a key of the chart, unless the key is a cluster
    that is not a finite number. *)
Lemma attGroupKeys_includes (rows : list row) (colorMode : string)
    (r : row) :
  In r rows ->
  (String.eqb colorMode "cluster" = true ->
   Number_isFinite (get r "cluster") = true) ->
  includes (attGroupKeys rows colorMode) (groupKeyOf colorMode r) = true.
Proof.
  intros Hr Hfin. unfold attGroupKeys.
  assert (Hin : includes
                  (set_add_all [] (map (groupKeyOf colorMode) rows))
                  (groupKeyOf colorMode r) = true).
  { apply set_add_all_includes. right. by apply in_map. }
  destruct (String.eqb colorMode "cluster") eqn:Hc.
  - rewrite (includes_perm _ _ _ (sort_numeric_perm _)).
    rewrite includes_filter_finite; [done|].
    unfold groupKeyOf. rewrite Hc. by apply Hfin.
  - by rewrite includes_sort_default.
Qed.

Lemma attitudes_fold (g : groups) (colorMode attXVar attYVar : string)
    (dl : lookups) (keys : list jsval) (acc : list att_point) :
  Forall (fun k => (1 <= length (group_get g k))%nat
                   /\ Z.of_nat (length (group_get g k)) < 2 ^ 53) keys ->
  fold_left (attitudes_step g colorMode attXVar attYVar dl) keys acc
  = acc ++ map (point_of g colorMode attXVar attYVar dl) keys.
Proof.
  intros H. revert acc.
  induction H as [|k keys [Hk1 Hk2] _ IH]; intros acc; simpl.
  - by rewrite app_nil_r.
  - unfold attitudes_step at 2. cbv zeta.
    destruct (score_of_group (group_get g k) attXVar dl Hk1 Hk2)
      as (_ & _ & ->).
    destruct (score_of_group (group_get g k) attYVar dl Hk1 Hk2)
      as (_ & _ & ->).
    simpl. rewrite IH, <- app_assoc. done.
Qed.

(** X22.  With fewer than [2^53] rows, the attitudes chart has one point
    for every key of [attGroupKeys], in that order; each point counts
    the rows of its group, at least one, and its two scores lie between
    0 and 100; and every row belongs to the group of a point, unless
    the chart is by cluster and the cluster of the row is not a finite
    number. *)
Theorem attitude_points_are_on_the_chart (rows : list row)
    (colorMode attXVar attYVar : string) (dl : lookups) :
  Z.of_nat (length rows) < 2 ^ 53 ->
  let pts := attitudesPoints rows colorMode attXVar attYVar dl in
  map a_key pts = attGroupKeys rows colorMode
  /\ Forall (fun p =>
               a_n p = length (rows_of_key colorMode rows (a_key p))
               /\ (1 <= a_n p)%nat
               /\ PrimFloat.leb 0 (a_x p) = true
               /\ PrimFloat.leb (a_x p) 100 = true
               /\ PrimFloat.leb 0 (a_y p) = true
               /\ PrimFloat.leb (a_y p) 100 = true) pts
  /\ (forall r, In r rows ->
        (String.eqb colorMode "cluster" = true ->
         Number_isFinite (get r "cluster") = true) ->
        includes (map a_key pts) (groupKeyOf colorMode r) = true).
Proof.
  intros Hbig pts.
  assert (Hkeys : Forall
            (fun k =>
               (1 <= length (group_get (byGroup colorMode rows) k))%nat
               /\ Z.of_nat (length (group_get (byGroup colorMode rows) k))
                  < 2 ^ 53)
            (attGroupKeys rows colorMode)).
  { apply Forall_forall. intros k Hk.
    apply list_elem_of_In, attGroupKeys_from_rows in Hk as (r & Hr & <-).
    rewrite group_get_byGroup. split; [by apply rows_of_key_nonempty|].
    pose proof (List.filter_length_le
                  (fun r' => SameValueZero (groupKeyOf colorMode r')
                               (groupKeyOf colorMode r)) rows) as Hle.
    unfold rows_of_key. lia. }
  assert (Hpts : pts = map (point_of (byGroup colorMode rows) colorMode
                              attXVar attYVar dl)
                         (attGroupKeys rows colorMode)).
  { subst pts. unfold attitudesPoints. by rewrite attitudes_fold. }
  assert (Hmap : map a_key pts = attGroupKeys rows colorMode).
  { rewrite Hpts, map_map. simpl. apply map_id. }
  split; [done|]. split.
  - rewrite Hpts. apply Forall_map.
    eapply Forall_impl; [exact Hkeys|].
    intros k [Hk1 Hk2]. simpl.
    destruct (score_of_group _ attXVar dl Hk1 Hk2) as (Hx0 & Hx1 & _).
    destruct (score_of_group _ attYVar dl Hk1 Hk2) as (Hy0 & Hy1 & _).
    rewrite group_get_byGroup in *. done.
  - intros r Hr Hfin. rewrite Hmap. by apply attGroupKeys_includes.
Qed.

End Attitudes.

(** Two models: a point for each, in the order of the default sort. *)
Lemma attitude_points_witness :
  map a_key
    (@attitudesPoints Reference.engine Scenarios.chart_rows "model"
       "PV_VALUE" "PV_PRICE" (fun _ => None))
  = [JStr "Macan"; JStr "Stelvio"].
Proof.
  destruct (@attitude_points_are_on_the_chart Reference.engine
              Scenarios.chart_rows "model" "PV_VALUE" "PV_PRICE"
              (fun _ => None) eq_refl) as (H & _).
  rewrite H. vm_compute. reflexivity.
Defined.

(** ** The shares of the states *)

Section StateShares.
Variable getRowStateName : row -> option string.

Lemma stateAgg_count_invariant (rows : list row)
    (acc : list (string * nat) * nat) :
  let acc' := fold_left (stateAgg_count getRowStateName) rows acc in
  (NoDup (map fst (fst acc)) -> NoDup (map fst (fst acc')))
  /\ (Forall (fun kc => (1 <= snd kc)%nat) (fst acc) ->
      Forall (fun kc => (1 <= snd kc)%nat) (fst acc'))
  /\ (counts_total (fst acc')
      = counts_total (fst acc)
        + length (List.filter
                    (fun r => negb (unnamed getRowStateName r)) rows))%nat
  /\ (snd acc'
      = snd acc
        + length (List.filter
                    (fun r => negb (unnamed getRowStateName r)) rows))%nat
  /\ (forall name, name <> ""%string ->
        assoc_count name (fst acc')
        = (assoc_count name (fst acc)
           + length (rows_of_state getRowStateName name rows))%nat).
Proof.
  revert acc. induction rows as [|r rows IH]; intros acc; simpl.
  - repeat split; try done; intros; lia.
  - destruct (IH (stateAgg_count getRowStateName acc r))
      as (H1 & H2 & H3 & H4 & H5).
    unfold stateAgg_count, unnamed in *.
    destruct (getRowStateName r) as [[|c n]|] eqn:Hn; simpl in *.
    + repeat split; try done. intros name Hname. rewrite H5 by done.
      rewrite bool_decide_eq_false_2; [done|]. congruence.
    + split; [intros H; by apply H1, counts_bump_NoDup|].
      split; [intros H; by apply H2, counts_bump_positive|].
      split; [rewrite H3, counts_bump_total; lia|].
      split; [lia|].
      intros name Hname. rewrite H5, counts_bump_assoc by done.
      destruct (String.eqb_spec (String c n) name) as [->|Hne].
      * rewrite bool_decide_eq_true_2 by done. simpl. lia.
      * rewrite bool_decide_eq_false_2 by congruence. lia.
    + repeat split; try done.
Qed.


Lemma pcts_set_fresh (name : string) (pct : float)
    (m : list (string * float)) :
  ~ In name (map fst m) -> pcts_set name pct m = m ++ [(name, pct)].
Proof.
  induction m as [|[k v] m IH]; simpl; intros H; [done|].
  destruct (String.eqb_spec k name) as [->|Hne].
  - exfalso. apply H. by left.
  - rewrite IH; [done|]. intros Hin. apply H. by right.
Qed.

Lemma stateAgg_share_fold (total : nat) (cs : list (string * nat))
    (m : list (string * float)) (mx : float) :
  NoDup (map fst m ++ map fst cs) ->
  fold_left (stateAgg_share total) cs (m, mx)
  = (m ++ map (fun nc => (fst nc, pct_of total (snd nc))) cs,
     largest (map (fun nc => pct_of total (snd nc)) cs) mx).
Proof.
  revert m mx. induction cs as [|[n c] cs IH]; intros m mx Hnd; simpl.
  - by rewrite app_nil_r.
  - unfold stateAgg_share at 2. simpl.
    rewrite pcts_set_fresh.
    2:{ apply NoDup_app in Hnd as (_ & Hd & _). intros Hin.
        apply (Hd n); [by apply list_elem_of_In|by left]. }
    rewrite IH.
    + by rewrite <- app_assoc.
    + rewrite map_app, <- app_assoc. done.
Qed.

Lemma largest_spec (ps : list float) (start : float) :
  PrimFloat.leb 0 start = true -> PrimFloat.leb start 100 = true ->
  Forall (fun p => PrimFloat.leb 0 p = true /\ PrimFloat.leb p 100 = true)
    ps ->
  let mx := largest ps start in
  PrimFloat.leb 0 mx = true /\ PrimFloat.leb mx 100 = true
  /\ PrimFloat.leb start mx = true
  /\ Forall (fun p => PrimFloat.leb p mx = true) ps
  /\ (mx = start \/ In mx ps).
Proof.
  intros H0 H100 Hps. revert start H0 H100.
  induction Hps as [|p ps [Hp0 Hp100] _ IH]; intros start H0 H100; simpl.
  - split; [done|]. split; [done|]. split; [|by split; [constructor|left]].
    apply leb_refl. by apply (leb_not_nan 0).
  - unfold gtb.
    assert (Hnp : PrimFloat.is_nan p = false) by by apply (leb_not_nan 0).
    assert (Hns : PrimFloat.is_nan start = false)
      by by apply (leb_not_nan 0).
    destruct (PrimFloat.ltb start p) eqn:Hlt.
    + destruct (IH p Hp0 Hp100) as (A & B & C & D & E).
      split; [done|]. split; [done|].
      split; [by apply (leb_trans start p); [apply ltb_leb|]|].
      split; [by constructor|].
      right. destruct E as [->|E]; [by left|by right].
    + destruct (IH start H0 H100) as (A & B & C & D & E).
      split; [done|]. split; [done|]. split; [done|].
      split.
      * constructor; [|done].
        apply (leb_trans p start); [|done]. by apply not_ltb_leb.
      * destruct E as [->|E]; [by left|right; by right].
Qed.

(** X23.  With fewer than [2^53] rows, [stateAgg] counts the rows that
    have a state name: [total] is their number, the counts add up to it,
    no state is listed twice and the count of a state is the number of
    its rows; the share of each state is its count over the total, in
    percent; and [maxPct] lies between 0 and 100, is at least every
    share, and is 0 or one of the shares. *)
Theorem state_shares_are_bounded_by_maxPct (mapSourceRows : list row) :
  Z.of_nat (length mapSourceRows) < 2 ^ 53 ->
  let a := stateAgg getRowStateName mapSourceRows in
  s_total a
  = length (List.filter (fun r => negb (unnamed getRowStateName r))
              mapSourceRows)
  /\ counts_total (s_counts a) = s_total a
  /\ NoDup (map fst (s_counts a))
  /\ (forall name, name <> ""%string ->
        assoc_count name (s_counts a)
        = length (rows_of_state getRowStateName name mapSourceRows))
  /\ s_pcts a
     = map (fun nc => (fst nc, pct_of (s_total a) (snd nc))) (s_counts a)
  /\ PrimFloat.leb 0 (s_maxPct a) = true
  /\ PrimFloat.leb (s_maxPct a) 100 = true
  /\ Forall (fun np => PrimFloat.leb 0 (snd np) = true
                       /\ PrimFloat.leb (snd np) (s_maxPct a) = true)
       (s_pcts a)
  /\ (s_maxPct a = 0%float \/ In (s_maxPct a) (map snd (s_pcts a))).
Proof.
  intros Hbig a.
  destruct (stateAgg_count_invariant mapSourceRows ([], 0%nat))
    as (Hnd & Hpos & Hsum & Htot & Hassoc).
  simpl in Hnd, Hpos, Hsum, Htot, Hassoc.
  specialize (Hnd (NoDup_nil_2 (A:=string))).
  specialize (Hpos (Forall_nil_2 _)).
  pose proof (List.filter_length_le
                (fun r => negb (unnamed getRowStateName r)) mapSourceRows)
    as Hle.
  subst a. unfold stateAgg. cbv zeta.
  set (counted := fold_left (stateAgg_count getRowStateName) mapSourceRows
                    ([], 0%nat)) in *.
  cbn [s_counts s_pcts s_total s_maxPct].
  split; [done|]. split; [by rewrite Hsum, Htot|]. split; [done|].
  split; [done|].
  destruct (Nat.ltb_spec 0 (snd counted)) as [Hgt|Hz].
  - rewrite stateAgg_share_fold by done. cbn [fst snd app].
    assert (Hall : Forall
              (fun p => PrimFloat.leb 0 p = true
                        /\ PrimFloat.leb p 100 = true)
              (map (fun nc => pct_of (snd counted) (snd nc))
                 (fst counted))).
    { apply Forall_map, Forall_forall. intros [n c] Hin. simpl.
      apply pct_in_range; [|done|lia].
      assert (c <= counts_total (fst counted))%nat; [|lia].
      apply list_elem_of_In in Hin. clear -Hin. unfold counts_total.
      induction (fst counted) as [|[k c'] cs IH]; [done|].
      destruct Hin as [[= <- <-]|Hin]; simpl; [lia|].
      specialize (IH Hin). lia. }
    destruct (largest_spec _ 0 eq_refl eq_refl Hall)
      as (A & B & _ & D & E).
    cbv zeta in A, B, D, E.
    split; [done|]. split; [done|]. split; [done|]. split.
    + apply Forall_map. simpl.
      apply Forall_map in D. apply Forall_map in Hall.
      apply Forall_forall. intros nc Hnc.
      split.
      * by apply (proj1 (Forall_forall _ _) Hall nc).
      * by apply (proj1 (Forall_forall _ _) D nc).
    + destruct E as [E|E]; [by left|right].
      by rewrite map_map.
  - assert (Hc : fst counted = []).
    { destruct (fst counted) as [|[k c] cs]; [done|].
      apply Forall_cons in Hpos as [Hc _]. unfold counts_total in Hsum.
      simpl in *. lia. }
    rewrite Hc. simpl. repeat split; try done. by left.
Qed.

End StateShares.

(** Three of the four rows have a state, and Ohio has two of them. *)
Lemma state_shares_witness :
  let a := stateAgg Scenarios.state_of Scenarios.state_rows in
  s_total a = 3%nat
  /\ s_counts a = [("Ohio", 2%nat); ("Texas", 1%nat)]
  /\ PrimFloat.leb (s_maxPct a) 100 = true.
Proof.
  destruct (state_shares_are_bounded_by_maxPct Scenarios.state_of
              Scenarios.state_rows eq_refl)
    as (H1 & _ & _ & _ & _ & _ & H2 & _).
  split; [exact H1|]. split; [reflexivity|exact H2].
Defined.
